(** * minimum-flow-parser: the Flow type grammar of [Parser.ts]

    A shallow embedding of [packages/minimum-flow-parser/src/Parser.ts].
    The reducer functions ([applyOptionalType], [applyTypeLrec], ...) and
    the grammar rules ([IDENTIFIER], [TYPE_TERM], [TYPE_ARRAY], [TYPE],
    [DECL], [STAT], [PROGRAM]) are transcribed from that file.  The parser
    combinators it imports from [ts-parsec], the token kinds it imports
    from [./Tokenizer] and the node shapes it imports from [./AST] live in
    other files; they are modelled from the prose specification and are
    marked as such. *)

From Stdlib Require Import String List Bool Arith Lia.
Import ListNotations.
Open Scope string_scope.
Set Implicit Arguments.
Set Warnings "-register-all".

(* ------------------------------------------------------------------ *)
(** ** Tokens *)

(** Modelled from the spec: the token kinds of [./Tokenizer] (section 6).
    The six kinds the grammar dispatches on are named as in [Parser.ts];
    every other token (punctuation, reserved words matched by their text)
    is a [Punctuation] or a [Word]. *)
Inductive TokenKind : Set :=
| KEYWORD_type
| KEYWORD_true
| KEYWORD_false
| Identifier
| StringLiteral
| NumberLiteral
| Punctuation
| Word.

Definition TokenKind_eqb (a b : TokenKind) : bool :=
  match a, b with
  | KEYWORD_type, KEYWORD_type
  | KEYWORD_true, KEYWORD_true
  | KEYWORD_false, KEYWORD_false
  | Identifier, Identifier
  | StringLiteral, StringLiteral
  | NumberLiteral, NumberLiteral
  | Punctuation, Punctuation
  | Word, Word => true
  | _, _ => false
  end.

(** Modelled from the spec: a token is "kind + literal text + source
    position" (section 1); the position is the index the tokenizer gave. *)
Record Token : Set := mkToken {
  kind : TokenKind;
  text : string;
  pos : nat
}.

(* ------------------------------------------------------------------ *)
(** ** The AST of [./AST] *)

(** Modelled from the spec: [EntityName] (section 3), a plain identifier
    or [{parent, name}]. *)
Inductive EntityName : Set :=
| Name (id : string)
| Qualified (parent : EntityName) (name : string).

(** Modelled from the spec: the [Type] and [ObjectMember] families
    (section 3).  Two fields follow what [Parser.ts] stores at run time
    rather than the declared shape: [ArrayType.elementType] is an option,
    because [applyArrayTypeLrec] builds the node with [undefined] there,
    and [TypeReference.name] is an option, because [applyTypeReference]
    casts a variable that starts as [undefined]. *)
Inductive Type_ : Set :=
| PrimitiveType (name : string)
| LiteralType (text : string)
| OptionalType (elementType : Type_)
| ParenType (elementType : Type_)
| ArrayType (isReadonly : bool) (elementType : option Type_)
| UnionType (elementTypes : list Type_)
| TypeReference (name : option EntityName) (typeArguments : list Type_)
| DecoratedGenericType (name : string) (elementType : Type_)
| ObjectType (isExact : bool) (mixinTypes : list Type_)
             (members : list ObjectMember)
with ObjectMember : Set :=
| Prop_ (isReadonly : bool) (name : string) (isOptional : bool)
        (propType : Type_)
| Indexer (isReadonly : bool) (keyName : string) (keyType : Type_)
          (valueType : Type_).

(** Modelled from the spec: [Statement] (section 3).  [ast.Declaration] has
    the single variant [TypeAliasDecl], which is also a statement. *)
Inductive Statement : Set :=
| TypeAliasDecl (hasExport : bool) (name : string) (aliasedType : Type_)
| UseStrictStat
| ImportEqualStat (name : string) (source : string)
| ImportAsStat (name : string) (source : string)
| ImportNameStat (names : list string) (source : string).

(** Modelled from the spec: [FlowProgram] (section 3). *)
Record FlowProgram : Set := mkFlowProgram {
  statements : list Statement
}.

(* ------------------------------------------------------------------ *)
(** ** Parser outputs and errors *)

(** Modelled from the spec: the error taxonomy of section 7.  An
    [UnexpectedToken] carries the position of the offending token. *)
Inductive ParseError : Set :=
| UnexpectedToken (at_pos : nat)
| UnexpectedEndOfInput
| TrailingInput (at_pos : nat).

(** The position an error describes; [None] is the end of the input. *)
Definition errorPos (e : ParseError) : option nat :=
  match e with
  | UnexpectedToken p => Some p
  | UnexpectedEndOfInput => None
  | TrailingInput p => Some p
  end.

(** Modelled from the spec: "one error describing the furthest position
    reached" (section 7).  Of two errors the one further into the stream
    is kept; the end of the input is further than every token, and the
    earlier error wins a tie. *)
Definition furthest (e1 e2 : ParseError) : ParseError :=
  match errorPos e1, errorPos e2 with
  | None, _ => e1
  | Some _, None => e2
  | Some p1, Some p2 => if Nat.ltb p1 p2 then e2 else e1
  end.

(** Modelled from the spec: [furthest], when either error may be absent. *)
Definition betterError (e1 e2 : option ParseError) : option ParseError :=
  match e1, e2 with
  | None, _ => e2
  | Some _, None => e1
  | Some a, Some b => Some (furthest a b)
  end.

(** The outcome of a callback that may [throw]. *)
Inductive Completion (A : Type) : Type :=
| Normal (value : A)
| Throw (message : string).
Arguments Throw {A} message.

(** Modelled from the spec: "each layer either succeeds and returns a
    recognized AST fragment plus unconsumed remainder, or fails without
    consuming input" (section 2).  A success also remembers the furthest
    error met on the way, so that the caller can report it.  [Thrown] is
    the JavaScript exception a reducer raises; it is not a parse failure
    and no combinator catches it. *)
Inductive ParserOutput (A : Type) : Type :=
| Success (result : A) (rest : list Token) (error : option ParseError)
| Failure (error : ParseError)
| Thrown (message : string).
Arguments Failure {A} error.
Arguments Thrown {A} message.

Definition Parser (A : Type) : Type := list Token -> ParserOutput A.

(** Modelled from the spec: the error of a token parser that does not
    match: [UnexpectedToken] at the current token, [UnexpectedEndOfInput]
    when no token remains (section 7). *)
Definition errorAt (ts : list Token) : ParseError :=
  match ts with
  | [] => UnexpectedEndOfInput
  | t :: _ => UnexpectedToken (pos t)
  end.

(* ------------------------------------------------------------------ *)
(** ** The combinators of [ts-parsec] *)

(** Modelled from the spec: [str], the grammar "explicitly matches
    literal text" (section 6): one token whose text is [toMatch]. *)
Definition str (toMatch : string) : Parser Token :=
  fun ts =>
    match ts with
    | t :: rest =>
        if String.eqb (text t) toMatch then Success t rest None
        else Failure (errorAt ts)
    | [] => Failure (errorAt ts)
    end.

(** Modelled from the spec: [tok], "token kind comparison, not raw text,
    drives dispatch" (section 6): one token of kind [toMatch]. *)
Definition tok (toMatch : TokenKind) : Parser Token :=
  fun ts =>
    match ts with
    | t :: rest =>
        if TokenKind_eqb (kind t) toMatch then Success t rest None
        else Failure (errorAt ts)
    | [] => Failure (errorAt ts)
    end.

(** Modelled from the spec: [apply], a rule "reduced to AST nodes"
    (section 1): the reducer maps the result of a success. *)
Definition apply {A B : Type} (p : Parser A) (callback : A -> B)
  : Parser B :=
  fun ts =>
    match p ts with
    | Success r rest e => Success (callback r) rest e
    | Failure e => Failure e
    | Thrown m => Thrown m
    end.

(** Modelled from the spec: [seq], "sequence composition requires every
    element to match starting immediately after the previous element's
    end position" (section 5).  The n-ary [seq(a, b, c)] of the source is
    [seq a (seq b c)], its tuple [[x, y, z]] the pair [(x, (y, z))]. *)
Definition seq {A B : Type} (p : Parser A) (q : Parser B)
  : Parser (A * B) :=
  fun ts =>
    match p ts with
    | Success a rest1 e1 =>
        match q rest1 with
        | Success b rest2 e2 => Success (a, b) rest2 (betterError e1 e2)
        | Failure e2 =>
            Failure (match e1 with Some e => furthest e e2 | None => e2 end)
        | Thrown m => Thrown m
        end
    | Failure e => Failure e
    | Thrown m => Thrown m
    end.

(** Modelled from the spec: [alt], "try alternatives in order, first
    success wins, no side effects on failure" (section 9); when every
    alternative fails, the furthest of their errors is reported. *)
Fixpoint alt_from {A : Type} (err : option ParseError)
    (ps : list (Parser A)) : Parser A :=
  fun ts =>
    match ps with
    | [] => Failure (match err with Some e => e | None => errorAt ts end)
    | p :: ps' =>
        match p ts with
        | Success r rest e => Success r rest (betterError err e)
        | Failure e => alt_from (betterError err (Some e)) ps' ts
        | Thrown m => Thrown m
        end
    end.

(** Modelled from the spec: [alt] itself, starting with no error seen. *)
Definition alt {A : Type} (ps : list (Parser A)) : Parser A :=
  alt_from None ps.

(** Modelled from the spec: [opt_sc], an "optional" element (sections
    4.1, 4.3): the element when it matches, otherwise [undefined]
    ([None]) without consuming. *)
Definition opt_sc {A : Type} (p : Parser A) : Parser (option A) :=
  fun ts =>
    match p ts with
    | Success r rest e => Success (Some r) rest e
    | Failure e => Success None ts (Some e)
    | Thrown m => Thrown m
    end.

(** Modelled from the spec: [rep_sc], "applies the parser repeatedly ...
    until no further [element] can be matched, collecting results in
    encounter order" (section 4.5).  The loop stops at the first failure
    or at a match that did not advance the cursor ("advances
    monotonically", section 5); it always succeeds.  Every round but the
    last consumes a token, so [S (length ts)] rounds are enough and the
    [0] branch is never reached. *)
Fixpoint rep_loop {A : Type} (p : Parser A) (rounds : nat)
    (acc : list A) (err : option ParseError) (ts : list Token)
  : ParserOutput (list A) :=
  match rounds with
  | 0 => Success (rev acc) ts err
  | S rounds' =>
      match p ts with
      | Success r rest e =>
          if Nat.ltb (length rest) (length ts)
          then rep_loop p rounds' (r :: acc) (betterError err e) rest
          else Success (rev acc) ts (betterError err e)
      | Failure e => Success (rev acc) ts (betterError err (Some e))
      | Thrown m => Thrown m
      end
  end.

(** Modelled from the spec: [rep_sc] itself, the loop started with no
    result and no error. *)
Definition rep_sc {A : Type} (p : Parser A) : Parser (list A) :=
  fun ts => rep_loop p (S (length ts)) [] None ts.

(** Modelled from the spec: [kright], a separator followed by an element,
    keeping the element. *)
Definition kright {A B : Type} (p : Parser A) (q : Parser B) : Parser B :=
  apply (seq p q) snd.

(** Modelled from the spec: [list_sc], "one or more dot-separated
    identifiers", a "comma-separated member list" (section 4.1): an
    element, then zero or more (separator, element) pairs. *)
Definition list_sc {A S : Type} (p : Parser A) (s : Parser S)
  : Parser (list A) :=
  apply (seq p (rep_sc (kright s p))) (fun v => fst v :: snd v).

(** Modelled from the spec: [lrec_sc], "parse a head, then parse
    zero-or-more (operator, operand) pairs, reducing left-to-right with
    an operator-specific combiner function" (section 4.2). *)
Fixpoint applyLrec {A B : Type} (callback : A -> B -> Completion A)
    (result : A) (tails : list B) : Completion A :=
  match tails with
  | [] => Normal result
  | tail :: tails' =>
      match callback result tail with
      | Normal r => applyLrec callback r tails'
      | Throw m => Throw m
      end
  end.

(** Modelled from the spec: [lrec_sc] itself: the head, the repeated
    tail, then the left-to-right reduction; an exception of the combiner
    leaves the parser. *)
Definition lrec_sc {A B : Type} (p : Parser A) (q : Parser B)
    (callback : A -> B -> Completion A) : Parser A :=
  fun ts =>
    match seq p (rep_sc q) ts with
    | Success v rest e =>
        match applyLrec callback (fst v) (snd v) with
        | Normal r => Success r rest e
        | Throw m => Thrown m
        end
    | Failure e => Failure e
    | Thrown m => Thrown m
    end.

(* ------------------------------------------------------------------ *)
(** ** The reducers of [Parser.ts] *)

Definition isDefined {A : Type} (v : option A) : bool :=
  match v with Some _ => true | None => false end.

Definition applyNull (value : Token) : Type_ := PrimitiveType "null".
Definition applyNumber (value : Token) : Type_ := PrimitiveType "number".
Definition applyString (value : Token) : Type_ := PrimitiveType "string".
Definition applyBoolean (value : Token) : Type_ := PrimitiveType "boolean".

Definition applyLiteralType (value : Token) : Type_ :=
  LiteralType (text value).

Definition applyOptionalType (value : Token * Type_) : Type_ :=
  let elementType := snd value in
  match elementType with
  | OptionalType _ => elementType
  | _ => OptionalType elementType
  end.

Definition applyParenType (value : Token * (Type_ * Token)) : Type_ :=
  ParenType (fst (snd value)).

Definition applyReadonlyArrayType
    (value : Token * (Token * (Type_ * Token))) : Type_ :=
  ArrayType true (Some (fst (snd (snd value)))).

Definition applyDecoratedGenericType
    (value : Token * (Token * (Type_ * Token))) : Type_ :=
  DecoratedGenericType "$ReadOnly" (fst (snd (snd value))).

(** One round of the [for (const name of names)] loop. *)
Definition entityStep (entity : option EntityName) (name : Token)
  : option EntityName :=
  match entity with
  | None => Some (Name (text name))
  | Some e => Some (Qualified e (text name))
  end.

Definition applyTypeReference
    (value : list Token * option (Token * (list Type_ * Token))) : Type_ :=
  let '(names, typeArguments) := value in
  let entity := fold_left entityStep names None in
  match typeArguments with
  | None => TypeReference entity []
  | Some args => TypeReference entity (fst (snd args))
  end.

Definition applyObjectTypeMixin (value : Token * Type_) : Type_ :=
  snd value.

Definition applyObjectTypeProp
    (value : option Token * (Token * (option Token * (Token * Type_))))
  : ObjectMember :=
  let '(isReadonly, (name, (isOptional, (_, propType)))) := value in
  Prop_ (isDefined isReadonly) (text name) (isDefined isOptional) propType.

Definition applyObjectIndexer
    (value : option Token * (Token * (Token * (Token * (Type_ *
               (Token * (Token * Type_)))))))
  : ObjectMember :=
  let '(isReadonly, (_, (keyName, (_, (keyType, (_, (_, valueType))))))) :=
    value in
  Indexer (isDefined isReadonly) (text keyName) keyType valueType.

(** The element type of the member list: [ast.Type | ast.ObjectMember].
    The two [filter] calls tell them apart by [member.kind]; a [Type] never
    has kind ['Prop'] or ['Indexer'] and an [ObjectMember] always has. *)
Definition isMember (member : Type_ + ObjectMember) : bool :=
  match member with
  | inl _ => false
  | inr (Prop_ _ _ _ _) => true
  | inr (Indexer _ _ _ _) => true
  end.

Definition asTypes (members : list (Type_ + ObjectMember)) : list Type_ :=
  flat_map (fun m => match m with inl t => [t] | inr _ => [] end) members.

Definition asMembers (members : list (Type_ + ObjectMember))
  : list ObjectMember :=
  flat_map (fun m => match m with inl _ => [] | inr o => [o] end) members.

Definition applyObjectType
    (value : Token * (option Token * (option (list (Type_ + ObjectMember)) *
               (option Token * (option Token * Token))))) : Type_ :=
  let '(_, (isExact, (members, _))) := value in
  ObjectType (isDefined isExact)
    (match members with
     | None => []
     | Some ms => asTypes (filter (fun m => negb (isMember m)) ms)
     end)
    (match members with
     | None => []
     | Some ms => asMembers (filter isMember ms)
     end).

Definition applyArrayTypeLrec (value : Token * Token) : Type_ :=
  ArrayType false None.

Definition applyUnionHead (value : option Token * Type_) : Type_ :=
  snd value.

Definition applyUnionTypeLrec (value : Token * Type_) : Type_ :=
  UnionType [snd value].

(** [second.elementType = first], [first.elementTypes.push(...)] and
    [second.elementTypes.unshift(first)] update a node in place.  This
    definition gives the node that is returned, as its only consumer
    sees it: a node built by one reducer call and handed on once.  What
    the update does to a node that is reached a second time is modelled
    with an explicit store by [applyTypeLrecUnionCase] below. *)
Definition applyTypeLrec (first second : Type_) : Completion Type_ :=
  match second with
  | ArrayType isReadonly _ => Normal (ArrayType isReadonly (Some first))
  | UnionType elementTypes =>
      match first with
      | UnionType firstTypes => Normal (UnionType (firstTypes ++ elementTypes))
      | _ => Normal (UnionType (first :: elementTypes))
      end
  | _ => Throw "Unrecognized type AST."
  end.

Definition applyTypeAliasDecl
    (value : option Token * (Token * (Token * (Token * (Type_ * Token)))))
  : Statement :=
  let '(hasExport, (_, (name, (_, (aliasedType, _))))) := value in
  TypeAliasDecl (isDefined hasExport) (text name) aliasedType.

Definition applyUseStrictStat (value : Token * Token) : Statement :=
  UseStrictStat.

Definition applyImportEqualStat
    (value : Token * (Token * (Token * (Token * (Token * (Token *
               (Token * Token))))))) : Statement :=
  let '(_, (name, (_, (_, (_, (source, _)))))) := value in
  ImportEqualStat (text name) (text source).

Definition applyImportAsStat
    (value : Token * (Token * (Token * (Token * (Token * (Token * Token))))))
  : Statement :=
  let '(_, (_, (_, (name, (_, (source, _)))))) := value in
  ImportAsStat (text name) (text source).

Definition applyImportNameStat
    (value : Token * (option Token * (Token * (list Token * (Token *
               (Token * (Token * Token))))))) : Statement :=
  let '(_, (_, (_, (names, (_, (_, (source, _))))))) := value in
  ImportNameStat (map text names) (text source).

Definition applyProgram (value : list Statement) : FlowProgram :=
  mkFlowProgram value.

(* ------------------------------------------------------------------ *)
(** ** The grammar rules of [Parser.ts] *)

Definition IDENTIFIER : Parser Token :=
  alt [ tok KEYWORD_type; tok Identifier ].

(** [rule()] declares [TYPE_TERM], [TYPE_ARRAY] and [TYPE] before
    [setPattern] binds them, so the patterns refer to each other.  Each
    pattern is written here over the rule it refers to. *)
Definition TYPE_TERM_pattern (TYPE : Parser Type_) : Parser Type_ :=
  alt [
    alt [
      apply (str "null") applyNull;
      apply (str "number") applyNumber;
      apply (str "string") applyString;
      apply (str "boolean") applyBoolean;
      apply
        (alt [ tok StringLiteral; tok NumberLiteral; tok KEYWORD_true;
               tok KEYWORD_false ])
        applyLiteralType;
      apply (seq (str "?") TYPE) applyOptionalType;
      apply (seq (str "(") (seq TYPE (str ")"))) applyParenType
    ];
    alt [
      apply (seq (str "$ReadOnlyArray") (seq (str "<") (seq TYPE (str ">"))))
        applyReadonlyArrayType;
      apply (seq (str "$ReadOnly") (seq (str "<") (seq TYPE (str ">"))))
        applyDecoratedGenericType;
      apply
        (seq (list_sc IDENTIFIER (str "."))
             (opt_sc (seq (str "<") (seq (list_sc TYPE (str ",")) (str ">")))))
        applyTypeReference
    ];
    apply
      (seq (str "{")
      (seq (opt_sc (str "|"))
      (seq (opt_sc (list_sc
             (alt [
                apply (seq (str "...") TYPE)
                  (fun v => inl (applyObjectTypeMixin v));
                apply
                  (seq (opt_sc (str "+")) (seq IDENTIFIER
                    (seq (opt_sc (str "?")) (seq (str ":") TYPE))))
                  (fun v => inr (applyObjectTypeProp v));
                apply
                  (seq (opt_sc (str "+")) (seq (str "[") (seq IDENTIFIER
                    (seq (str ":") (seq TYPE (seq (str "]")
                    (seq (str ":") TYPE)))))))
                  (fun v => inr (applyObjectIndexer v))
              ])
             (str ",")))
      (seq (opt_sc (str ","))
      (seq (opt_sc (str "|"))
           (str "}"))))))
      applyObjectType
  ].

Definition TYPE_ARRAY_pattern (TYPE_TERM : Parser Type_) : Parser Type_ :=
  lrec_sc
    TYPE_TERM
    (apply (seq (str "[") (str "]")) applyArrayTypeLrec)
    applyTypeLrec.

Definition TYPE_pattern (TYPE_ARRAY : Parser Type_) : Parser Type_ :=
  lrec_sc
    (apply (seq (opt_sc (str "|")) TYPE_ARRAY) applyUnionHead)
    (apply (seq (str "|") TYPE_ARRAY) applyUnionTypeLrec)
    applyTypeLrec.

(** The knot.  [TYPE] is reached again only behind a token that was
    consumed ([?], [(], [<], [{], ...), so a stream of [n] tokens unfolds
    the three patterns at most [n + 1] times; [TYPE_unfold] below shows
    that [TYPE] is a fixpoint of its pattern, so the depth bound is never
    what decides an outcome. *)
Fixpoint TYPE_rec (depth : nat) : Parser Type_ :=
  match depth with
  | 0 => fun ts => Failure (errorAt ts)
  | S depth' =>
      TYPE_pattern (TYPE_ARRAY_pattern (TYPE_TERM_pattern (TYPE_rec depth')))
  end.

Definition TYPE : Parser Type_ := fun ts => TYPE_rec (S (length ts)) ts.
Definition TYPE_TERM : Parser Type_ := TYPE_TERM_pattern TYPE.
Definition TYPE_ARRAY : Parser Type_ := TYPE_ARRAY_pattern TYPE_TERM.

Definition DECL : Parser Statement :=
  apply
    (seq (opt_sc (str "export")) (seq (str "type") (seq IDENTIFIER
      (seq (str "=") (seq TYPE (str ";"))))))
    applyTypeAliasDecl.

Definition STAT : Parser Statement :=
  alt [
    DECL;
    apply
      (seq (str "const") (seq (tok Identifier) (seq (str "=")
        (seq (str "require") (seq (str "(") (seq (tok StringLiteral)
        (seq (str ")") (str ";"))))))))
      applyImportEqualStat;
    apply
      (seq (str "import") (seq (str "*") (seq (str "as")
        (seq (tok Identifier) (seq (str "from") (seq (tok StringLiteral)
        (str ";")))))))
      applyImportAsStat;
    apply
      (seq (str "import") (seq (opt_sc (str "type")) (seq (str "{")
        (seq (list_sc (tok Identifier) (str ",")) (seq (str "}")
        (seq (str "from") (seq (tok StringLiteral) (str ";"))))))))
      applyImportNameStat;
    apply (seq (str "'use strict'") (str ";")) applyUseStrictStat
  ].

Definition PROGRAM : Parser FlowProgram := apply (rep_sc STAT) applyProgram.

(** Modelled from the spec: the entry point "parse program" (section 6),
    which is not part of [Parser.ts]: it runs [PROGRAM] and treats "a
    non-empty remainder as a parse error" (section 4.5), reporting "one
    error describing the furthest position reached" (section 7). *)
Definition parseProgram (ts : list Token)
  : Completion (FlowProgram + ParseError) :=
  match PROGRAM ts with
  | Success program [] _ => Normal (inl program)
  | Success _ (t :: _) e =>
      Normal (inr (match e with
                   | Some e' => furthest e' (TrailingInput (pos t))
                   | None => TrailingInput (pos t)
                   end))
  | Failure e => Normal (inr e)
  | Thrown m => Throw m
  end.

(* ------------------------------------------------------------------ *)
(** ** Token streams for the examples *)

(** Tokens numbered from a start position, as the tokenizer numbers them. *)
Fixpoint tokensFrom (start : nat) (items : list (TokenKind * string))
  : list Token :=
  match items with
  | [] => []
  | (k, s) :: items' => mkToken k s start :: tokensFrom (S start) items'
  end.

Definition tokens (items : list (TokenKind * string)) : list Token :=
  tokensFrom 0 items.

Definition punct (s : string) : TokenKind * string := (Punctuation, s).
Definition word (s : string) : TokenKind * string := (Word, s).
Definition ident (s : string) : TokenKind * string := (Identifier, s).

(** A reference to the unqualified type name [s], without arguments. *)
Definition ref (s : string) : Type_ := TypeReference (Some (Name s)) [].

(** [A | B | C] *)
Definition tokens_A_B_C : list Token :=
  tokens [ident "A"; punct "|"; ident "B"; punct "|"; ident "C"].

(** [(A | B) | C] *)
Definition tokens_paren_A_B_C : list Token :=
  tokens [punct "("; ident "A"; punct "|"; ident "B"; punct ")";
          punct "|"; ident "C"].

(** [A | B[]] *)
Definition tokens_A_Barr : list Token :=
  tokens [ident "A"; punct "|"; ident "B"; punct "["; punct "]"].

(** [T[][]] *)
Definition tokens_Tarrarr : list Token :=
  tokens [ident "T"; punct "["; punct "]"; punct "["; punct "]"].

(** [a.b.c] *)
Definition tokens_a_b_c : list Token :=
  tokens [ident "a"; punct "."; ident "b"; punct "."; ident "c"].

(** The token [?]. *)
Definition questionToken : Token := mkToken Punctuation "?" 0.

(** [{| a: number |}], [{ a: number }] and [{| a: number }] *)
Definition tokens_exact : list Token :=
  tokens [punct "{"; punct "|"; ident "a"; punct ":"; word "number";
          punct "|"; punct "}"].

Definition tokens_inexact : list Token :=
  tokens [punct "{"; ident "a"; punct ":"; word "number"; punct "}"].

Definition tokens_half_exact : list Token :=
  tokens [punct "{"; punct "|"; ident "a"; punct ":"; word "number";
          punct "}"].

Definition prop_a_number : ObjectMember :=
  Prop_ false "a" false (PrimitiveType "number").

(** [export type A = number;] and [type A = number;] *)
Definition tokens_export_alias : list Token :=
  tokens [word "export"; (KEYWORD_type, "type"); ident "A"; punct "=";
          word "number"; punct ";"].

Definition tokens_alias : list Token :=
  tokens [(KEYWORD_type, "type"); ident "A"; punct "="; word "number";
          punct ";"].

(** [type A = ;] *)
Definition tokens_missing_type : list Token :=
  tokens [(KEYWORD_type, "type"); ident "A"; punct "="; punct ";"].

(** The contextual keyword [type]. *)
Definition typeKeyword : TokenKind * string := (KEYWORD_type, "type").

(** [type type = number;] *)
Definition tokens_alias_named_type : list Token :=
  tokens [typeKeyword; typeKeyword; punct "="; word "number"; punct ";"].

(** [a.type.b] *)
Definition tokens_a_type_b : list Token :=
  tokens [ident "a"; punct "."; typeKeyword; punct "."; ident "b"].

(** [{ type: number }] *)
Definition tokens_prop_named_type : list Token :=
  tokens [punct "{"; typeKeyword; punct ":"; word "number"; punct "}"].

(** [const type = require('y');] *)
Definition tokens_require_type : list Token :=
  tokens [word "const"; typeKeyword; punct "="; word "require"; punct "(";
          (StringLiteral, "'y'"); punct ")"; punct ";"].

(** [import * as type from 'm';] *)
Definition tokens_import_as_type : list Token :=
  tokens [word "import"; punct "*"; word "as"; typeKeyword; word "from";
          (StringLiteral, "'m'"); punct ";"].

(** [import { a, type } from 'm';] *)
Definition tokens_import_a_type : list Token :=
  tokens [word "import"; punct "{"; ident "a"; punct ","; typeKeyword;
          punct "}"; word "from"; (StringLiteral, "'m'"); punct ";"].

(* ------------------------------------------------------------------ *)
(** ** Predicates on parsers, token streams and ASTs *)

(** A successful output leaves at least [k] tokens fewer than it was
    given. *)
Definition shrinks {A : Type} (k : nat) (ts : list Token)
    (o : ParserOutput A) : Prop :=
  match o with
  | Success _ rest _ => length rest + k <= length ts
  | _ => True
  end.

Definition advances {A : Type} (k : nat) (p : Parser A) : Prop :=
  forall ts, shrinks k ts (p ts).

(** Two parsers agree on every stream shorter than [n]. *)
Definition agree {A : Type} (n : nat) (p q : Parser A) : Prop :=
  forall ts, length ts < n -> p ts = q ts.

(** An output never is a thrown exception, and a success carries a result
    satisfying [I]. *)
Definition produces {A : Type} (I : A -> Prop) (o : ParserOutput A) : Prop :=
  match o with
  | Success r _ _ => I r
  | Failure _ => True
  | Thrown _ => False
  end.

Definition yields {A : Type} (I : A -> Prop) (p : Parser A) : Prop :=
  forall ts, produces I (p ts).

Definition anything {A : Type} (a : A) : Prop := True.

Definition whenDefined {A : Type} (I : A -> Prop) (o : option A) : Prop :=
  match o with Some a => I a | None => True end.

Definition isUnion (t : Type_) : bool :=
  match t with UnionType _ => true | _ => false end.

Definition isOptional (t : Type_) : bool :=
  match t with OptionalType _ => true | _ => false end.

(** [allNodes check t]: [check] holds of [t] and of every type node below
    it: element types, union elements, type arguments, mixins, property
    types, indexer key and value types. *)
Fixpoint allNodes (check : Type_ -> bool) (t : Type_) {struct t} : bool :=
  check t &&
  match t with
  | PrimitiveType _ => true
  | LiteralType _ => true
  | OptionalType e => allNodes check e
  | ParenType e => allNodes check e
  | ArrayType _ None => true
  | ArrayType _ (Some e) => allNodes check e
  | UnionType els => forallb (allNodes check) els
  | TypeReference _ args => forallb (allNodes check) args
  | DecoratedGenericType _ e => allNodes check e
  | ObjectType _ mixins members =>
      forallb (allNodes check) mixins &&
      forallb (allNodesMember check) members
  end
with allNodesMember (check : Type_ -> bool) (m : ObjectMember)
    {struct m} : bool :=
  match m with
  | Prop_ _ _ _ t => allNodes check t
  | Indexer _ _ k v => allNodes check k && allNodes check v
  end.

(** A union node lists at least two types, none of them a union. *)
Definition unionNode (t : Type_) : bool :=
  match t with
  | UnionType els =>
      (2 <=? length els)%nat && forallb (fun e => negb (isUnion e)) els
  | _ => true
  end.

(** An array node has its element type. *)
Definition arrayNode (t : Type_) : bool :=
  match t with
  | ArrayType _ None => false
  | _ => true
  end.

(** An optional node does not wrap an optional node. *)
Definition optionalNode (t : Type_) : bool :=
  match t with
  | OptionalType e => negb (isOptional e)
  | _ => true
  end.

(** A type reference has its name. *)
Definition referenceNode (t : Type_) : bool :=
  match t with
  | TypeReference None _ => false
  | _ => true
  end.

(** A [[]] suffix is applied to a type that is not a union. *)
Definition suffixNode (t : Type_) : bool :=
  match t with
  | ArrayType false (Some e) => negb (isUnion e)
  | _ => true
  end.

(** The nodes the reducers build. *)
Definition builtNode (t : Type_) : bool :=
  unionNode t && arrayNode t && optionalNode t && referenceNode t &&
  suffixNode t.

(** The invariants of the type rules, for a node check [check]: a good
    type has every node checked; a term is moreover no union; a union
    operand list is moreover flat. *)
Definition good (check : Type_ -> bool) (t : Type_) : Prop :=
  allNodes check t = true.

Definition goodTerm (check : Type_ -> bool) (t : Type_) : Prop :=
  good check t /\ isUnion t = false.

Definition goodUnion (check : Type_ -> bool) (t : Type_) : Prop :=
  good check t /\ unionNode t = true.

Definition goodEntry (check : Type_ -> bool) (m : Type_ + ObjectMember)
  : Prop :=
  match m with
  | inl t => good check t
  | inr o => allNodesMember check o = true
  end.

(** [Repeats p ts rs rest]: starting at [ts], [p] matches and advances
    once for each element of [rs], in order, and leaves [rest]. *)
Inductive Repeats {A : Type} (p : Parser A)
  : list Token -> list A -> list Token -> Prop :=
| Repeats_stop (ts : list Token) : Repeats p ts [] ts
| Repeats_step (ts : list Token) (r : A) (rest : list Token)
    (e : option ParseError) (rs : list A) (rest' : list Token) :
    p ts = Success r rest e ->
    length rest < length ts ->
    Repeats p rest rs rest' ->
    Repeats p ts (r :: rs) rest'.

(** [p] does not match at [ts], or matches without advancing. *)
Definition halts {A : Type} (p : Parser A) (ts : list Token) : Prop :=
  match p ts with
  | Success _ rest _ => length ts <= length rest
  | Failure _ => True
  | Thrown _ => False
  end.

(** The [[]] suffix of [TYPE_ARRAY] and the [| operand] tail of [TYPE]. *)
Definition arraySuffix : Parser Type_ :=
  apply (seq (str "[") (str "]")) applyArrayTypeLrec.

Definition unionTail : Parser Type_ :=
  apply (seq (str "|") TYPE_ARRAY) applyUnionTypeLrec.

(** The token [?] as the tokenizer delivers it: a punctuation token. *)
Definition isQuestion (q : Token) : Prop :=
  kind q = Punctuation /\ text q = "?".

(** The stream starts with a token whose text is [s]. *)
Definition startsWith (s : string) (ts : list Token) : bool :=
  match ts with
  | t :: _ => String.eqb (text t) s
  | [] => false
  end.

(** In the stream of an object type literal: a [|] right after the opening
    brace, and a [|] right before the closing brace. *)
Definition leadingBar (ts : list Token) : bool := startsWith "|" (tl ts).
Definition trailingBar (ts : list Token) : bool :=
  startsWith "|" (tl (rev ts)).

Definition isObject (t : Type_) : bool :=
  match t with ObjectType _ _ _ => true | _ => false end.

(** C6 as stated: for an object type literal accepted by [TYPE_TERM],
    [isExact] is true exactly when both the leading and the trailing [|]
    are present. *)
Definition exactIffBothBars (ts : list Token) : Prop :=
  forall isExact mixinTypes members e,
    TYPE_TERM ts = Success (ObjectType isExact mixinTypes members) [] e ->
    (isExact = true <-> leadingBar ts = true /\ trailingBar ts = true).

Definition isFailure {A : Type} (o : ParserOutput A) : Prop :=
  exists e, o = Failure e.

(* ------------------------------------------------------------------ *)
(** ** Further predicates and example data *)

(** Two outputs with the same result and the same rest; the errors they
    carry may differ. *)
Definition sameParse {A : Type} (o1 o2 : ParserOutput A) : Prop :=
  match o1, o2 with
  | Success r1 rest1 _, Success r2 rest2 _ => r1 = r2 /\ rest1 = rest2
  | Failure _, Failure _ => True
  | Thrown m1, Thrown m2 => m1 = m2
  | _, _ => False
  end.

(** The dot-separated segments of an entity name, first segment first. *)
Fixpoint segments (n : EntityName) : list string :=
  match n with
  | Name s => [s]
  | Qualified parent s => (segments parent ++ [s])%list
  end.

(** The number of [{parent, name}] layers of an entity name. *)
Fixpoint entityDepth (n : EntityName) : nat :=
  match n with
  | Name _ => 0
  | Qualified parent _ => S (entityDepth parent)
  end.

(** [t] with [n] array layers around it, the last one outermost. *)
Fixpoint nestArrays (n : nat) (t : Type_) : Type_ :=
  match n with
  | 0 => t
  | S k => ArrayType false (Some (nestArrays k t))
  end.

(** The tokens of a list of token pairs, pair after pair: the [[] and []]
    of array suffixes, or a separator and the element after it. *)
Definition joined (pairs : list (Token * Token)) : list Token :=
  flat_map (fun p => [fst p; snd p]) pairs.

(** A successful output leaves a suffix of the stream it was given. *)
Definition leaves {A : Type} (ts : list Token) (o : ParserOutput A) : Prop :=
  match o with
  | Success _ rest _ => exists consumed, ts = (consumed ++ rest)%list
  | _ => True
  end.

Definition suffixing {A : Type} (p : Parser A) : Prop :=
  forall ts, leaves ts (p ts).

(** A successful output has consumed a token with text [s] last. *)
Definition closes {A : Type} (s : string) (ts : list Token)
    (o : ParserOutput A) : Prop :=
  match o with
  | Success _ rest _ =>
      exists consumed t, ts = (consumed ++ t :: rest)%list /\ text t = s
  | _ => True
  end.

Definition endsWith {A : Type} (s : string) (p : Parser A) : Prop :=
  forall ts, closes s ts (p ts).

(** The token kinds of literals. *)
Definition isLiteralKind (k : TokenKind) : bool :=
  match k with
  | StringLiteral | NumberLiteral | KEYWORD_true | KEYWORD_false => true
  | _ => false
  end.

(** The texts of the primitive type keywords. *)
Definition isPrimitiveText (s : string) : bool :=
  String.eqb s "null" || String.eqb s "number" || String.eqb s "string" ||
  String.eqb s "boolean".

(** The kinds [IDENTIFIER] accepts. *)
Definition isNameKind (k : TokenKind) : bool :=
  match k with
  | KEYWORD_type | Identifier => true
  | _ => false
  end.

(** Sample tokens for the witnesses. *)
Definition barToken : Token := mkToken Punctuation "|" 0.
Definition openBracket : Token := mkToken Punctuation "[" 1.
Definition closeBracket : Token := mkToken Punctuation "]" 2.
Definition commaToken : Token := mkToken Punctuation "," 0.
Definition nameToken (s : string) : Token := mkToken Identifier s 0.

(** The texts that another alternative of [TYPE_TERM] than the type
    reference can claim. *)
Definition isReservedText (s : string) : bool :=
  isPrimitiveText s || String.eqb s "?" || String.eqb s "(" ||
  String.eqb s "$ReadOnlyArray" || String.eqb s "$ReadOnly" ||
  String.eqb s "{".

(** The tokens of an optional marker: the marker when present. *)
Definition optTokens (o : option Token) : list Token :=
  match o with
  | Some t => [t]
  | None => []
  end.

(** An optional marker, when present, has the text [s]. *)
Definition markerText (s : string) (o : option Token) : Prop :=
  match o with
  | Some t => text t = s
  | None => True
  end.

(** The first token of a statement of each kind. *)
Definition statementStart (s : Statement) (ts : list Token) : Prop :=
  match s with
  | TypeAliasDecl _ _ _ =>
      startsWith "export" ts = true \/ startsWith "type" ts = true
  | UseStrictStat => startsWith "'use strict'" ts = true
  | ImportEqualStat _ _ => startsWith "const" ts = true
  | ImportAsStat _ _ => startsWith "import" ts = true
  | ImportNameStat _ _ => startsWith "import" ts = true
  end.

(* ------------------------------------------------------------------ *)
(** ** Union nodes updated in place *)








(* ------------------------------------------------------------------ *)
(** ** The errors met on the way *)

(** Modelled from the spec: "the furthest position reached" (section 7)
    is the furthest of the positions at which a token was refused while
    the parse ran.  A logged parser is a parser together with the list of
    those refusals: [met p ts] holds the error of every [str] and [tok]
    that did not match while [run p] worked on [ts], in the order they
    were met. *)
Record Logged (A : Type) : Type := mkLogged {
  run : Parser A;
  met : list Token -> list ParseError
}.

(** The refusal of a token parser, if it refuses. *)
Definition refusal {A : Type} (o : ParserOutput A) : list ParseError :=
  match o with
  | Failure e => [e]
  | _ => []
  end.

Definition Lstr (toMatch : string) : Logged Token :=
  mkLogged (str toMatch) (fun ts => refusal (str toMatch ts)).

Definition Ltok (toMatch : TokenKind) : Logged Token :=
  mkLogged (tok toMatch) (fun ts => refusal (tok toMatch ts)).

Definition Lapply {A B : Type} (p : Logged A) (callback : A -> B)
  : Logged B :=
  mkLogged (apply (run p) callback) (met p).

(** The second parser runs, and meets errors, only where the first one
    succeeded. *)
Definition Lseq {A B : Type} (p : Logged A) (q : Logged B)
  : Logged (A * B) :=
  mkLogged (seq (run p) (run q))
    (fun ts =>
       met p ts ++
       match run p ts with
       | Success _ rest1 _ => met q rest1
       | _ => []
       end)%list.

(** An alternative runs only when the ones before it failed; with no
    alternative at all the error of [alt] itself is the one met. *)
Fixpoint met_alt_from {A : Type} (err : option ParseError)
    (ps : list (Logged A)) (ts : list Token) : list ParseError :=
  match ps with
  | [] => match err with Some _ => [] | None => [errorAt ts] end
  | p :: ps' =>
      (met p ts ++
       match run p ts with
       | Failure e => met_alt_from (betterError err (Some e)) ps' ts
       | _ => []
       end)%list
  end.

Definition Lalt {A : Type} (ps : list (Logged A)) : Logged A :=
  mkLogged (alt (map (@run A) ps)) (met_alt_from None ps).

Definition Lopt_sc {A : Type} (p : Logged A) : Logged (option A) :=
  mkLogged (opt_sc (run p)) (met p).

(** Every round of the repetition runs the parser once more. *)
Fixpoint met_rep_loop {A : Type} (p : Logged A) (rounds : nat)
    (ts : list Token) : list ParseError :=
  match rounds with
  | 0 => []
  | S rounds' =>
      (met p ts ++
       match run p ts with
       | Success _ rest _ =>
           if Nat.ltb (length rest) (length ts)
           then met_rep_loop p rounds' rest
           else []
       | _ => []
       end)%list
  end.

Definition Lrep_sc {A : Type} (p : Logged A) : Logged (list A) :=
  mkLogged (rep_sc (run p)) (fun ts => met_rep_loop p (S (length ts)) ts).

Definition Lkright {A B : Type} (p : Logged A) (q : Logged B) : Logged B :=
  Lapply (Lseq p q) snd.

Definition Llist_sc {A S : Type} (p : Logged A) (s : Logged S)
  : Logged (list A) :=
  Lapply (Lseq p (Lrep_sc (Lkright s p))) (fun v => fst v :: snd v).

Definition Llrec_sc {A B : Type} (p : Logged A) (q : Logged B)
    (callback : A -> B -> Completion A) : Logged A :=
  mkLogged (lrec_sc (run p) (run q) callback) (met (Lseq p (Lrep_sc q))).

(** The grammar rules once more, each with its log: the same patterns as
    [IDENTIFIER] ... [PROGRAM] above, written with the logged
    combinators.  [run LPROGRAM] is [PROGRAM] itself. *)
Definition LIDENTIFIER : Logged Token :=
  Lalt [ Ltok KEYWORD_type; Ltok Identifier ].

Definition LTYPE_TERM_pattern (LTYPE : Logged Type_) : Logged Type_ :=
  Lalt [
    Lalt [
      Lapply (Lstr "null") applyNull;
      Lapply (Lstr "number") applyNumber;
      Lapply (Lstr "string") applyString;
      Lapply (Lstr "boolean") applyBoolean;
      Lapply
        (Lalt [ Ltok StringLiteral; Ltok NumberLiteral; Ltok KEYWORD_true;
               Ltok KEYWORD_false ])
        applyLiteralType;
      Lapply (Lseq (Lstr "?") LTYPE) applyOptionalType;
      Lapply (Lseq (Lstr "(") (Lseq LTYPE (Lstr ")"))) applyParenType
    ];
    Lalt [
      Lapply
        (Lseq (Lstr "$ReadOnlyArray")
              (Lseq (Lstr "<") (Lseq LTYPE (Lstr ">"))))
        applyReadonlyArrayType;
      Lapply
        (Lseq (Lstr "$ReadOnly") (Lseq (Lstr "<") (Lseq LTYPE (Lstr ">"))))
        applyDecoratedGenericType;
      Lapply
        (Lseq (Llist_sc LIDENTIFIER (Lstr "."))
              (Lopt_sc (Lseq (Lstr "<")
                 (Lseq (Llist_sc LTYPE (Lstr ",")) (Lstr ">")))))
        applyTypeReference
    ];
    Lapply
      (Lseq (Lstr "{")
      (Lseq (Lopt_sc (Lstr "|"))
      (Lseq (Lopt_sc (Llist_sc
             (Lalt [
                Lapply (Lseq (Lstr "...") LTYPE)
                  (fun v => inl (applyObjectTypeMixin v));
                Lapply
                  (Lseq (Lopt_sc (Lstr "+")) (Lseq LIDENTIFIER
                    (Lseq (Lopt_sc (Lstr "?")) (Lseq (Lstr ":") LTYPE))))
                  (fun v => inr (applyObjectTypeProp v));
                Lapply
                  (Lseq (Lopt_sc (Lstr "+")) (Lseq (Lstr "[")
                    (Lseq LIDENTIFIER (Lseq (Lstr ":") (Lseq LTYPE
                    (Lseq (Lstr "]") (Lseq (Lstr ":") LTYPE)))))))
                  (fun v => inr (applyObjectIndexer v))
              ])
             (Lstr ",")))
      (Lseq (Lopt_sc (Lstr ","))
      (Lseq (Lopt_sc (Lstr "|"))
           (Lstr "}"))))))
      applyObjectType
  ].

Definition LTYPE_ARRAY_pattern (LTYPE_TERM : Logged Type_)
  : Logged Type_ :=
  Llrec_sc
    LTYPE_TERM
    (Lapply (Lseq (Lstr "[") (Lstr "]")) applyArrayTypeLrec)
    applyTypeLrec.

Definition LTYPE_pattern (LTYPE_ARRAY : Logged Type_) : Logged Type_ :=
  Llrec_sc
    (Lapply (Lseq (Lopt_sc (Lstr "|")) LTYPE_ARRAY) applyUnionHead)
    (Lapply (Lseq (Lstr "|") LTYPE_ARRAY) applyUnionTypeLrec)
    applyTypeLrec.

Fixpoint LTYPE_rec (depth : nat) : Logged Type_ :=
  match depth with
  | 0 => mkLogged (fun ts => Failure (errorAt ts)) (fun ts => [errorAt ts])
  | S depth' =>
      LTYPE_pattern
        (LTYPE_ARRAY_pattern (LTYPE_TERM_pattern (LTYPE_rec depth')))
  end.

Definition LTYPE : Logged Type_ :=
  mkLogged TYPE (fun ts => met (LTYPE_rec (S (length ts))) ts).
Definition LTYPE_TERM : Logged Type_ := LTYPE_TERM_pattern LTYPE.
Definition LTYPE_ARRAY : Logged Type_ := LTYPE_ARRAY_pattern LTYPE_TERM.

Definition LDECL : Logged Statement :=
  Lapply
    (Lseq (Lopt_sc (Lstr "export")) (Lseq (Lstr "type") (Lseq LIDENTIFIER
      (Lseq (Lstr "=") (Lseq LTYPE (Lstr ";"))))))
    applyTypeAliasDecl.

Definition LSTAT : Logged Statement :=
  Lalt [
    LDECL;
    Lapply
      (Lseq (Lstr "const") (Lseq (Ltok Identifier) (Lseq (Lstr "=")
        (Lseq (Lstr "require") (Lseq (Lstr "(") (Lseq (Ltok StringLiteral)
        (Lseq (Lstr ")") (Lstr ";"))))))))
      applyImportEqualStat;
    Lapply
      (Lseq (Lstr "import") (Lseq (Lstr "*") (Lseq (Lstr "as")
        (Lseq (Ltok Identifier) (Lseq (Lstr "from")
        (Lseq (Ltok StringLiteral) (Lstr ";")))))))
      applyImportAsStat;
    Lapply
      (Lseq (Lstr "import") (Lseq (Lopt_sc (Lstr "type")) (Lseq (Lstr "{")
        (Lseq (Llist_sc (Ltok Identifier) (Lstr ",")) (Lseq (Lstr "}")
        (Lseq (Lstr "from") (Lseq (Ltok StringLiteral) (Lstr ";"))))))))
      applyImportNameStat;
    Lapply (Lseq (Lstr "'use strict'") (Lstr ";")) applyUseStrictStat
  ].

Definition LPROGRAM : Logged FlowProgram :=
  Lapply (Lrep_sc LSTAT) applyProgram.

(** The error an output carries or fails with. *)
Definition errorOf {A : Type} (o : ParserOutput A) : option ParseError :=
  match o with
  | Success _ _ e => e
  | Failure e => Some e
  | Thrown _ => None
  end.

(** [e] is at least as far into the stream as [x]; the end of the input
    is further than every token. *)
Definition atLeast (e x : ParseError) : Prop :=
  match errorPos e, errorPos x with
  | None, _ => True
  | Some _, None => False
  | Some p, Some q => q <= p
  end.

(** [o] is the furthest error of the log: one of its entries, at least as
    far as every entry; no error when the log is empty. *)
Definition furthestOf (o : option ParseError) (log : list ParseError)
  : Prop :=
  match o with
  | Some e => In e log /\ Forall (atLeast e) log
  | None => log = []
  end.

(** The error of every output of [p] is the furthest of the errors met. *)
Definition sound {A : Type} (p : Logged A) : Prop :=
  forall ts,
    match run p ts with
    | Thrown _ => True
    | o => furthestOf (errorOf o) (met p ts)
    end.

(* ------------------------------------------------------------------ *)
(** ** How far a parser advances *)

Lemma advances_weaken {A : Type} (j k : nat) (p : Parser A) :
  advances k p -> j <= k -> advances j p.
Proof.
  intros H Hle ts. specialize (H ts). unfold shrinks in *.
  destruct (p ts); auto. lia.
Qed.

Lemma advances_str (s : string) : advances 1 (str s).
Proof.
  intros [|t ts]; simpl; auto.
  destruct (String.eqb (text t) s); simpl; auto. lia.
Qed.

Lemma advances_tok (k : TokenKind) : advances 1 (tok k).
Proof.
  intros [|t ts]; simpl; auto.
  destruct (TokenKind_eqb (kind t) k); simpl; auto. lia.
Qed.

Lemma advances_apply {A B : Type} (k : nat) (p : Parser A) (f : A -> B) :
  advances k p -> advances k (apply p f).
Proof.
  intros H ts. specialize (H ts). unfold apply, shrinks in *.
  destruct (p ts); auto.
Qed.

Lemma advances_seq {A B : Type} (j k : nat) (p : Parser A) (q : Parser B) :
  advances j p -> advances k q -> advances (j + k) (seq p q).
Proof.
  intros Hp Hq ts. specialize (Hp ts). unfold seq, shrinks in *.
  destruct (p ts) as [a rest1 e1| |]; auto.
  specialize (Hq rest1). unfold shrinks in Hq.
  destruct (q rest1); auto. lia.
Qed.

Lemma advances_alt_from {A : Type} (k : nat) (ps : list (Parser A)) :
  Forall (advances k) ps -> forall err, advances k (alt_from err ps).
Proof.
  induction 1 as [|p ps Hp Hps IH]; intros err ts; simpl; auto.
  specialize (Hp ts). unfold shrinks in *.
  destruct (p ts); auto. apply IH.
Qed.

Lemma advances_alt {A : Type} (k : nat) (ps : list (Parser A)) :
  Forall (advances k) ps -> advances k (alt ps).
Proof. intros H. apply advances_alt_from; assumption. Qed.

Lemma advances_opt_sc {A : Type} (p : Parser A) :
  advances 0 p -> advances 0 (opt_sc p).
Proof.
  intros H ts. specialize (H ts). unfold opt_sc, shrinks in *.
  destruct (p ts); auto. lia.
Qed.

Lemma shrinks_rep_loop {A : Type} (p : Parser A) (rounds : nat) :
  forall acc err ts, shrinks 0 ts (rep_loop p rounds acc err ts).
Proof.
  induction rounds as [|rounds IH]; intros acc err ts; simpl.
  - lia.
  - destruct (p ts) as [r rest e| |]; simpl; try lia.
    destruct (Nat.ltb (length rest) (length ts)) eqn:Hlt; simpl; try lia.
    apply Nat.ltb_lt in Hlt.
    specialize (IH (r :: acc) (betterError err e) rest).
    unfold shrinks in *.
    destruct (rep_loop p rounds (r :: acc) (betterError err e) rest); auto.
    lia.
Qed.

Lemma advances_rep_sc {A : Type} (p : Parser A) : advances 0 (rep_sc p).
Proof. intros ts. apply shrinks_rep_loop. Qed.

Lemma advances_kright {A B : Type} (j k : nat) (p : Parser A)
    (q : Parser B) :
  advances j p -> advances k q -> advances (j + k) (kright p q).
Proof. intros. apply advances_apply, advances_seq; assumption. Qed.

Lemma advances_list_sc {A S : Type} (k : nat) (p : Parser A)
    (s : Parser S) :
  advances k p -> advances k (list_sc p s).
Proof.
  intros H. apply advances_apply.
  replace k with (k + 0) by lia.
  apply advances_seq; [assumption | apply advances_rep_sc].
Qed.

Lemma advances_lrec_sc {A B : Type} (k : nat) (p : Parser A)
    (q : Parser B) (callback : A -> B -> Completion A) :
  advances k p -> advances k (lrec_sc p q callback).
Proof.
  intros H ts. unfold lrec_sc.
  assert (Hs : advances (k + 0) (seq p (rep_sc q)))
    by (apply advances_seq; [assumption | apply advances_rep_sc]).
  specialize (Hs ts). unfold shrinks in *.
  destruct (seq p (rep_sc q) ts) as [v rest e| |]; auto.
  destruct (applyLrec callback (fst v) (snd v)); auto. lia.
Qed.

(** *** Agreement is a congruence for the combinators *)

Lemma agree_refl {A : Type} (n : nat) (p : Parser A) : agree n p p.
Proof. intros ts _. reflexivity. Qed.

Lemma agree_apply {A B : Type} (n : nat) (p p' : Parser A) (f : A -> B) :
  agree n p p' -> agree n (apply p f) (apply p' f).
Proof. intros H ts Hts. unfold apply. rewrite (H ts Hts). reflexivity. Qed.

Lemma agree_seq {A B : Type} (n : nat) (p p' : Parser A)
    (q q' : Parser B) :
  advances 0 p -> agree n p p' -> agree n q q' ->
  agree n (seq p q) (seq p' q').
Proof.
  intros Hadv Hp Hq ts Hts. unfold seq.
  rewrite <- (Hp ts Hts). specialize (Hadv ts). unfold shrinks in Hadv.
  destruct (p ts) as [a rest1 e1| |]; auto.
  rewrite (Hq rest1) by lia. reflexivity.
Qed.

(** Behind a parser that consumes a token, the second parser only has to
    agree on streams one token shorter. *)
Lemma agree_seq_guard {A B : Type} (n : nat) (p : Parser A)
    (q q' : Parser B) :
  advances 1 p -> agree n q q' -> agree (S n) (seq p q) (seq p q').
Proof.
  intros Hadv Hq ts Hts. unfold seq.
  specialize (Hadv ts). unfold shrinks in Hadv.
  destruct (p ts) as [a rest1 e1| |]; auto.
  rewrite (Hq rest1) by lia. reflexivity.
Qed.

Lemma agree_alt_from {A : Type} (n : nat) (ps ps' : list (Parser A)) :
  Forall2 (agree n) ps ps' ->
  forall err, agree n (alt_from err ps) (alt_from err ps').
Proof.
  induction 1 as [|p p' ps ps' Hp Hps IH]; intros err ts Hts; simpl; auto.
  rewrite <- (Hp ts Hts). destruct (p ts); auto.
  apply IH; assumption.
Qed.

Lemma agree_alt {A : Type} (n : nat) (ps ps' : list (Parser A)) :
  Forall2 (agree n) ps ps' -> agree n (alt ps) (alt ps').
Proof. intros H. apply agree_alt_from; assumption. Qed.

Lemma agree_opt_sc {A : Type} (n : nat) (p p' : Parser A) :
  agree n p p' -> agree n (opt_sc p) (opt_sc p').
Proof. intros H ts Hts. unfold opt_sc. rewrite (H ts Hts). reflexivity. Qed.

Lemma agree_rep_loop {A : Type} (n : nat) (p p' : Parser A) :
  agree n p p' ->
  forall rounds acc err ts, length ts < n ->
    rep_loop p rounds acc err ts = rep_loop p' rounds acc err ts.
Proof.
  intros H. induction rounds as [|rounds IH]; intros acc err ts Hts; simpl.
  - reflexivity.
  - rewrite <- (H ts Hts). destruct (p ts) as [r rest e| |]; auto.
    destruct (Nat.ltb (length rest) (length ts)) eqn:Hlt; auto.
    apply Nat.ltb_lt in Hlt. apply IH. lia.
Qed.

Lemma agree_rep_sc {A : Type} (n : nat) (p p' : Parser A) :
  agree n p p' -> agree n (rep_sc p) (rep_sc p').
Proof. intros H ts Hts. eapply agree_rep_loop; eassumption. Qed.

Lemma agree_kright {A B : Type} (n : nat) (s : Parser A)
    (p p' : Parser B) :
  advances 0 s -> agree n p p' -> agree n (kright s p) (kright s p').
Proof.
  intros Hs H. apply agree_apply, agree_seq; auto using agree_refl.
Qed.

Lemma agree_list_sc {A S : Type} (n : nat) (p p' : Parser A)
    (s : Parser S) :
  advances 0 p -> advances 0 s -> agree n p p' ->
  agree n (list_sc p s) (list_sc p' s).
Proof.
  intros Hp Hs H. apply agree_apply, agree_seq; auto.
  apply agree_rep_sc, agree_kright; auto.
Qed.

Lemma agree_lrec_sc {A B : Type} (n : nat) (p p' : Parser A)
    (q q' : Parser B) (callback : A -> B -> Completion A) :
  advances 0 p -> agree n p p' -> agree n q q' ->
  agree n (lrec_sc p q callback) (lrec_sc p' q' callback).
Proof.
  intros Hadv Hp Hq ts Hts. unfold lrec_sc.
  rewrite (agree_seq Hadv Hp (agree_rep_sc Hq) ts Hts). reflexivity.
Qed.

(** *** The three patterns *)

Lemma advances_seq_first {A B : Type} (p : Parser A) (q : Parser B) :
  advances 1 p -> advances 0 q -> advances 1 (seq p q).
Proof. intros Hp Hq. exact (advances_seq Hp Hq). Qed.

Lemma advances_seq0 {A B : Type} (p : Parser A) (q : Parser B) :
  advances 0 p -> advances 0 q -> advances 0 (seq p q).
Proof. intros Hp Hq. exact (advances_seq Hp Hq). Qed.

Lemma advances0_of1 {A : Type} (p : Parser A) :
  advances 1 p -> advances 0 p.
Proof. intros H. apply (advances_weaken H). lia. Qed.

Lemma advances_IDENTIFIER : advances 1 IDENTIFIER.
Proof. apply advances_alt. repeat constructor; apply advances_tok. Qed.

Ltac advance :=
  repeat first
    [ assumption
    | apply advances_str
    | apply advances_tok
    | apply advances_IDENTIFIER
    | apply advances_rep_sc
    | apply advances_list_sc
    | apply advances_lrec_sc
    | apply advances_apply
    | apply advances_opt_sc
    | apply advances_seq_first
    | apply advances_seq0
    | apply advances_alt
    | apply Forall_cons
    | apply Forall_nil
    | apply advances0_of1 ].

Lemma advances_TYPE_TERM_pattern (TYPE : Parser Type_) :
  advances 0 TYPE -> advances 1 (TYPE_TERM_pattern TYPE).
Proof. intros H. unfold TYPE_TERM_pattern. advance. Qed.

Lemma advances_TYPE_ARRAY_pattern (k : nat) (TYPE_TERM : Parser Type_) :
  advances k TYPE_TERM -> advances k (TYPE_ARRAY_pattern TYPE_TERM).
Proof. intros H. apply advances_lrec_sc. assumption. Qed.

Lemma advances_TYPE_pattern (TYPE_ARRAY : Parser Type_) :
  advances 1 TYPE_ARRAY -> advances 1 (TYPE_pattern TYPE_ARRAY).
Proof.
  intros H. apply advances_lrec_sc, advances_apply.
  apply (advances_seq (j := 0) (k := 1)); advance.
Qed.

Ltac agreement :=
  repeat first
    [ apply agree_refl
    | assumption
    | apply agree_list_sc; [ solve [advance] | solve [advance] | ]
    | apply agree_apply
    | apply agree_seq_guard; [ solve [advance] | ]
    | apply agree_seq; [ solve [advance] | | ]
    | apply agree_opt_sc
    | apply agree_alt
    | apply Forall2_cons
    | apply Forall2_nil ].

Lemma agree_TYPE_TERM_pattern (n : nat) (P Q : Parser Type_) :
  advances 0 P -> agree n P Q ->
  agree (S n) (TYPE_TERM_pattern P) (TYPE_TERM_pattern Q).
Proof. intros Hadv H. unfold TYPE_TERM_pattern. agreement. Qed.

Lemma agree_TYPE_ARRAY_pattern (n : nat) (P Q : Parser Type_) :
  advances 0 P -> agree n P Q ->
  agree n (TYPE_ARRAY_pattern P) (TYPE_ARRAY_pattern Q).
Proof.
  intros Hadv H. apply agree_lrec_sc; auto using agree_refl.
Qed.

Lemma agree_TYPE_pattern (n : nat) (P Q : Parser Type_) :
  advances 0 P -> agree n P Q ->
  agree n (TYPE_pattern P) (TYPE_pattern Q).
Proof.
  intros Hadv H. apply agree_lrec_sc; agreement. advance.
Qed.

Lemma advances_TYPE_rec (depth : nat) : advances 1 (TYPE_rec depth).
Proof.
  induction depth as [|depth IH].
  - intros ts. exact Logic.I.
  - simpl. apply advances_TYPE_pattern, advances_TYPE_ARRAY_pattern,
      advances_TYPE_TERM_pattern, advances0_of1, IH.
Qed.

Lemma agree_TYPE_knot (n : nat) (P Q : Parser Type_) :
  advances 0 P -> agree n P Q ->
  agree (S n)
    (TYPE_pattern (TYPE_ARRAY_pattern (TYPE_TERM_pattern P)))
    (TYPE_pattern (TYPE_ARRAY_pattern (TYPE_TERM_pattern Q))).
Proof.
  intros Hadv H.
  apply agree_TYPE_pattern.
  - apply advances0_of1, advances_TYPE_ARRAY_pattern,
      advances_TYPE_TERM_pattern, Hadv.
  - apply agree_TYPE_ARRAY_pattern.
    + apply advances0_of1, advances_TYPE_TERM_pattern, Hadv.
    + apply agree_TYPE_TERM_pattern; assumption.
Qed.

(** A deeper unfolding gives the same outcome on every stream the
    shallower one is deep enough for. *)
Lemma TYPE_rec_stable (n : nat) :
  forall m, n <= m -> agree n (TYPE_rec n) (TYPE_rec m).
Proof.
  induction n as [|n IH]; intros m Hle.
  - intros ts Hts. lia.
  - destruct m as [|m]; [lia|]. simpl.
    apply agree_TYPE_knot.
    + apply advances0_of1, advances_TYPE_rec.
    + apply IH. lia.
Qed.

Lemma agree_TYPE_rec_TYPE (n : nat) : agree n (TYPE_rec n) TYPE.
Proof.
  intros ts Hts. unfold TYPE. symmetry.
  apply (@TYPE_rec_stable (S (length ts)) n); lia.
Qed.

Lemma advances_TYPE : advances 1 TYPE.
Proof. intros ts. unfold TYPE. apply advances_TYPE_rec. Qed.

(** [TYPE] is the rule its [setPattern] call describes: the pattern over
    [TYPE_ARRAY], which is the pattern over [TYPE_TERM], which is the
    pattern over [TYPE] itself. *)
Lemma TYPE_unfold (ts : list Token) : TYPE ts = TYPE_pattern TYPE_ARRAY ts.
Proof.
  unfold TYPE at 1, TYPE_ARRAY, TYPE_TERM. simpl TYPE_rec.
  apply (@agree_TYPE_knot (length ts)).
  - apply advances0_of1, advances_TYPE_rec.
  - apply agree_TYPE_rec_TYPE.
  - lia.
Qed.

Lemma advances_TYPE_TERM : advances 1 TYPE_TERM.
Proof. apply advances_TYPE_TERM_pattern, advances0_of1, advances_TYPE. Qed.

Lemma advances_TYPE_ARRAY : advances 1 TYPE_ARRAY.
Proof. apply advances_TYPE_ARRAY_pattern, advances_TYPE_TERM. Qed.

(* ------------------------------------------------------------------ *)
(** ** What a parser can return *)

Lemma yields_weaken {A : Type} (I J : A -> Prop) (p : Parser A) :
  yields I p -> (forall a, I a -> J a) -> yields J p.
Proof.
  intros H HIJ ts. specialize (H ts). unfold produces in *.
  destruct (p ts); auto.
Qed.

Lemma yields_str (s : string) : yields anything (str s).
Proof.
  intros [|t ts]; simpl; auto.
  destruct (String.eqb (text t) s); simpl; exact Logic.I.
Qed.

Lemma yields_tok (k : TokenKind) : yields anything (tok k).
Proof.
  intros [|t ts]; simpl; auto.
  destruct (TokenKind_eqb (kind t) k); simpl; exact Logic.I.
Qed.

Lemma yields_apply {A B : Type} (I : A -> Prop) (J : B -> Prop)
    (p : Parser A) (f : A -> B) :
  yields I p -> (forall a, I a -> J (f a)) -> yields J (apply p f).
Proof.
  intros H Hf ts. specialize (H ts). unfold apply, produces in *.
  destruct (p ts); auto.
Qed.

Lemma yields_seq {A B : Type} (I : A -> Prop) (J : B -> Prop)
    (p : Parser A) (q : Parser B) :
  yields I p -> yields J q ->
  yields (fun v => I (fst v) /\ J (snd v)) (seq p q).
Proof.
  intros Hp Hq ts. specialize (Hp ts). unfold seq, produces in *.
  destruct (p ts) as [a rest1 e1| |]; auto.
  specialize (Hq rest1). unfold produces in Hq.
  destruct (q rest1); simpl; auto.
Qed.

Lemma yields_alt_from {A : Type} (I : A -> Prop) (ps : list (Parser A)) :
  Forall (yields I) ps -> forall err, yields I (alt_from err ps).
Proof.
  induction 1 as [|p ps Hp Hps IH]; intros err ts; simpl.
  - exact Logic.I.
  - specialize (Hp ts). unfold produces in *.
    destruct (p ts); auto. apply IH.
Qed.

Lemma yields_alt {A : Type} (I : A -> Prop) (ps : list (Parser A)) :
  Forall (yields I) ps -> yields I (alt ps).
Proof. intros H. apply yields_alt_from; assumption. Qed.

Lemma yields_opt_sc {A : Type} (I : A -> Prop) (p : Parser A) :
  yields I p -> yields (whenDefined I) (opt_sc p).
Proof.
  intros H ts. specialize (H ts). unfold opt_sc, produces in *.
  destruct (p ts); simpl; auto.
Qed.

Lemma produces_rep_loop {A : Type} (I : A -> Prop) (p : Parser A) :
  yields I p ->
  forall rounds acc err ts, Forall I acc ->
    produces (Forall I) (rep_loop p rounds acc err ts).
Proof.
  intros H. induction rounds as [|rounds IH]; intros acc err ts Hacc; simpl.
  - apply Forall_rev; assumption.
  - specialize (H ts). unfold produces in H.
    destruct (p ts) as [r rest e| |]; simpl.
    + destruct (Nat.ltb (length rest) (length ts)); simpl.
      * apply IH. constructor; assumption.
      * apply Forall_rev; assumption.
    + apply Forall_rev; assumption.
    + assumption.
Qed.

Lemma yields_rep_sc {A : Type} (I : A -> Prop) (p : Parser A) :
  yields I p -> yields (Forall I) (rep_sc p).
Proof. intros H ts. apply produces_rep_loop; auto. Qed.

Lemma yields_kright {A B : Type} (I : A -> Prop) (J : B -> Prop)
    (p : Parser A) (q : Parser B) :
  yields I p -> yields J q -> yields J (kright p q).
Proof.
  intros Hp Hq. eapply yields_apply.
  - apply (yields_seq Hp Hq).
  - intros a [_ Ha]. exact Ha.
Qed.

(** A list parser returns at least one element. *)
Lemma yields_list_sc {A S : Type} (I : A -> Prop) (J : S -> Prop)
    (p : Parser A) (s : Parser S) :
  yields I p -> yields J s ->
  yields (fun l => Forall I l /\ l <> []) (list_sc p s).
Proof.
  intros Hp Hs. eapply yields_apply.
  - apply (yields_seq Hp (yields_rep_sc (yields_kright Hs Hp))).
  - intros [a l] [Ha Hl]; simpl in *. split.
    + constructor; assumption.
    + discriminate.
Qed.

Lemma applyLrec_invariant {A B : Type} (K : A -> Prop) (J : B -> Prop)
    (callback : A -> B -> Completion A) :
  (forall a b, K a -> J b -> exists c, callback a b = Normal c /\ K c) ->
  forall tails first, K first -> Forall J tails ->
    exists r, applyLrec callback first tails = Normal r /\ K r.
Proof.
  intros Hcb. induction tails as [|b tails IH]; intros first Hfirst Htails.
  - exists first. split; [reflexivity | assumption].
  - inversion Htails as [|b' tails' Hb Htl]; subst. simpl.
    destruct (Hcb first b Hfirst Hb) as [c [Hc Kc]]. rewrite Hc.
    apply IH; assumption.
Qed.

Lemma yields_lrec_sc {A B : Type} (K : A -> Prop) (J : B -> Prop)
    (p : Parser A) (q : Parser B) (callback : A -> B -> Completion A) :
  yields K p -> yields J q ->
  (forall a b, K a -> J b -> exists c, callback a b = Normal c /\ K c) ->
  yields K (lrec_sc p q callback).
Proof.
  intros Hp Hq Hcb ts. unfold lrec_sc.
  pose proof (yields_seq Hp (yields_rep_sc Hq) ts) as H.
  unfold produces in *.
  destruct (seq p (rep_sc q) ts) as [[first tails] rest e| |]; auto.
  simpl in *. destruct H as [Hfirst Htails].
  destruct (@applyLrec_invariant _ _ K J callback Hcb tails first
              Hfirst Htails) as [r [Hr Kr]].
  rewrite Hr. exact Kr.
Qed.

(* ------------------------------------------------------------------ *)
(** ** Properties of every node of a type AST *)

Lemma forallb_of_Forall {A : Type} (f : A -> bool) (l : list A) :
  Forall (fun a => f a = true) l -> forallb f l = true.
Proof.
  induction 1 as [|a l Ha Hl IH]; simpl; auto.
  rewrite Ha, IH. reflexivity.
Qed.

Lemma Forall_of_forallb {A : Type} (f : A -> bool) (l : list A) :
  forallb f l = true -> Forall (fun a => f a = true) l.
Proof.
  induction l as [|a l IH]; simpl; intros H; constructor;
    apply andb_prop in H; destruct H; auto.
Qed.

Lemma entity_defined_from (names : list Token) :
  forall e, exists e', fold_left entityStep names (Some e) = Some e'.
Proof.
  induction names as [|n names IH]; intros e; simpl.
  - exists e. reflexivity.
  - apply IH.
Qed.

Lemma entity_defined (names : list Token) :
  names <> [] -> exists e, fold_left entityStep names None = Some e.
Proof.
  destruct names as [|n names]; intros H; [congruence|].
  simpl. apply entity_defined_from.
Qed.

Lemma yields_IDENTIFIER : yields anything IDENTIFIER.
Proof. apply yields_alt. repeat constructor; apply yields_tok. Qed.

(** Builds the invariant of a token-level or composite parser from the
    invariants of its parts. *)
Ltac yield :=
  repeat first
    [ eassumption
    | apply yields_str
    | apply yields_tok
    | apply yields_IDENTIFIER
    | eapply yields_list_sc
    | eapply yields_opt_sc
    | eapply yields_seq
    | eapply yields_alt
    | apply Forall_cons
    | apply Forall_nil ].

Section NodeInvariant.

(** Any check that accepts the nodes the reducers build. *)
Variable check : Type_ -> bool.
Hypothesis check_built : forall t, builtNode t = true -> check t = true.

Lemma good_intro (t : Type_) :
  builtNode t = true ->
  match t with
  | PrimitiveType _ => True
  | LiteralType _ => True
  | OptionalType e => (good check) e
  | ParenType e => (good check) e
  | ArrayType _ None => True
  | ArrayType _ (Some e) => (good check) e
  | UnionType els => Forall (good check) els
  | TypeReference _ args => Forall (good check) args
  | DecoratedGenericType _ e => (good check) e
  | ObjectType _ mixins members =>
      Forall (good check) mixins /\
      Forall (fun o => allNodesMember check o = true) members
  end ->
  (good check) t.
Proof.
  intros Hb H. unfold good.
  destruct t as [| |e|e|ro [e|]|els|n args|n e|ex mix mem]; simpl;
    rewrite (check_built _ Hb); simpl; auto.
  - apply forallb_of_Forall; assumption.
  - apply forallb_of_Forall; assumption.
  - destruct H as [H1 H2].
    rewrite (forallb_of_Forall _ H1), (forallb_of_Forall _ H2).
    reflexivity.
Qed.

Lemma goodTerm_applyOptionalType (value : Token * Type_) :
  (good check) (snd value) -> (goodTerm check) (applyOptionalType value).
Proof.
  destruct value as [q t]; simpl. intros H. unfold applyOptionalType.
  simpl.
  destruct t; (split; [|reflexivity]);
    try assumption; apply good_intro; auto.
Qed.

Lemma good_entries_types (ms : list (Type_ + ObjectMember)) :
  Forall (goodEntry check) ms ->
  Forall (good check) (asTypes (filter (fun m => negb (isMember m)) ms)).
Proof.
  induction 1 as [|m ms Hm Hms IH]; simpl; [constructor|].
  destruct m as [t|[ | ]]; simpl; auto.
Qed.

Lemma good_entries_members (ms : list (Type_ + ObjectMember)) :
  Forall (goodEntry check) ms ->
  Forall (fun o => allNodesMember check o = true)
    (asMembers (filter isMember ms)).
Proof.
  induction 1 as [|m ms Hm Hms IH]; simpl; [constructor|].
  destruct m as [t|[ | ]]; simpl; auto.
Qed.

Lemma goodTerm_TYPE_TERM_pattern (TYPE : Parser Type_) :
  yields (good check) TYPE -> yields (goodTerm check) (TYPE_TERM_pattern TYPE).
Proof.
  intros H. unfold TYPE_TERM_pattern.
  apply yields_alt. repeat apply Forall_cons; try apply Forall_nil.
  - apply yields_alt. repeat apply Forall_cons; try apply Forall_nil.
    + eapply yields_apply; [yield|]. intros a _.
      split; [apply good_intro|]; reflexivity.
    + eapply yields_apply; [yield|]. intros a _.
      split; [apply good_intro|]; reflexivity.
    + eapply yields_apply; [yield|]. intros a _.
      split; [apply good_intro|]; reflexivity.
    + eapply yields_apply; [yield|]. intros a _.
      split; [apply good_intro|]; reflexivity.
    + eapply yields_apply; [yield|]. intros a _.
      split; [apply good_intro|]; reflexivity.
    + eapply yields_apply; [yield|]. intros a [_ Ha].
      apply goodTerm_applyOptionalType; assumption.
    + eapply yields_apply; [yield|]. intros [o [t c]] [_ [Ht _]].
      split; [apply good_intro|]; auto.
  - apply yields_alt. repeat apply Forall_cons; try apply Forall_nil.
    + eapply yields_apply; [yield|].
      intros [k [o [t c]]] [_ [_ [Ht _]]].
      split; [apply good_intro|]; auto.
    + eapply yields_apply; [yield|].
      intros [k [o [t c]]] [_ [_ [Ht _]]].
      split; [apply good_intro|]; auto.
    + eapply yields_apply; [yield|].
      intros [names args] [[_ Hnames] Hargs]. simpl in *.
      destruct (entity_defined Hnames) as [e He].
      unfold applyTypeReference. rewrite He.
      destruct args as [[o [l c]]|]; simpl in *;
        (split; [apply good_intro|]); auto.
      apply Hargs.
  - eapply yields_apply.
    + eapply yields_seq; [apply yields_str|].
      eapply yields_seq; [eapply yields_opt_sc; apply yields_str|].
      eapply yields_seq; [|yield].
      eapply yields_opt_sc, yields_list_sc; [|apply yields_str].
      apply (@yields_alt _ (goodEntry check)).
      repeat apply Forall_cons; try apply Forall_nil.
      * eapply yields_apply; [yield|]. intros a [_ Ha]. exact Ha.
      * eapply yields_apply; [yield|].
        intros [ro [n [o [c t]]]] [_ [_ [_ [_ Ht]]]]. exact Ht.
      * eapply yields_apply; [yield|].
        intros [ro [o [n [c [k [c1 [c2 v]]]]]]]
               [_ [_ [_ [_ [Hk [_ [_ Hv]]]]]]].
        simpl in *. unfold good in *. rewrite Hk, Hv. reflexivity.
    + intros [o [ex [ms r]]] [_ [_ [Hms _]]]. simpl in *.
      split; [|reflexivity]. apply good_intro; [reflexivity|].
      destruct ms as [ms|]; simpl in *; [|split; constructor].
      destruct Hms as [Hms _].
      split; [apply good_entries_types | apply good_entries_members];
        assumption.
Qed.

Lemma goodTerm_TYPE_ARRAY_pattern (TYPE_TERM : Parser Type_) :
  yields (goodTerm check) TYPE_TERM ->
  yields (goodTerm check) (TYPE_ARRAY_pattern TYPE_TERM).
Proof.
  intros H.
  apply (@yields_lrec_sc _ _ (goodTerm check) (fun b => b = ArrayType false None)).
  - assumption.
  - eapply yields_apply; [yield|]. intros a _. reflexivity.
  - intros a b [Ha Hn] ->. simpl. eexists. split; [reflexivity|].
    split; [apply good_intro|]; auto.
    unfold builtNode. simpl. rewrite Hn. reflexivity.
Qed.

Lemma goodUnion_applyTypeLrec (first second : Type_) :
  (goodUnion check) first ->
  (exists x, second = UnionType [x] /\ (goodTerm check) x) ->
  exists r, applyTypeLrec first second = Normal r /\ (goodUnion check) r.
Proof.
  intros [Hfirst Hu] [x [-> [Hx Hnu]]]. simpl.
  assert (Hcase :
    (exists els, first = UnionType els) \/
    applyTypeLrec first (UnionType [x]) = Normal (UnionType [first; x]) /\
    isUnion first = false).
  { destruct first; simpl; eauto. }
  destruct Hcase as [[els ->]|[Heq Hn]].
  - eexists. split; [reflexivity|].
    unfold unionNode in Hu. apply andb_prop in Hu.
    destruct Hu as [Hlen Hall]. apply Nat.leb_le in Hlen.
    assert (Hb : unionNode (UnionType (els ++ [x])) = true).
    { unfold unionNode. apply andb_true_intro. split.
      - apply Nat.leb_le. rewrite length_app. simpl. lia.
      - rewrite forallb_app, Hall. simpl. rewrite Hnu. reflexivity. }
    split; [|exact Hb].
    apply good_intro.
    + unfold builtNode. rewrite Hb. reflexivity.
    + apply Forall_app. split.
      * unfold good in Hfirst. simpl in Hfirst.
        apply andb_prop in Hfirst. destruct Hfirst as [_ Hels].
        apply Forall_of_forallb in Hels. exact Hels.
      * constructor; [assumption|constructor].
  - simpl in Heq. rewrite Heq. eexists. split; [reflexivity|].
    assert (Hb : unionNode (UnionType [first; x]) = true).
    { simpl. rewrite Hn, Hnu. reflexivity. }
    split; [|exact Hb].
    apply good_intro.
    + unfold builtNode. rewrite Hb. reflexivity.
    + repeat constructor; assumption.
Qed.

Lemma goodUnion_of_goodTerm (t : Type_) : (goodTerm check) t -> (goodUnion check) t.
Proof. intros [H Hn]. split; [assumption|]. destruct t; auto; discriminate. Qed.

Lemma good_TYPE_pattern (TYPE_ARRAY : Parser Type_) :
  yields (goodTerm check) TYPE_ARRAY -> yields (good check) (TYPE_pattern TYPE_ARRAY).
Proof.
  intros H.
  apply (@yields_weaken _ (goodUnion check)); [|intros a [Ha _]; exact Ha].
  apply (@yields_lrec_sc _ _ (goodUnion check)
           (fun b => exists x, b = UnionType [x] /\ (goodTerm check) x)).
  - eapply yields_apply; [yield|]. intros [o t] [_ Ht].
    apply goodUnion_of_goodTerm. exact Ht.
  - eapply yields_apply; [yield|]. intros [o t] [_ Ht].
    exists t. split; [reflexivity | exact Ht].
  - apply goodUnion_applyTypeLrec.
Qed.

Lemma good_TYPE_rec (depth : nat) : yields (good check) (TYPE_rec depth).
Proof.
  induction depth as [|depth IH].
  - intros ts. exact Logic.I.
  - simpl. apply good_TYPE_pattern, goodTerm_TYPE_ARRAY_pattern,
      goodTerm_TYPE_TERM_pattern, IH.
Qed.

Lemma good_TYPE : yields (good check) TYPE.
Proof. intros ts. unfold TYPE. apply good_TYPE_rec. Qed.

Lemma goodTerm_TYPE_TERM : yields (goodTerm check) TYPE_TERM.
Proof. apply goodTerm_TYPE_TERM_pattern, good_TYPE. Qed.

Lemma goodTerm_TYPE_ARRAY : yields (goodTerm check) TYPE_ARRAY.
Proof. apply goodTerm_TYPE_ARRAY_pattern, goodTerm_TYPE_TERM. Qed.

End NodeInvariant.

Lemma unionNode_of_built (t : Type_) : builtNode t = true -> unionNode t = true.
Proof.
  unfold builtNode. intros H.
  repeat (apply andb_prop in H; destruct H as [H ?]). exact H.
Qed.

Lemma arrayNode_of_built (t : Type_) : builtNode t = true -> arrayNode t = true.
Proof.
  unfold builtNode. intros H.
  repeat (apply andb_prop in H; destruct H as [H ?]). assumption.
Qed.

Lemma optionalNode_of_built (t : Type_) :
  builtNode t = true -> optionalNode t = true.
Proof.
  unfold builtNode. intros H.
  repeat (apply andb_prop in H; destruct H as [H ?]). assumption.
Qed.

Lemma referenceNode_of_built (t : Type_) :
  builtNode t = true -> referenceNode t = true.
Proof.
  unfold builtNode. intros H.
  repeat (apply andb_prop in H; destruct H as [H ?]). assumption.
Qed.

Lemma suffixNode_of_built (t : Type_) :
  builtNode t = true -> suffixNode t = true.
Proof.
  unfold builtNode. intros H.
  repeat (apply andb_prop in H; destruct H as [H ?]). assumption.
Qed.

(* ------------------------------------------------------------------ *)
(** ** The repetition loop *)

Lemma rep_loop_spec {A : Type} (p : Parser A) :
  yields anything p ->
  forall rounds acc err ts, length ts < rounds ->
    exists (rs : list A) rest e,
      rep_loop p rounds acc err ts = Success (rev acc ++ rs)%list rest e /\
      Repeats p ts rs rest /\ halts p rest.
Proof.
  intros Hp.
  induction rounds as [|rounds IH]; intros acc err ts Hts; [lia|].
  simpl. pose proof (Hp ts) as Hpts. unfold produces in Hpts.
  destruct (p ts) as [r rest e| |] eqn:Heq.
  - destruct (Nat.ltb (length rest) (length ts)) eqn:Hlt.
    + apply Nat.ltb_lt in Hlt.
      destruct (IH (r :: acc) (betterError err e) rest) as
        [rs [rest' [e' [Hloop [Hrep Hhalt]]]]]; [lia|].
      exists (r :: rs), rest', e'. split; [|split].
      * rewrite Hloop. simpl. rewrite <- app_assoc. reflexivity.
      * econstructor; eassumption.
      * assumption.
    + apply Nat.ltb_ge in Hlt.
      exists [], ts, (betterError err e). split; [|split].
      * rewrite app_nil_r. reflexivity.
      * constructor.
      * unfold halts. rewrite Heq. assumption.
  - exists [], ts, (betterError err (Some error)). split; [|split].
    + rewrite app_nil_r. reflexivity.
    + constructor.
    + unfold halts. rewrite Heq. exact Logic.I.
  - contradiction.
Qed.

(** A repetition always succeeds: it returns the matches of [p] in order
    and stops where [p] halts. *)
Lemma rep_sc_spec {A : Type} (p : Parser A) :
  yields anything p ->
  forall ts, exists rs rest e,
    rep_sc p ts = Success rs rest e /\ Repeats p ts rs rest /\ halts p rest.
Proof.
  intros Hp ts. unfold rep_sc.
  destruct (@rep_loop_spec _ p Hp (S (length ts)) [] None ts) as
    [rs [rest [e H]]]; [lia|].
  exists rs, rest, e. exact H.
Qed.

Lemma rep_sc_halts {A : Type} (p : Parser A) (ts : list Token)
    (rs : list A) (rest : list Token) (e : option ParseError) :
  yields anything p ->
  rep_sc p ts = Success rs rest e -> Repeats p ts rs rest /\ halts p rest.
Proof.
  intros Hp H. destruct (rep_sc_spec Hp ts) as [rs' [rest' [e' [Heq Hr]]]].
  rewrite Heq in H. inversion H; subst. exact Hr.
Qed.

Lemma rep_sc_failure {A : Type} (p : Parser A) (ts : list Token)
    (e : ParseError) :
  p ts = Failure e -> rep_sc p ts = Success [] ts (Some e).
Proof. intros H. unfold rep_sc. simpl. rewrite H. reflexivity. Qed.

Lemma halts_failure {A : Type} (p : Parser A) (ts : list Token) :
  advances 1 p -> halts p ts -> exists e, p ts = Failure e.
Proof.
  intros Hadv H. specialize (Hadv ts). unfold halts, shrinks in *.
  destruct (p ts) as [r rest e'|e'|m].
  - lia.
  - exists e'. reflexivity.
  - contradiction.
Qed.

(** The stream left by a repetition satisfies whatever holds of the start
    and of the stream left by each match. *)
Lemma Repeats_rest {A : Type} (p : Parser A) (Q : list Token -> Prop) :
  (forall ts r rest e, p ts = Success r rest e -> Q rest) ->
  forall ts rs rest, Repeats p ts rs rest -> Q ts -> Q rest.
Proof.
  intros Hp ts rs rest H. induction H; intros HQ; [assumption|].
  apply IHRepeats. eapply Hp. eassumption.
Qed.

Lemma lrec_sc_halted {A B : Type} (p : Parser A) (q : Parser B)
    (callback : A -> B -> Completion A) (ts : list Token) (a : A)
    (rest : list Token) (e : option ParseError) (e' : ParseError) :
  p ts = Success a rest e -> q rest = Failure e' ->
  lrec_sc p q callback ts = Success a rest (betterError e (Some e')).
Proof.
  intros Hp Hq. unfold lrec_sc, seq.
  rewrite Hp, (rep_sc_failure _ _ Hq). reflexivity.
Qed.

(* ------------------------------------------------------------------ *)
(** ** Union types *)

(** C1.  Whenever [TYPE] succeeds, every [UnionType] node of the returned
    AST has at least two element types and no element that is itself a
    [UnionType].  [A | B | C] parses to the single union [[A, B, C]];
    [(A | B) | C] parses to a union of two elements whose first element is
    the [ParenType] around the union [[A, B]]. *)
Theorem C1_union_flattened :
  (forall ts t rest e,
      TYPE ts = Success t rest e -> allNodes unionNode t = true) /\
  TYPE tokens_A_B_C =
    Success (UnionType [ref "A"; ref "B"; ref "C"]) []
            (Some UnexpectedEndOfInput) /\
  TYPE tokens_paren_A_B_C =
    Success (UnionType [ParenType (UnionType [ref "A"; ref "B"]); ref "C"])
            [] (Some UnexpectedEndOfInput).
Proof.
  split; [|split; vm_compute; reflexivity].
  intros ts t rest e H.
  pose proof (@good_TYPE unionNode unionNode_of_built ts) as Hg.
  rewrite H in Hg. exact Hg.
Qed.

Lemma C1_union_flattened_witness :
  TYPE tokens_paren_A_B_C =
    Success (UnionType [ParenType (UnionType [ref "A"; ref "B"]); ref "C"])
            [] (Some UnexpectedEndOfInput) /\
  allNodes unionNode
    (UnionType [ParenType (UnionType [ref "A"; ref "B"]); ref "C"]) = true.
Proof.
  split.
  - vm_compute; reflexivity.
  - apply (proj1 C1_union_flattened tokens_paren_A_B_C _ []
             (Some UnexpectedEndOfInput)).
    vm_compute; reflexivity.
Defined.

(* ------------------------------------------------------------------ *)
(** ** Array types *)

(** C3.  The array suffix binds tighter than the union operator and
    associates to the left: [A | B[]] parses to the union of [A] and the
    array of [B] (not readonly), and [T[][]] parses to the array of the
    array of [T].  Whenever [TYPE] succeeds, no array node made by a [[]]
    suffix has a union as its element. *)
Theorem C3_array_precedence :
  TYPE tokens_A_Barr =
    Success (UnionType [ref "A"; ArrayType false (Some (ref "B"))]) []
            (Some UnexpectedEndOfInput) /\
  TYPE tokens_Tarrarr =
    Success (ArrayType false (Some (ArrayType false (Some (ref "T"))))) []
            (Some UnexpectedEndOfInput) /\
  TYPE_ARRAY tokens_Tarrarr =
    Success (ArrayType false (Some (ArrayType false (Some (ref "T"))))) []
            (Some UnexpectedEndOfInput) /\
  (forall ts t rest e,
      TYPE ts = Success t rest e -> allNodes suffixNode t = true).
Proof.
  split; [vm_compute; reflexivity|].
  split; [vm_compute; reflexivity|].
  split; [vm_compute; reflexivity|].
  intros ts t rest e H.
  pose proof (@good_TYPE suffixNode suffixNode_of_built ts) as Hg.
  rewrite H in Hg. exact Hg.
Qed.

Lemma C3_array_precedence_witness :
  TYPE tokens_A_Barr =
    Success (UnionType [ref "A"; ArrayType false (Some (ref "B"))]) []
            (Some UnexpectedEndOfInput) /\
  allNodes suffixNode
    (UnionType [ref "A"; ArrayType false (Some (ref "B"))]) = true.
Proof.
  split.
  - vm_compute; reflexivity.
  - apply (proj2 (proj2 (proj2 C3_array_precedence)) tokens_A_Barr _ []
             (Some UnexpectedEndOfInput)).
    vm_compute; reflexivity.
Defined.

(** C4.  Whenever [TYPE], [TYPE_ARRAY] or [TYPE_TERM] succeeds, every
    [ArrayType] node of the returned AST has its element type.  The node
    [applyArrayTypeLrec] builds has none, and the fold step
    [applyTypeLrec] returns it with the left operand filled in. *)
Theorem C4_array_element_resolved :
  (forall ts t rest e,
      TYPE ts = Success t rest e -> allNodes arrayNode t = true) /\
  (forall ts t rest e,
      TYPE_ARRAY ts = Success t rest e -> allNodes arrayNode t = true) /\
  (forall ts t rest e,
      TYPE_TERM ts = Success t rest e -> allNodes arrayNode t = true) /\
  (forall value, applyArrayTypeLrec value = ArrayType false None) /\
  (forall first value,
      applyTypeLrec first (applyArrayTypeLrec value) =
        Normal (ArrayType false (Some first))).
Proof.
  split; [|split; [|split; [|split]]].
  - intros ts t rest e H.
    pose proof (@good_TYPE arrayNode arrayNode_of_built ts) as Hg.
    rewrite H in Hg. exact Hg.
  - intros ts t rest e H.
    pose proof (@goodTerm_TYPE_ARRAY arrayNode arrayNode_of_built ts) as Hg.
    rewrite H in Hg. exact (proj1 Hg).
  - intros ts t rest e H.
    pose proof (@goodTerm_TYPE_TERM arrayNode arrayNode_of_built ts) as Hg.
    rewrite H in Hg. exact (proj1 Hg).
  - reflexivity.
  - reflexivity.
Qed.

Lemma C4_array_element_resolved_witness :
  TYPE_ARRAY tokens_Tarrarr =
    Success (ArrayType false (Some (ArrayType false (Some (ref "T"))))) []
            (Some UnexpectedEndOfInput) /\
  allNodes arrayNode
    (ArrayType false (Some (ArrayType false (Some (ref "T"))))) = true.
Proof.
  split.
  - vm_compute; reflexivity.
  - apply (proj1 (proj2 C4_array_element_resolved) tokens_Tarrarr _ []
             (Some UnexpectedEndOfInput)).
    vm_compute; reflexivity.
Defined.

(* ------------------------------------------------------------------ *)
(** ** Qualified names *)

(** C5.  [a.b.c] parses to a [TypeReference] whose name is
    [{parent: {parent: "a", name: "b"}, name: "c"}] and whose type
    arguments are empty; the reducer accumulates the segments left to
    right, the first one innermost.  Whenever [TYPE] succeeds, every
    [TypeReference] node of the returned AST has its name. *)
Theorem C5_qualified_name :
  TYPE_TERM tokens_a_b_c =
    Success
      (TypeReference (Some (Qualified (Qualified (Name "a") "b") "c")) [])
      [] (Some UnexpectedEndOfInput) /\
  TYPE tokens_a_b_c =
    Success
      (TypeReference (Some (Qualified (Qualified (Name "a") "b") "c")) [])
      [] (Some UnexpectedEndOfInput) /\
  (forall a b c : Token,
      applyTypeReference ([a; b; c], None) =
        TypeReference
          (Some (Qualified (Qualified (Name (text a)) (text b)) (text c)))
          []) /\
  (forall ts t rest e,
      TYPE ts = Success t rest e -> allNodes referenceNode t = true).
Proof.
  split; [vm_compute; reflexivity|].
  split; [vm_compute; reflexivity|].
  split; [reflexivity|].
  intros ts t rest e H.
  pose proof (@good_TYPE referenceNode referenceNode_of_built ts) as Hg.
  rewrite H in Hg. exact Hg.
Qed.

Lemma C5_qualified_name_witness :
  TYPE tokens_a_b_c =
    Success
      (TypeReference (Some (Qualified (Qualified (Name "a") "b") "c")) [])
      [] (Some UnexpectedEndOfInput) /\
  allNodes referenceNode
    (TypeReference (Some (Qualified (Qualified (Name "a") "b") "c")) []) =
    true.
Proof.
  split.
  - vm_compute; reflexivity.
  - apply (proj2 (proj2 (proj2 C5_qualified_name)) tokens_a_b_c _ []
             (Some UnexpectedEndOfInput)).
    vm_compute; reflexivity.
Defined.

(* ------------------------------------------------------------------ *)
(** ** Reading a success backwards *)

Lemma apply_success {A B : Type} (p : Parser A) (f : A -> B)
    (ts : list Token) (b : B) (rest : list Token) (e : option ParseError) :
  apply p f ts = Success b rest e ->
  exists a, p ts = Success a rest e /\ b = f a.
Proof.
  unfold apply. destruct (p ts) as [a rest' e'| |]; intros H;
    inversion H; subst. exists a. split; reflexivity.
Qed.

Lemma seq_success {A B : Type} (p : Parser A) (q : Parser B)
    (ts : list Token) (v : A * B) (rest : list Token)
    (e : option ParseError) :
  seq p q ts = Success v rest e ->
  exists rest1 e1 e2,
    p ts = Success (fst v) rest1 e1 /\ q rest1 = Success (snd v) rest e2.
Proof.
  unfold seq. destruct (p ts) as [a rest1 e1| |]; try discriminate.
  destruct (q rest1) as [b rest2 e2| |] eqn:Hq; intros H; inversion H; subst.
  exists rest1, e1, e2. split; [reflexivity | exact Hq].
Qed.

Lemma alt_from_success {A : Type} (ps : list (Parser A)) :
  forall err ts a rest e,
    alt_from err ps ts = Success a rest e ->
    exists p e', In p ps /\ p ts = Success a rest e'.
Proof.
  induction ps as [|p ps IH]; intros err ts a rest e; simpl; try discriminate.
  destruct (p ts) as [a' rest' e'| |] eqn:Hp; intros H.
  - inversion H; subst. exists p, e'. split; [left; reflexivity | exact Hp].
  - destruct (IH _ _ _ _ _ H) as [p' [e'' [Hin Hp']]].
    exists p', e''. split; [right; exact Hin | exact Hp'].
  - discriminate.
Qed.

Lemma alt_success {A : Type} (ps : list (Parser A)) (ts : list Token)
    (a : A) (rest : list Token) (e : option ParseError) :
  alt ps ts = Success a rest e ->
  exists p e', In p ps /\ p ts = Success a rest e'.
Proof. apply alt_from_success. Qed.

Lemma lrec_sc_success {A B : Type} (p : Parser A) (q : Parser B)
    (callback : A -> B -> Completion A) (ts : list Token) (r : A)
    (rest : list Token) (e : option ParseError) :
  lrec_sc p q callback ts = Success r rest e ->
  exists first rest1 e1 tails e2,
    p ts = Success first rest1 e1 /\
    rep_sc q rest1 = Success tails rest e2 /\
    applyLrec callback first tails = Normal r.
Proof.
  unfold lrec_sc. destruct (seq p (rep_sc q) ts) as [v rest' e'| |] eqn:Hs;
    try discriminate.
  destruct (applyLrec callback (fst v) (snd v)) as [r'|] eqn:Hc;
    intros H; inversion H; subst.
  destruct (seq_success _ _ _ Hs) as [rest1 [e1 [e2 [Hp Hq]]]].
  exists (fst v), rest1, e1, (snd v), e2. auto.
Qed.

(* ------------------------------------------------------------------ *)
(** ** Where the type rules stop *)

Lemma yields_anything_TYPE : yields anything TYPE.
Proof.
  apply (@yields_weaken _ (good (fun _ => true))).
  - apply good_TYPE. reflexivity.
  - intros a _. exact Logic.I.
Qed.

Lemma yields_anything_TYPE_ARRAY : yields anything TYPE_ARRAY.
Proof.
  apply (@yields_weaken _ (goodTerm (fun _ => true))).
  - apply goodTerm_TYPE_ARRAY. reflexivity.
  - intros a _. exact Logic.I.
Qed.

Lemma yields_anything_TYPE_TERM : yields anything TYPE_TERM.
Proof.
  apply (@yields_weaken _ (goodTerm (fun _ => true))).
  - apply goodTerm_TYPE_TERM. reflexivity.
  - intros a _. exact Logic.I.
Qed.

Lemma advances_arraySuffix : advances 1 arraySuffix.
Proof. unfold arraySuffix. advance. Qed.

Lemma advances_unionTail : advances 1 unionTail.
Proof.
  unfold unionTail. apply advances_apply, advances_seq_first.
  - apply advances_str.
  - apply advances0_of1, advances_TYPE_ARRAY.
Qed.

Lemma yields_arraySuffix : yields anything arraySuffix.
Proof.
  unfold arraySuffix. eapply yields_apply; [yield|]. intros; exact Logic.I.
Qed.

Lemma yields_unionTail : yields anything unionTail.
Proof.
  unfold unionTail. eapply yields_apply.
  - eapply yields_seq; [apply yields_str | apply yields_anything_TYPE_ARRAY].
  - intros; exact Logic.I.
Qed.

(** [TYPE_ARRAY] takes every [[]] pair: none is left where it stops. *)
Lemma TYPE_ARRAY_rest (ts : list Token) (t : Type_) (rest : list Token)
    (e : option ParseError) :
  TYPE_ARRAY ts = Success t rest e -> exists e', arraySuffix rest = Failure e'.
Proof.
  intros H. apply lrec_sc_success in H.
  destruct H as [first [rest1 [e1 [tails [e2 [_ [Hrep _]]]]]]].
  apply rep_sc_halts in Hrep; [|apply yields_arraySuffix].
  apply halts_failure; [apply advances_arraySuffix | apply Hrep].
Qed.

Lemma unionTail_rest (ts : list Token) (t : Type_) (rest : list Token)
    (e : option ParseError) :
  unionTail ts = Success t rest e -> exists e', arraySuffix rest = Failure e'.
Proof.
  intros H. apply apply_success in H. destruct H as [v [H _]].
  apply seq_success in H. destruct H as [rest1 [e1 [e2 [_ H]]]].
  eapply TYPE_ARRAY_rest. exact H.
Qed.

(** [TYPE] takes every [| operand]: where it stops neither a [[]] pair
    nor a further operand follows. *)
Lemma TYPE_rest (ts : list Token) (t : Type_) (rest : list Token)
    (e : option ParseError) :
  TYPE ts = Success t rest e ->
  (exists e', arraySuffix rest = Failure e') /\
  (exists e', unionTail rest = Failure e').
Proof.
  rewrite TYPE_unfold. intros H. apply lrec_sc_success in H.
  destruct H as [first [rest1 [e1 [tails [e2 [Hhead [Hrep _]]]]]]].
  apply rep_sc_halts in Hrep; [|apply yields_unionTail].
  destruct Hrep as [Hrep Hhalt]. split.
  - apply (Repeats_rest (p := unionTail)
             (fun ts => exists e', arraySuffix ts = Failure e')
             unionTail_rest Hrep).
    apply apply_success in Hhead. destruct Hhead as [v [Hhead _]].
    apply seq_success in Hhead. destruct Hhead as [r1 [e3 [e4 [_ Hhead]]]].
    eapply TYPE_ARRAY_rest. exact Hhead.
  - apply halts_failure; [apply advances_unionTail | exact Hhalt].
Qed.

(* ------------------------------------------------------------------ *)
(** ** Optional types *)

(** On a stream that starts with [?], [TYPE_TERM] is the optional form:
    the reducer applied to whatever [TYPE] makes of the rest. *)
Lemma TYPE_TERM_question (q : Token) (ts : list Token) :
  isQuestion q ->
  match TYPE ts with
  | Success t rest e =>
      exists e', TYPE_TERM (q :: ts) =
                   Success (applyOptionalType (q, t)) rest e'
  | Failure e => exists e', TYPE_TERM (q :: ts) = Failure e'
  | Thrown m => TYPE_TERM (q :: ts) = Thrown m
  end.
Proof.
  destruct q as [k s p]. intros [Hk Hs]. simpl in Hk, Hs. subst k s.
  unfold TYPE_TERM, TYPE_TERM_pattern.
  unfold alt, apply, seq, list_sc, IDENTIFIER, alt, apply, seq, str, tok.
  simpl.
  destruct (TYPE ts) as [t rest e|e|m]; simpl;
    try (eexists; reflexivity); reflexivity.
Qed.

(** [TYPE_ARRAY] and [TYPE] add nothing to a term that stops where
    neither a [[]] pair nor a [|] operand follows. *)
Lemma TYPE_of_term (q : Token) (ts : list Token) (o : Type_)
    (rest : list Token) (e : option ParseError) :
  isQuestion q ->
  TYPE_TERM (q :: ts) = Success o rest e ->
  (exists e', arraySuffix rest = Failure e') ->
  (exists e', unionTail rest = Failure e') ->
  (exists e', TYPE_ARRAY (q :: ts) = Success o rest e') /\
  (exists e', TYPE (q :: ts) = Success o rest e').
Proof.
  intros [Hk Hs] Hterm [ea Ha] [eu Hu].
  assert (Harr : TYPE_ARRAY (q :: ts) =
                   Success o rest (betterError e (Some ea))).
  { apply lrec_sc_halted; assumption. }
  split; [eexists; exact Harr|].
  rewrite TYPE_unfold. unfold TYPE_pattern.
  eexists. apply lrec_sc_halted with (e' := eu); [|exact Hu].
  unfold apply, seq, opt_sc, str. rewrite Hs. simpl.
  rewrite Harr. reflexivity.
Qed.

Lemma TYPE_of_term_failure (q : Token) (ts : list Token) (e : ParseError) :
  isQuestion q ->
  TYPE_TERM (q :: ts) = Failure e ->
  exists e', TYPE (q :: ts) = Failure e'.
Proof.
  intros [Hk Hs] Hterm. rewrite TYPE_unfold.
  unfold TYPE_pattern, lrec_sc, apply, seq, opt_sc, str. rewrite Hs. simpl.
  unfold TYPE_ARRAY, TYPE_ARRAY_pattern, lrec_sc, seq. rewrite Hterm.
  eexists. reflexivity.
Qed.

Lemma applyOptionalType_collapsed (q : Token) (t : Type_) :
  allNodes optionalNode t = true ->
  exists x, applyOptionalType (q, t) = OptionalType x /\
            isOptional x = false /\
            (isOptional t = false -> x = t).
Proof.
  intros H. destruct t; simpl;
    try (eexists; split; [reflexivity | split; [reflexivity | reflexivity]]).
  simpl in H. apply andb_prop in H. destruct H as [H _].
  exists t. split; [reflexivity|]. split; [|discriminate].
  destruct (isOptional t); [discriminate | reflexivity].
Qed.

(** C2.  Let [q] be the token [?].  Whatever type [T] the parser reads
    after it, [?T] and [??T] parse to the same AST and leave the same
    rest, as a term and as a type: one [OptionalType] node whose element
    is not an [OptionalType], and which wraps the AST of [T] itself when
    [T] is not optional.  When [T] does not parse, neither form does. *)
Theorem C2_optional_collapse (q : Token) (ts : list Token) :
  isQuestion q ->
  match TYPE ts with
  | Success t rest _ =>
      exists x,
        applyOptionalType (q, t) = OptionalType x /\
        isOptional x = false /\
        (isOptional t = false -> x = t) /\
        (exists e, TYPE_TERM (q :: ts) = Success (OptionalType x) rest e) /\
        (exists e, TYPE_TERM (q :: q :: ts) =
                     Success (OptionalType x) rest e) /\
        (exists e, TYPE (q :: ts) = Success (OptionalType x) rest e) /\
        (exists e, TYPE (q :: q :: ts) = Success (OptionalType x) rest e)
  | Failure _ =>
      (exists e, TYPE_TERM (q :: ts) = Failure e) /\
      (exists e, TYPE_TERM (q :: q :: ts) = Failure e)
  | Thrown _ => False
  end.
Proof.
  intros Hq.
  pose proof (@TYPE_TERM_question q ts Hq) as H1.
  pose proof (@good_TYPE optionalNode optionalNode_of_built ts) as Hgood.
  pose proof (@TYPE_rest ts) as Hrest.
  destruct (TYPE ts) as [t rest e|e|m] eqn:HT.
  - destruct H1 as [e1 H1]. simpl in Hgood.
    destruct (@applyOptionalType_collapsed q t Hgood) as [x [Hx [Hnx Hxt]]].
    rewrite Hx in H1.
    destruct (Hrest t rest e eq_refl) as [Ha Hu].
    destruct (@TYPE_of_term q ts _ _ _ Hq H1 Ha Hu) as [_ [e2 H2]].
    pose proof (@TYPE_TERM_question q (q :: ts) Hq) as H3.
    rewrite H2 in H3. destruct H3 as [e3 H3]. simpl in H3.
    destruct (@TYPE_of_term q (q :: ts) _ _ _ Hq H3 Ha Hu) as [_ [e4 H4]].
    exists x. repeat split; eauto.
  - destruct H1 as [e1 H1]. split; [eauto|].
    destruct (@TYPE_of_term_failure q ts _ Hq H1) as [e2 H2].
    pose proof (@TYPE_TERM_question q (q :: ts) Hq) as H3.
    rewrite H2 in H3. exact H3.
  - exact Hgood.
Qed.

Lemma C2_optional_collapse_witness :
  isQuestion questionToken /\
  exists e,
    TYPE_TERM (questionToken :: questionToken ::
                 tokensFrom 2 [word "number"]) =
      Success (OptionalType (PrimitiveType "number")) [] e.
Proof.
  split; [split; reflexivity|].
  pose proof (@C2_optional_collapse questionToken
                (tokensFrom 2 [word "number"])
                (conj eq_refl eq_refl)) as H.
  assert (HT : TYPE (tokensFrom 2 [word "number"]) =
                 Success (PrimitiveType "number") []
                         (Some UnexpectedEndOfInput))
    by (vm_compute; reflexivity).
  rewrite HT in H.
  destruct H as [x [_ [_ [Hx [_ [H _]]]]]].
  rewrite (Hx eq_refl) in H. exact H.
Defined.

(* ------------------------------------------------------------------ *)
(** ** Object types *)

Lemma str_success (s : string) (ts : list Token) (t : Token)
    (rest : list Token) (e : option ParseError) :
  str s ts = Success t rest e -> ts = t :: rest /\ text t = s.
Proof.
  destruct ts as [|t' ts']; simpl; try discriminate.
  destruct (String.eqb (text t') s) eqn:Heq; intros H; inversion H; subst.
  split; [reflexivity | apply String.eqb_eq; assumption].
Qed.

Lemma opt_sc_str_defined (s : string) (ts : list Token) (o : option Token)
    (rest : list Token) (e : option ParseError) :
  opt_sc (str s) ts = Success o rest e -> isDefined o = startsWith s ts.
Proof.
  unfold opt_sc, str, startsWith. destruct ts as [|t ts']; simpl.
  - intros H. inversion H. reflexivity.
  - destruct (String.eqb (text t) s); intros H; inversion H; reflexivity.
Qed.

Lemma applyOptionalType_not_object (value : Token * Type_) :
  isObject (applyOptionalType value) = false.
Proof. destruct value as [q t]. destruct t; reflexivity. Qed.

Lemma applyTypeReference_not_object
    (value : list Token * option (Token * (list Type_ * Token))) :
  isObject (applyTypeReference value) = false.
Proof. destruct value as [names [args|]]; reflexivity. Qed.

(** An [ObjectType] result of [TYPE_TERM] comes from the brace form, and
    its [isExact] records whether a [|] follows the opening brace. *)
Lemma TYPE_TERM_object (ts : list Token) (isExact : bool)
    (mixinTypes : list Type_) (members : list ObjectMember)
    (rest : list Token) (e : option ParseError) :
  TYPE_TERM ts = Success (ObjectType isExact mixinTypes members) rest e ->
  startsWith "{" ts = true /\ isExact = leadingBar ts.
Proof.
  intros H. unfold TYPE_TERM, TYPE_TERM_pattern in H.
  apply alt_success in H. destruct H as [p [e' [Hin H]]].
  simpl in Hin. destruct Hin as [<-|[<-|[<-|[]]]].
  - exfalso. apply alt_success in H. destruct H as [p [e'' [Hin H]]].
    simpl in Hin.
    destruct Hin as [<-|[<-|[<-|[<-|[<-|[<-|[<-|[]]]]]]]];
      apply apply_success in H; destruct H as [v [_ H]];
      try discriminate.
    pose proof (applyOptionalType_not_object v) as Hn.
    rewrite <- H in Hn. discriminate.
  - exfalso. apply alt_success in H. destruct H as [p [e'' [Hin H]]].
    simpl in Hin.
    destruct Hin as [<-|[<-|[<-|[]]]];
      apply apply_success in H; destruct H as [v [_ H]];
      try discriminate.
    pose proof (applyTypeReference_not_object v) as Hn.
    rewrite <- H in Hn. discriminate.
  - apply apply_success in H. destruct H as [v [H Hv]].
    apply seq_success in H. destruct H as [rest1 [e1 [e2 [Hopen H]]]].
    apply seq_success in H. destruct H as [rest2 [e3 [e4 [Hbar _]]]].
    apply str_success in Hopen. destruct Hopen as [-> Hopen].
    apply opt_sc_str_defined in Hbar.
    destruct v as [o [ex [ms r]]]. simpl in *.
    inversion Hv; subst. split.
    + rewrite Hopen. reflexivity.
    + unfold leadingBar. simpl. exact Hbar.
Qed.

(** C6, counterexample.  [{| a: number }] is accepted; it has the leading
    [|] only, and its [isExact] is true. *)
Lemma C6_counterexample_half_exact :
  TYPE_TERM tokens_half_exact =
    Success (ObjectType true [] [prop_a_number]) []
            (Some (UnexpectedToken 5)) /\
  leadingBar tokens_half_exact = true /\
  trailingBar tokens_half_exact = false /\
  ~ exactIffBothBars tokens_half_exact.
Proof.
  assert (H : TYPE_TERM tokens_half_exact =
                Success (ObjectType true [] [prop_a_number]) []
                        (Some (UnexpectedToken 5)))
    by (vm_compute; reflexivity).
  split; [exact H|]. split; [reflexivity|]. split; [reflexivity|].
  intros Hclaim. destruct (Hclaim _ _ _ _ H) as [Hboth _].
  destruct (Hboth eq_refl) as [_ Htrail]. discriminate.
Qed.

(** C6, amended.  For every object type literal accepted by [TYPE_TERM],
    [isExact] is true exactly when the [|] after the opening brace is
    present; [{| a: number |}] gives [isExact: true] and [{ a: number }]
    gives [isExact: false], both with the one member [a: number], not
    readonly and not optional, and no mixin. *)
Theorem C6_exact_iff_leading_bar :
  (forall ts isExact mixinTypes members rest e,
      TYPE_TERM ts = Success (ObjectType isExact mixinTypes members) rest e ->
      startsWith "{" ts = true /\
      (isExact = true <-> leadingBar ts = true)) /\
  TYPE_TERM tokens_exact =
    Success (ObjectType true [] [prop_a_number]) []
            (Some (UnexpectedToken 6)) /\
  TYPE_TERM tokens_inexact =
    Success (ObjectType false [] [prop_a_number]) []
            (Some (UnexpectedToken 4)).
Proof.
  split; [|split; vm_compute; reflexivity].
  intros ts isExact mixinTypes members rest e H.
  apply TYPE_TERM_object in H. destruct H as [Hopen ->].
  split; [exact Hopen | reflexivity].
Qed.

Lemma C6_exact_iff_leading_bar_witness :
  TYPE_TERM tokens_half_exact =
    Success (ObjectType true [] [prop_a_number]) []
            (Some (UnexpectedToken 5)) /\
  startsWith "{" tokens_half_exact = true /\
  (true = true <-> leadingBar tokens_half_exact = true).
Proof.
  split.
  - vm_compute; reflexivity.
  - apply (proj1 C6_exact_iff_leading_bar tokens_half_exact true []
             [prop_a_number] [] (Some (UnexpectedToken 5))).
    vm_compute; reflexivity.
Defined.

(* ------------------------------------------------------------------ *)
(** ** Declarations, statements and programs *)

Lemma advances_seq_second {A B : Type} (p : Parser A) (q : Parser B) :
  advances 0 p -> advances 1 q -> advances 1 (seq p q).
Proof. intros Hp Hq. exact (advances_seq Hp Hq). Qed.

Lemma advances_DECL : advances 1 DECL.
Proof.
  pose proof advances_TYPE as HT. apply advances0_of1 in HT.
  unfold DECL. apply advances_apply, advances_seq_second; advance.
Qed.

Lemma advances_STAT : advances 1 STAT.
Proof.
  unfold STAT. apply advances_alt.
  repeat apply Forall_cons; try apply Forall_nil;
    try apply advances_DECL; advance.
Qed.

Lemma yields_DECL : yields anything DECL.
Proof.
  pose proof yields_anything_TYPE as HT.
  unfold DECL. eapply yields_apply; [yield|]. intros; exact Logic.I.
Qed.

Lemma yields_STAT : yields anything STAT.
Proof.
  unfold STAT. apply yields_alt.
  repeat apply Forall_cons; try apply Forall_nil;
    try apply yields_DECL;
    (eapply yields_apply; [yield | intros; exact Logic.I]).
Qed.

(** [DECL] sets [hasExport] from the optional [export] in front. *)
Lemma DECL_hasExport (ts : list Token) (s : Statement) (rest : list Token)
    (e : option ParseError) :
  DECL ts = Success s rest e ->
  exists name aliasedType,
    s = TypeAliasDecl (startsWith "export" ts) name aliasedType.
Proof.
  intros H. apply apply_success in H. destruct H as [v [H ->]].
  apply seq_success in H. destruct H as [rest1 [e1 [e2 [Hexport _]]]].
  apply opt_sc_str_defined in Hexport.
  destruct v as [hasExport [k [name [eq [aliasedType semi]]]]].
  simpl in *. rewrite Hexport. eexists. eexists. reflexivity.
Qed.

(** C7.  [export type A = number;] parses to the program with the single
    statement [TypeAliasDecl{hasExport: true, name: "A", aliasedType:
    PrimitiveType number}]; without [export] the same declaration has
    [hasExport: false]; in every declaration [DECL] accepts, [hasExport]
    is true exactly when the stream starts with [export]. *)
Theorem C7_export_alias :
  PROGRAM tokens_export_alias =
    Success
      (mkFlowProgram [TypeAliasDecl true "A" (PrimitiveType "number")])
      [] (Some UnexpectedEndOfInput) /\
  parseProgram tokens_export_alias =
    Normal (inl
      (mkFlowProgram [TypeAliasDecl true "A" (PrimitiveType "number")])) /\
  parseProgram tokens_alias =
    Normal (inl
      (mkFlowProgram [TypeAliasDecl false "A" (PrimitiveType "number")])) /\
  (forall ts hasExport name aliasedType rest e,
      DECL ts = Success (TypeAliasDecl hasExport name aliasedType) rest e ->
      (hasExport = true <-> startsWith "export" ts = true)).
Proof.
  split; [vm_compute; reflexivity|].
  split; [vm_compute; reflexivity|].
  split; [vm_compute; reflexivity|].
  intros ts hasExport name aliasedType rest e H.
  apply DECL_hasExport in H. destruct H as [n [t H]].
  inversion H; subst. reflexivity.
Qed.

Lemma C7_export_alias_witness :
  DECL tokens_export_alias =
    Success (TypeAliasDecl true "A" (PrimitiveType "number")) []
            (Some (UnexpectedToken 5)) /\
  (true = true <-> startsWith "export" tokens_export_alias = true).
Proof.
  split.
  - vm_compute; reflexivity.
  - apply (proj2 (proj2 (proj2 C7_export_alias)) tokens_export_alias true
             "A" (PrimitiveType "number") [] (Some (UnexpectedToken 5))).
    vm_compute; reflexivity.
Defined.

(** The program rule always succeeds. *)
Lemma PROGRAM_spec (ts : list Token) :
  exists stats rest e,
    PROGRAM ts = Success (mkFlowProgram stats) rest e /\
    Repeats STAT ts stats rest /\
    exists e', STAT rest = Failure e'.
Proof.
  destruct (rep_sc_spec yields_STAT ts) as [stats [rest [e [H [Hr Hh]]]]].
  exists stats, rest, e. split; [|split].
  - unfold PROGRAM, apply. rewrite H. reflexivity.
  - exact Hr.
  - apply halts_failure; [apply advances_STAT | exact Hh].
Qed.

(** C9.  [PROGRAM] succeeds on every token stream: its statements are the
    successive matches of [STAT] from the start, in order, and it stops
    at the first position where [STAT] fails, leaving the rest
    unconsumed.  On the empty stream, and on any stream where [STAT]
    fails at once, the program has no statements. *)
Theorem C9_program_always_succeeds :
  (forall ts,
      exists stats rest e,
        PROGRAM ts = Success (mkFlowProgram stats) rest e /\
        Repeats STAT ts stats rest /\
        exists e', STAT rest = Failure e') /\
  PROGRAM [] = Success (mkFlowProgram []) [] (Some UnexpectedEndOfInput) /\
  (forall ts e,
      STAT ts = Failure e ->
      PROGRAM ts = Success (mkFlowProgram []) ts (Some e)).
Proof.
  split; [exact PROGRAM_spec|]. split; [reflexivity|].
  intros ts e H. unfold PROGRAM, apply.
  rewrite (rep_sc_failure _ _ H). reflexivity.
Qed.

Lemma C9_program_always_succeeds_witness :
  STAT tokens_missing_type = Failure (UnexpectedToken 3) /\
  PROGRAM tokens_missing_type =
    Success (mkFlowProgram []) tokens_missing_type
            (Some (UnexpectedToken 3)).
Proof.
  split.
  - vm_compute; reflexivity.
  - apply (proj2 (proj2 C9_program_always_succeeds)).
    vm_compute; reflexivity.
Defined.

(* ------------------------------------------------------------------ *)
(** ** The contextual keyword [type] *)

Lemma IDENTIFIER_type (t : Token) (rest : list Token) :
  kind t = KEYWORD_type -> IDENTIFIER (t :: rest) = Success t rest None.
Proof.
  intros H. unfold IDENTIFIER, alt. simpl. rewrite H. reflexivity.
Qed.

Lemma tok_Identifier_type (t : Token) (rest : list Token) :
  kind t = KEYWORD_type ->
  tok Identifier (t :: rest) = Failure (UnexpectedToken (pos t)).
Proof. intros H. simpl. rewrite H. reflexivity. Qed.

Ltac known_text :=
  repeat match goal with
  | t : Token |- _ => destruct t as [? ? ?]
  end;
  simpl in *; subst.

Ltac run_STAT :=
  unfold isFailure, STAT, DECL, alt, apply, seq, opt_sc, list_sc, kright,
    rep_sc, apply, seq, str, tok;
  simpl; eexists; reflexivity.

Lemma STAT_require_type (c t : Token) (rest : list Token) :
  text c = "const" -> kind t = KEYWORD_type ->
  isFailure (STAT (c :: t :: rest)).
Proof. intros Hc Ht. known_text. run_STAT. Qed.

Lemma STAT_import_as_type (i s a t : Token) (rest : list Token) :
  text i = "import" -> text s = "*" -> text a = "as" ->
  kind t = KEYWORD_type ->
  isFailure (STAT (i :: s :: a :: t :: rest)).
Proof. intros Hi Hs Ha Ht. known_text. run_STAT. Qed.

Lemma STAT_import_type (i b t : Token) (rest : list Token) :
  text i = "import" -> text b = "{" -> kind t = KEYWORD_type ->
  isFailure (STAT (i :: b :: t :: rest)).
Proof. intros Hi Hb Ht. known_text. run_STAT. Qed.

Lemma STAT_import_type_type (i m b t : Token) (rest : list Token) :
  text i = "import" -> text m = "type" -> text b = "{" ->
  kind t = KEYWORD_type ->
  isFailure (STAT (i :: m :: b :: t :: rest)).
Proof. intros Hi Hm Hb Ht. known_text. run_STAT. Qed.

Lemma STAT_import_next_type (i b n c t : Token) (rest : list Token) :
  text i = "import" -> text b = "{" -> kind n = Identifier ->
  text c = "," -> kind t = KEYWORD_type ->
  isFailure (STAT (i :: b :: n :: c :: t :: rest)).
Proof. intros Hi Hb Hn Hc Ht. known_text. run_STAT. Qed.

(* ------------------------------------------------------------------ *)
(** ** The reducers on their own *)

(** X1.  [applyOptionalType] always returns an [OptionalType], returns an
    optional operand unchanged, and applying it twice is the same as
    applying it once. *)
Theorem X1_applyOptionalType_idempotent :
  forall (q q' : Token) (t : Type_),
    isOptional (applyOptionalType (q, t)) = true /\
    (isOptional t = true -> applyOptionalType (q, t) = t) /\
    (isOptional t = false -> applyOptionalType (q, t) = OptionalType t) /\
    applyOptionalType (q', applyOptionalType (q, t)) =
      applyOptionalType (q, t).
Proof.
  intros q q' t.
  destruct t; simpl; repeat split; intros; try reflexivity; discriminate.
Qed.

Lemma X1_applyOptionalType_idempotent_witness :
  isOptional (PrimitiveType "number") = false /\
  applyOptionalType (questionToken, PrimitiveType "number") =
    OptionalType (PrimitiveType "number").
Proof.
  split; [reflexivity|].
  apply (proj1 (proj2 (proj2 (X1_applyOptionalType_idempotent
           questionToken questionToken (PrimitiveType "number"))))).
  reflexivity.
Defined.

Lemma entity_fold_segments (names : list Token) :
  forall e,
    exists e',
      fold_left entityStep names (Some e) = Some e' /\
      segments e' = (segments e ++ map text names)%list /\
      entityDepth e' = entityDepth e + length names.
Proof.
  induction names as [|n names IH]; intros e; simpl.
  - exists e. rewrite app_nil_r. repeat split; lia.
  - destruct (IH (Qualified e (text n))) as [e' [He [Hs Hd]]].
    exists e'. split; [exact He|]. split.
    + rewrite Hs. simpl. rewrite <- app_assoc. reflexivity.
    + rewrite Hd. simpl. lia.
Qed.

(** X2.  [applyTypeReference] builds the entity name from the name tokens
    left to right: the segments of the name it returns are the texts of
    the tokens in order, the last token is the outermost [name], and the
    nesting depth is one less than the number of tokens.  With no type
    argument group the argument list is empty, otherwise it is the parsed
    list.  On an empty token list the name stays [undefined]. *)
Theorem X2_applyTypeReference_segments :
  (forall (first : Token) (more : list Token) typeArguments,
      exists e,
        applyTypeReference (first :: more, typeArguments) =
          TypeReference (Some e)
            (match typeArguments with
             | None => []
             | Some args => fst (snd args)
             end) /\
        segments e = map text (first :: more) /\
        S (entityDepth e) = length (first :: more)) /\
  (forall (names : list Token) (last : Token) typeArguments e args,
      applyTypeReference (names, typeArguments) = TypeReference (Some e) args ->
      applyTypeReference ((names ++ [last])%list, typeArguments) =
        TypeReference (Some (Qualified e (text last))) args) /\
  (forall typeArguments,
      exists args,
        applyTypeReference ([], typeArguments) = TypeReference None args).
Proof.
  split; [|split].
  - intros first more typeArguments. unfold applyTypeReference. simpl.
    destruct (entity_fold_segments more (Name (text first)))
      as [e [He [Hs Hd]]].
    exists e. rewrite He. split; [destruct typeArguments; reflexivity|].
    split; [exact Hs | simpl in Hd; simpl; lia].
  - intros names last typeArguments e args H.
    unfold applyTypeReference in *. rewrite fold_left_app. simpl.
    destruct typeArguments; inversion H as [[H1 H2]]; rewrite H1;
      reflexivity.
  - intros typeArguments. unfold applyTypeReference. simpl.
    destruct typeArguments; eexists; reflexivity.
Qed.

Lemma X2_applyTypeReference_segments_witness :
  applyTypeReference ([nameToken "a"], None) =
    TypeReference (Some (Name "a")) [] /\
  applyTypeReference ([nameToken "a"; nameToken "b"], None) =
    TypeReference (Some (Qualified (Name "a") "b")) [].
Proof.
  split; [reflexivity|].
  apply (proj1 (proj2 X2_applyTypeReference_segments)
           [nameToken "a"] (nameToken "b") None (Name "a") []).
  reflexivity.
Defined.

Lemma asTypes_filter (ms : list (Type_ + ObjectMember)) :
  asTypes (filter (fun m => negb (isMember m)) ms) = asTypes ms.
Proof.
  induction ms as [|[t|[ | ]] ms IH]; simpl; try rewrite IH; reflexivity.
Qed.

Lemma asMembers_filter (ms : list (Type_ + ObjectMember)) :
  asMembers (filter isMember ms) = asMembers ms.
Proof.
  induction ms as [|[t|[ | ]] ms IH]; simpl; try rewrite IH; reflexivity.
Qed.

Lemma asTypes_asMembers_length (ms : list (Type_ + ObjectMember)) :
  length (asTypes ms) + length (asMembers ms) = length ms.
Proof.
  induction ms as [|[t|o] ms IH]; simpl; try lia.
Qed.

(** X3.  [applyObjectType] sorts the entries of the member list into
    [mixinTypes] and [members]: every entry lands in exactly one of the
    two lists, each list keeps the order of the entries, a spread entry is
    a mixin and a property or indexer entry is a member; an absent member
    list gives two empty lists. *)
Theorem X3_applyObjectType_partition :
  (forall open isExact ms tail,
      exists mixinTypes members,
        applyObjectType (open, (isExact, (Some ms, tail))) =
          ObjectType (isDefined isExact) mixinTypes members /\
        mixinTypes = asTypes ms /\
        members = asMembers ms /\
        length mixinTypes + length members = length ms) /\
  (forall ms ms',
      asTypes (ms ++ ms') = (asTypes ms ++ asTypes ms')%list /\
      asMembers (ms ++ ms') = (asMembers ms ++ asMembers ms')%list) /\
  (forall t, asTypes [inl t] = [t] /\ asMembers [inl t] = []) /\
  (forall o, asTypes [inr o] = [] /\ asMembers [inr o] = [o]) /\
  (forall open isExact tail,
      applyObjectType (open, (isExact, (None, tail))) =
        ObjectType (isDefined isExact) [] []).
Proof.
  split; [|split; [|split; [|split]]].
  - intros open isExact ms tail. unfold applyObjectType.
    rewrite asTypes_filter, asMembers_filter.
    eexists. eexists. split; [reflexivity|].
    split; [reflexivity|]. split; [reflexivity|].
    apply asTypes_asMembers_length.
  - intros ms ms'. unfold asTypes, asMembers.
    rewrite !flat_map_app. split; reflexivity.
  - intros t. split; reflexivity.
  - intros o. split; reflexivity.
  - reflexivity.
Qed.

(** X4.  [applyTypeLrec] throws exactly when its second operand is
    neither an [ArrayType] nor a [UnionType].  For an array operand it
    returns that node with the first operand as its element, whatever the
    node held before and with its own [isReadonly]; for a union operand it
    appends the operand's elements to a first operand that is a union, and
    puts any other first operand in front of them. *)
Theorem X4_applyTypeLrec_cases :
  (forall first second,
      (exists m, applyTypeLrec first second = Throw m) <->
      (isUnion second = false /\
       forall ro e, second <> ArrayType ro e)) /\
  (forall first ro e,
      applyTypeLrec first (ArrayType ro e) =
        Normal (ArrayType ro (Some first))) /\
  (forall els els',
      applyTypeLrec (UnionType els) (UnionType els') =
        Normal (UnionType (els ++ els'))) /\
  (forall first els,
      isUnion first = false ->
      applyTypeLrec first (UnionType els) =
        Normal (UnionType (first :: els))).
Proof.
  split; [|split; [|split]].
  - intros first second. split.
    + intros [m H]. destruct second; simpl in H;
        try (split; [reflexivity | intros ro e' Heq; discriminate Heq]).
      * discriminate H.
      * destruct first; discriminate H.
    + intros [Hu Ha]. destruct second; simpl;
        try (eexists; reflexivity).
      * exfalso. eapply Ha. reflexivity.
      * discriminate Hu.
  - reflexivity.
  - reflexivity.
  - intros first els H. destruct first; try reflexivity. discriminate.
Qed.

Lemma X4_applyTypeLrec_cases_witness :
  isUnion (ref "A") = false /\
  applyTypeLrec (ref "A") (UnionType [ref "B"]) =
    Normal (UnionType [ref "A"; ref "B"]).
Proof.
  split; [reflexivity|].
  apply (proj2 (proj2 (proj2 X4_applyTypeLrec_cases))). reflexivity.
Defined.














(* ------------------------------------------------------------------ *)
(** ** Repetitions, read forwards *)

Lemma Repeats_functional {A : Type} (p : Parser A) (ts : list Token)
    (rs : list A) (rest : list Token) :
  Repeats p ts rs rest -> halts p rest ->
  forall rs' rest', Repeats p ts rs' rest' -> halts p rest' ->
    rs = rs' /\ rest = rest'.
Proof.
  intros H. induction H as [ts|ts r rest1 e rs rest Hp Hlt Hrep IH];
    intros Hhalt rs' rest' H' Hhalt'.
  - inversion H' as [|ts0 r' rest1' e' rs0 rest0 Hp' Hlt' Hrep']; subst.
    + split; reflexivity.
    + exfalso. unfold halts in Hhalt. rewrite Hp' in Hhalt. lia.
  - inversion H' as [|ts0 r' rest1' e' rs0 rest0 Hp' Hlt' Hrep']; subst.
    + exfalso. unfold halts in Hhalt'. rewrite Hp in Hhalt'. lia.
    + rewrite Hp in Hp'. inversion Hp'; subst.
      destruct (IH Hhalt rs0 rest' Hrep' Hhalt') as [-> ->].
      split; reflexivity.
Qed.

(** A chain of matches that ends where [p] halts is what [rep_sc]
    returns. *)
Lemma rep_sc_complete {A : Type} (p : Parser A) (ts : list Token)
    (rs : list A) (rest : list Token) :
  yields anything p -> Repeats p ts rs rest -> halts p rest ->
  exists e, rep_sc p ts = Success rs rest e.
Proof.
  intros Hp Hrep Hhalt.
  destruct (@rep_sc_spec _ p Hp ts) as [rs' [rest' [e [Heq [Hrep' Hhalt']]]]].
  destruct (@Repeats_functional _ p ts rs rest Hrep Hhalt rs' rest'
              Hrep' Hhalt') as [-> ->].
  exists e. exact Heq.
Qed.

Lemma halts_of_failure {A : Type} (p : Parser A) (ts : list Token) :
  isFailure (p ts) -> halts p ts.
Proof. intros [e H]. unfold halts. rewrite H. exact Logic.I. Qed.

(* ------------------------------------------------------------------ *)
(** ** The rest is a suffix of the input *)

Lemma suffixing_str (s : string) : suffixing (str s).
Proof.
  intros [|t ts]; simpl; auto.
  destruct (String.eqb (text t) s); simpl; auto.
  exists [t]. reflexivity.
Qed.

Lemma suffixing_tok (k : TokenKind) : suffixing (tok k).
Proof.
  intros [|t ts]; simpl; auto.
  destruct (TokenKind_eqb (kind t) k); simpl; auto.
  exists [t]. reflexivity.
Qed.

Lemma suffixing_apply {A B : Type} (p : Parser A) (f : A -> B) :
  suffixing p -> suffixing (apply p f).
Proof.
  intros H ts. specialize (H ts). unfold apply, leaves in *.
  destruct (p ts); auto.
Qed.

Lemma suffixing_seq {A B : Type} (p : Parser A) (q : Parser B) :
  suffixing p -> suffixing q -> suffixing (seq p q).
Proof.
  intros Hp Hq ts. specialize (Hp ts). unfold seq, leaves in *.
  destruct (p ts) as [a rest1 e1| |]; auto.
  specialize (Hq rest1). unfold leaves in Hq.
  destruct (q rest1) as [b rest2 e2| |]; auto.
  destruct Hp as [c1 ->]. destruct Hq as [c2 ->].
  exists (c1 ++ c2)%list. rewrite app_assoc. reflexivity.
Qed.

Lemma suffixing_alt_from {A : Type} (ps : list (Parser A)) :
  Forall suffixing ps -> forall err, suffixing (alt_from err ps).
Proof.
  induction 1 as [|p ps Hp Hps IH]; intros err ts; simpl; auto.
  specialize (Hp ts). unfold leaves in *.
  destruct (p ts); auto. apply IH.
Qed.

Lemma suffixing_alt {A : Type} (ps : list (Parser A)) :
  Forall suffixing ps -> suffixing (alt ps).
Proof. intros H. apply suffixing_alt_from; assumption. Qed.

Lemma suffixing_opt_sc {A : Type} (p : Parser A) :
  suffixing p -> suffixing (opt_sc p).
Proof.
  intros H ts. specialize (H ts). unfold opt_sc, leaves in *.
  destruct (p ts); auto. exists []. reflexivity.
Qed.

Lemma leaves_rep_loop {A : Type} (p : Parser A) :
  suffixing p ->
  forall rounds acc err ts, leaves ts (rep_loop p rounds acc err ts).
Proof.
  intros Hp. induction rounds as [|rounds IH]; intros acc err ts; simpl.
  - exists []. reflexivity.
  - specialize (Hp ts). unfold leaves in Hp.
    destruct (p ts) as [r rest e| |]; simpl; auto;
      try (exists []; reflexivity).
    destruct (Nat.ltb (length rest) (length ts)); simpl;
      try (exists []; reflexivity).
    specialize (IH (r :: acc) (betterError err e) rest).
    unfold leaves in *.
    destruct (rep_loop p rounds (r :: acc) (betterError err e) rest); auto.
    destruct Hp as [c1 ->]. destruct IH as [c2 ->].
    exists (c1 ++ c2)%list. rewrite app_assoc. reflexivity.
Qed.

Lemma suffixing_rep_sc {A : Type} (p : Parser A) :
  suffixing p -> suffixing (rep_sc p).
Proof. intros H ts. apply leaves_rep_loop; assumption. Qed.

Lemma suffixing_list_sc {A S : Type} (p : Parser A) (s : Parser S) :
  suffixing p -> suffixing s -> suffixing (list_sc p s).
Proof.
  intros Hp Hs. apply suffixing_apply, suffixing_seq; [assumption|].
  apply suffixing_rep_sc, suffixing_apply, suffixing_seq; assumption.
Qed.

Lemma suffixing_lrec_sc {A B : Type} (p : Parser A) (q : Parser B)
    (callback : A -> B -> Completion A) :
  suffixing p -> suffixing q -> suffixing (lrec_sc p q callback).
Proof.
  intros Hp Hq ts. unfold lrec_sc.
  pose proof (@suffixing_seq _ _ p (rep_sc q) Hp
                (@suffixing_rep_sc _ q Hq) ts) as H.
  unfold leaves in *.
  destruct (seq p (rep_sc q) ts) as [v rest e| |]; auto.
  destruct (applyLrec callback (fst v) (snd v)); auto.
Qed.

Lemma suffixing_IDENTIFIER : suffixing IDENTIFIER.
Proof. apply suffixing_alt. repeat constructor; apply suffixing_tok. Qed.

Ltac suffix :=
  repeat first
    [ assumption
    | apply suffixing_str
    | apply suffixing_tok
    | apply suffixing_IDENTIFIER
    | apply suffixing_list_sc
    | apply suffixing_lrec_sc
    | apply suffixing_rep_sc
    | apply suffixing_apply
    | apply suffixing_opt_sc
    | apply suffixing_seq
    | apply suffixing_alt
    | apply Forall_cons
    | apply Forall_nil ].

Lemma suffixing_TYPE_rec (depth : nat) : suffixing (TYPE_rec depth).
Proof.
  induction depth as [|depth IH].
  - intros ts. exact Logic.I.
  - simpl. unfold TYPE_pattern, TYPE_ARRAY_pattern, TYPE_TERM_pattern.
    suffix.
Qed.

Lemma suffixing_TYPE : suffixing TYPE.
Proof. intros ts. unfold TYPE. apply suffixing_TYPE_rec. Qed.

Lemma suffixing_TYPE_TERM : suffixing TYPE_TERM.
Proof.
  pose proof suffixing_TYPE as H.
  unfold TYPE_TERM, TYPE_TERM_pattern. suffix.
Qed.

Lemma suffixing_TYPE_ARRAY : suffixing TYPE_ARRAY.
Proof.
  pose proof suffixing_TYPE_TERM as H.
  unfold TYPE_ARRAY, TYPE_ARRAY_pattern. suffix.
Qed.

Lemma suffixing_DECL : suffixing DECL.
Proof. pose proof suffixing_TYPE as H. unfold DECL. suffix. Qed.

Lemma suffixing_STAT : suffixing STAT.
Proof. pose proof suffixing_DECL as H. unfold STAT. suffix. Qed.

Lemma suffixing_PROGRAM : suffixing PROGRAM.
Proof. pose proof suffixing_STAT as H. unfold PROGRAM. suffix. Qed.

(** A suffix left by a parser that advances is a proper one. *)
Lemma proper_suffix {A : Type} (p : Parser A) (ts : list Token) (r : A)
    (rest : list Token) (e : option ParseError) :
  suffixing p -> advances 1 p -> p ts = Success r rest e ->
  exists consumed, ts = (consumed ++ rest)%list /\ consumed <> [].
Proof.
  intros Hs Ha H. specialize (Hs ts). specialize (Ha ts).
  rewrite H in Hs, Ha. simpl in Hs, Ha.
  destruct Hs as [c ->]. exists c. split; [reflexivity|].
  intros ->. simpl in Ha. lia.
Qed.

Lemma empty_fails {A : Type} (p : Parser A) :
  advances 1 p -> yields anything p -> isFailure (p []).
Proof.
  intros Ha Hy. specialize (Ha []). specialize (Hy []).
  unfold shrinks, produces in *.
  destruct (p []) as [r rest e|e|m].
  - simpl in Ha. lia.
  - exists e. reflexivity.
  - contradiction.
Qed.

(* ------------------------------------------------------------------ *)
(** ** Array suffixes in general *)

Lemma nestArrays_shift (n : nat) (t : Type_) :
  nestArrays n (ArrayType false (Some t)) =
    ArrayType false (Some (nestArrays n t)).
Proof. induction n as [|n IH]; simpl; [|rewrite IH]; reflexivity. Qed.

Lemma applyLrec_arrays (n : nat) :
  forall t,
    applyLrec applyTypeLrec t (repeat (ArrayType false None) n) =
      Normal (nestArrays n t).
Proof.
  induction n as [|n IH]; intros t; simpl; [reflexivity|].
  rewrite IH. rewrite nestArrays_shift. reflexivity.
Qed.

Lemma Repeats_brackets (rest : list Token) :
  forall pairs,
    Forall (fun p => text (fst p) = "[" /\ text (snd p) = "]") pairs ->
    Repeats arraySuffix (joined pairs ++ rest)
      (repeat (ArrayType false None) (length pairs)) rest.
Proof.
  induction pairs as [|[o c] pairs IH]; intros H; simpl.
  - constructor.
  - destruct (Forall_inv H) as [Ho Hc].
    pose proof (Forall_inv_tail H) as Hps. simpl in Ho, Hc.
    apply Repeats_step with (rest := (joined pairs ++ rest)%list)
                            (e := None).
    + unfold arraySuffix, apply, seq, str. simpl. rewrite Ho. simpl.
      rewrite Hc. reflexivity.
    + simpl. lia.
    + apply IH. exact Hps.
Qed.

(** X6.  A term followed by any number of [[] []] pairs (and then by no
    further pair) parses, as [TYPE_ARRAY], to the term wrapped in as many
    non-readonly array nodes, the last pair outermost, and leaves what
    follows the pairs. *)
Theorem X6_array_suffixes_nest :
  forall (ts : list Token) (t : Type_) (pairs : list (Token * Token))
         (rest : list Token) (e : option ParseError),
    Forall (fun p => text (fst p) = "[" /\ text (snd p) = "]") pairs ->
    TYPE_TERM ts = Success t (joined pairs ++ rest) e ->
    isFailure (arraySuffix rest) ->
    exists e',
      TYPE_ARRAY ts = Success (nestArrays (length pairs) t) rest e'.
Proof.
  intros ts t pairs rest e Hpairs Hterm Hstop.
  destruct (@rep_sc_complete _ arraySuffix (joined pairs ++ rest)
              (repeat (ArrayType false None) (length pairs)) rest
              yields_arraySuffix (@Repeats_brackets rest pairs Hpairs)
              (@halts_of_failure _ arraySuffix rest Hstop)) as [e' Hrep].
  unfold TYPE_ARRAY, TYPE_ARRAY_pattern.
  change (apply (seq (str "[") (str "]")) applyArrayTypeLrec)
    with arraySuffix.
  unfold lrec_sc, seq.
  rewrite Hterm. cbv beta iota. rewrite Hrep. cbv beta iota.
  simpl fst. simpl snd.
  rewrite applyLrec_arrays. eexists. reflexivity.
Qed.

Lemma X6_array_suffixes_nest_witness :
  exists e',
    TYPE_ARRAY tokens_Tarrarr =
      Success (ArrayType false (Some (ArrayType false (Some (ref "T")))))
              [] e'.
Proof.
  apply (@X6_array_suffixes_nest tokens_Tarrarr (ref "T")
           [(mkToken Punctuation "[" 1, mkToken Punctuation "]" 2);
            (mkToken Punctuation "[" 3, mkToken Punctuation "]" 4)]
           [] (Some (UnexpectedToken 1))).
  - repeat constructor.
  - vm_compute; reflexivity.
  - eexists. vm_compute; reflexivity.
Defined.

(* ------------------------------------------------------------------ *)
(** ** What the rules never do *)

Lemma never_thrown {A : Type} (p : Parser A) :
  yields anything p -> forall ts m, p ts <> Thrown m.
Proof.
  intros H ts m Heq. specialize (H ts). rewrite Heq in H. exact H.
Qed.

(** X7.  No rule of the grammar ever raises the exception of
    [applyTypeLrec]: on every token stream each of [TYPE_TERM],
    [TYPE_ARRAY], [TYPE], [DECL], [STAT] and [PROGRAM] either succeeds or
    fails. *)
Theorem X7_rules_never_throw :
  forall (ts : list Token) (m : string),
    TYPE_TERM ts <> Thrown m /\
    TYPE_ARRAY ts <> Thrown m /\
    TYPE ts <> Thrown m /\
    DECL ts <> Thrown m /\
    STAT ts <> Thrown m /\
    PROGRAM ts <> Thrown m.
Proof.
  intros ts m.
  split; [apply never_thrown, yields_anything_TYPE_TERM|].
  split; [apply never_thrown, yields_anything_TYPE_ARRAY|].
  split; [apply never_thrown, yields_anything_TYPE|].
  split; [apply never_thrown, yields_DECL|].
  split; [apply never_thrown, yields_STAT|].
  destruct (PROGRAM_spec ts) as [stats [rest [e [H _]]]].
  rewrite H. discriminate.
Qed.

Lemma X7_rules_never_throw_witness :
  STAT tokens_missing_type <> Thrown "Unrecognized type AST.".
Proof.
  exact (proj1 (proj2 (proj2 (proj2 (proj2
           (X7_rules_never_throw tokens_missing_type
              "Unrecognized type AST.")))))).
Defined.

(** X8.  What a rule leaves is a suffix of what it was given.  A type, a
    declaration or a statement consumes at least one token, so none of
    these rules matches on the empty stream; [PROGRAM] may consume
    nothing. *)
Theorem X8_rest_is_suffix :
  (forall ts t rest e,
      TYPE ts = Success t rest e ->
      exists consumed, ts = (consumed ++ rest)%list /\ consumed <> []) /\
  (forall ts s rest e,
      DECL ts = Success s rest e ->
      exists consumed, ts = (consumed ++ rest)%list /\ consumed <> []) /\
  (forall ts s rest e,
      STAT ts = Success s rest e ->
      exists consumed, ts = (consumed ++ rest)%list /\ consumed <> []) /\
  (forall ts program rest e,
      PROGRAM ts = Success program rest e ->
      exists consumed, ts = (consumed ++ rest)%list) /\
  isFailure (TYPE []) /\ isFailure (DECL []) /\ isFailure (STAT []).
Proof.
  split; [|split; [|split; [|split; [|split; [|split]]]]].
  - intros ts t rest e H.
    exact (@proper_suffix _ TYPE ts t rest e suffixing_TYPE advances_TYPE H).
  - intros ts s rest e H.
    exact (@proper_suffix _ DECL ts s rest e suffixing_DECL advances_DECL H).
  - intros ts s rest e H.
    exact (@proper_suffix _ STAT ts s rest e suffixing_STAT advances_STAT H).
  - intros ts program rest e H.
    pose proof (suffixing_PROGRAM ts) as Hs. rewrite H in Hs. exact Hs.
  - apply empty_fails; [apply advances_TYPE | apply yields_anything_TYPE].
  - apply empty_fails; [apply advances_DECL | apply yields_DECL].
  - apply empty_fails; [apply advances_STAT | apply yields_STAT].
Qed.

Lemma X8_rest_is_suffix_witness :
  exists consumed,
    tokens_A_Barr = (consumed ++ [])%list /\ consumed <> [].
Proof.
  apply (proj1 X8_rest_is_suffix tokens_A_Barr
           (UnionType [ref "A"; ArrayType false (Some (ref "B"))]) []
           (Some UnexpectedEndOfInput)).
  vm_compute; reflexivity.
Defined.

(* ------------------------------------------------------------------ *)
(** ** Statements end with a semicolon *)

Lemma endsWith_str (s : string) : endsWith s (str s).
Proof.
  intros [|t ts]; simpl; auto.
  destruct (String.eqb (text t) s) eqn:Heq; simpl; auto.
  exists [], t. split; [reflexivity | apply String.eqb_eq; exact Heq].
Qed.

Lemma endsWith_apply {A B : Type} (s : string) (p : Parser A)
    (f : A -> B) :
  endsWith s p -> endsWith s (apply p f).
Proof.
  intros H ts. specialize (H ts). unfold apply, closes in *.
  destruct (p ts); auto.
Qed.

Lemma endsWith_seq {A B : Type} (s : string) (p : Parser A)
    (q : Parser B) :
  suffixing p -> endsWith s q -> endsWith s (seq p q).
Proof.
  intros Hp Hq ts. specialize (Hp ts). unfold seq, leaves, closes in *.
  destruct (p ts) as [a rest1 e1| |]; auto.
  specialize (Hq rest1). unfold closes in Hq.
  destruct (q rest1) as [b rest2 e2| |]; auto.
  destruct Hp as [c1 ->]. destruct Hq as [c2 [t [-> Ht]]].
  exists (c1 ++ c2)%list, t. rewrite app_assoc. split; [reflexivity|exact Ht].
Qed.

Lemma endsWith_alt_from {A : Type} (s : string) (ps : list (Parser A)) :
  Forall (endsWith s) ps -> forall err, endsWith s (alt_from err ps).
Proof.
  induction 1 as [|p ps Hp Hps IH]; intros err ts; simpl; auto.
  specialize (Hp ts). unfold closes in *.
  destruct (p ts); auto. apply IH.
Qed.

Lemma endsWith_alt {A : Type} (s : string) (ps : list (Parser A)) :
  Forall (endsWith s) ps -> endsWith s (alt ps).
Proof. intros H. apply endsWith_alt_from; assumption. Qed.

Ltac closing :=
  repeat first
    [ assumption
    | apply endsWith_str
    | apply endsWith_apply
    | apply endsWith_seq; [ solve [suffix] | ]
    | apply endsWith_alt
    | apply Forall_cons
    | apply Forall_nil ].

Lemma endsWith_DECL : endsWith ";" DECL.
Proof. pose proof suffixing_TYPE as H. unfold DECL. closing. Qed.

Lemma endsWith_STAT : endsWith ";" STAT.
Proof. pose proof endsWith_DECL as H. unfold STAT. closing. Qed.

(** X9.  The semicolon is not optional: the last token a successful
    declaration or statement has consumed is a [;]. *)
Theorem X9_statement_ends_with_semicolon :
  (forall ts s rest e,
      DECL ts = Success s rest e ->
      exists consumed semi,
        ts = (consumed ++ semi :: rest)%list /\ text semi = ";") /\
  (forall ts s rest e,
      STAT ts = Success s rest e ->
      exists consumed semi,
        ts = (consumed ++ semi :: rest)%list /\ text semi = ";").
Proof.
  split; intros ts s rest e H.
  - pose proof (endsWith_DECL ts) as Hc. rewrite H in Hc. exact Hc.
  - pose proof (endsWith_STAT ts) as Hc. rewrite H in Hc. exact Hc.
Qed.

Lemma X9_statement_ends_with_semicolon_witness :
  exists consumed semi,
    tokens_export_alias = (consumed ++ semi :: [])%list /\ text semi = ";".
Proof.
  apply (proj2 X9_statement_ends_with_semicolon tokens_export_alias
           (TypeAliasDecl true "A" (PrimitiveType "number")) []
           (Some (UnexpectedToken 5))).
  vm_compute; reflexivity.
Defined.

(* ------------------------------------------------------------------ *)
(** ** Programs, statement by statement *)

Lemma PROGRAM_success (ts : list Token) (program : FlowProgram)
    (rest : list Token) (e : option ParseError) :
  PROGRAM ts = Success program rest e ->
  Repeats STAT ts (statements program) rest /\ halts STAT rest.
Proof.
  intros H. apply apply_success in H. destruct H as [stats [H ->]].
  simpl. exact (@rep_sc_halts _ STAT ts stats rest e yields_STAT H).
Qed.

Lemma PROGRAM_of_Repeats (ts : list Token) (stats : list Statement)
    (rest : list Token) :
  Repeats STAT ts stats rest -> halts STAT rest ->
  exists e, PROGRAM ts = Success (mkFlowProgram stats) rest e.
Proof.
  intros Hrep Hhalt.
  destruct (@rep_sc_complete _ STAT ts stats rest yields_STAT Hrep Hhalt)
    as [e H].
  exists e. unfold PROGRAM, apply. rewrite H. reflexivity.
Qed.

(** X10.  A program is its first statement followed by the program of
    what that statement leaves; a program parsed again from its own rest
    has no statement and consumes nothing; and the statements of a
    program, matched one after the other from the start, lead exactly to
    its rest. *)
Theorem X10_program_statement_by_statement :
  (forall ts s rest e program rest' e',
      STAT ts = Success s rest e ->
      PROGRAM rest = Success program rest' e' ->
      exists e'',
        PROGRAM ts =
          Success (mkFlowProgram (s :: statements program)) rest' e'') /\
  (forall ts program rest e,
      PROGRAM ts = Success program rest e ->
      exists e', PROGRAM rest = Success (mkFlowProgram []) rest e') /\
  (forall ts program rest e,
      PROGRAM ts = Success program rest e ->
      Repeats STAT ts (statements program) rest).
Proof.
  split; [|split].
  - intros ts s rest e program rest' e' Hs Hp.
    apply PROGRAM_success in Hp. destruct Hp as [Hrep Hhalt].
    apply PROGRAM_of_Repeats; [|exact Hhalt].
    apply Repeats_step with (rest := rest) (e := e); auto.
    pose proof (advances_STAT ts) as Ha. rewrite Hs in Ha. simpl in Ha. lia.
  - intros ts program rest e Hp.
    apply PROGRAM_success in Hp. destruct Hp as [_ Hhalt].
    apply PROGRAM_of_Repeats; [constructor | exact Hhalt].
  - intros ts program rest e Hp.
    apply PROGRAM_success in Hp. exact (proj1 Hp).
Qed.

Lemma X10_program_statement_by_statement_witness :
  exists e'',
    PROGRAM (tokens_alias ++ tokensFrom 5 [punct ";"])%list =
      Success
        (mkFlowProgram [TypeAliasDecl false "A" (PrimitiveType "number")])
        (tokensFrom 5 [punct ";"]) e''.
Proof.
  apply (proj1 X10_program_statement_by_statement
           (tokens_alias ++ tokensFrom 5 [punct ";"])%list
           (TypeAliasDecl false "A" (PrimitiveType "number"))
           (tokensFrom 5 [punct ";"]) (Some (UnexpectedToken 4))
           (mkFlowProgram []) (tokensFrom 5 [punct ";"])
           (Some (UnexpectedToken 5))).
  - vm_compute; reflexivity.
  - vm_compute; reflexivity.
Defined.

(* ------------------------------------------------------------------ *)
(** ** Terms decided by one token *)

Ltac run_TERM :=
  unfold TYPE_TERM, TYPE_TERM_pattern;
  unfold alt, apply, seq, list_sc, IDENTIFIER, alt, apply, seq, str, tok;
  simpl.

(** X11.  A token whose text is [null], [number], [string] or [boolean],
    and whose kind is neither a literal kind nor a name kind (so that no
    other alternative of [TYPE_TERM] can take it), is the primitive type
    of that name, whatever follows it. *)
Theorem X11_primitive_keywords :
  forall (t : Token) (rest : list Token),
    isPrimitiveText (text t) = true ->
    isLiteralKind (kind t) = false ->
    isNameKind (kind t) = false ->
    exists e, TYPE_TERM (t :: rest) = Success (PrimitiveType (text t)) rest e.
Proof.
  intros [k s p] rest H _ _. simpl in H. unfold isPrimitiveText in H.
  repeat (apply orb_prop in H; destruct H as [H|H]);
    apply String.eqb_eq in H; subst s; run_TERM; eexists; reflexivity.
Qed.

Lemma X11_primitive_keywords_witness :
  exists e,
    TYPE_TERM [mkToken Word "boolean" 0; barToken] =
      Success (PrimitiveType "boolean") [barToken] e.
Proof.
  apply (X11_primitive_keywords (mkToken Word "boolean" 0) [barToken]);
    reflexivity.
Defined.

(** X12.  A string literal, number literal, [true] or [false] token whose
    text is not a primitive keyword is the literal type carrying the
    token's raw text, whatever follows it. *)
Theorem X12_literal_tokens :
  forall (t : Token) (rest : list Token),
    isLiteralKind (kind t) = true ->
    isPrimitiveText (text t) = false ->
    exists e, TYPE_TERM (t :: rest) = Success (LiteralType (text t)) rest e.
Proof.
  intros [k s p] rest Hk Hs. simpl in Hk, Hs. unfold isPrimitiveText in Hs.
  repeat (apply orb_false_elim in Hs; destruct Hs as [Hs ?]).
  run_TERM.
  repeat match goal with
  | H : String.eqb s _ = false |- _ => rewrite H; clear H
  end.
  simpl. destruct k; try discriminate Hk; simpl; eexists; reflexivity.
Qed.

Lemma X12_literal_tokens_witness :
  exists e,
    TYPE_TERM [mkToken StringLiteral "'on'" 0; barToken] =
      Success (LiteralType "'on'") [barToken] e.
Proof.
  apply (X12_literal_tokens (mkToken StringLiteral "'on'" 0) [barToken]);
    reflexivity.
Defined.

(* ------------------------------------------------------------------ *)
(** ** The optional prefix and the leading bar *)

(** X13.  The operand of a [?] is everything [TYPE] reads after it: a
    type that starts with [?] is as a whole an [OptionalType], built by
    [applyOptionalType] from the type of the rest of the stream, and it
    leaves what that type leaves.  So [?A | B] is the optional of the
    union, and [?T[]] the optional of the array. *)
Theorem X13_optional_scopes_over_type :
  forall (q : Token) (ts : list Token) (t : Type_) (rest : list Token)
         (e : option ParseError),
    isQuestion q ->
    TYPE (q :: ts) = Success t rest e ->
    isOptional t = true /\
    exists t' e',
      TYPE ts = Success t' rest e' /\ t = applyOptionalType (q, t').
Proof.
  intros q ts t rest e Hq H.
  pose proof (@TYPE_TERM_question q ts Hq) as H1.
  pose proof (@TYPE_rest ts) as Hrest.
  pose proof (yields_anything_TYPE ts) as Hy.
  destruct (TYPE ts) as [t' rest' e'|e'|m] eqn:HT.
  - destruct H1 as [e1 H1].
    destruct (Hrest t' rest' e' eq_refl) as [Ha Hu].
    destruct (@TYPE_of_term q ts _ _ _ Hq H1 Ha Hu) as [_ [e2 H2]].
    rewrite H2 in H. inversion H; subst. split.
    + destruct t'; reflexivity.
    + exists t', e'. split; reflexivity.
  - destruct H1 as [e1 H1].
    destruct (@TYPE_of_term_failure q ts _ Hq H1) as [e2 H2].
    rewrite H2 in H. discriminate H.
  - contradiction.
Qed.

Lemma X13_optional_scopes_over_type_witness :
  isQuestion questionToken /\
  isOptional
    (OptionalType
       (UnionType [ref "A"; ArrayType false (Some (ref "B"))])) = true.
Proof.
  split; [split; reflexivity|].
  apply (@X13_optional_scopes_over_type questionToken
           (tokensFrom 1 [ident "A"; punct "|"; ident "B"; punct "[";
                          punct "]"])
           _ [] (Some UnexpectedEndOfInput)).
  - split; reflexivity.
  - vm_compute; reflexivity.
Defined.

(** X14.  A [|] in front of a type is consumed and ignored: when the
    stream after it does not itself start with a [|], the type with the
    leading bar and the type without it have the same AST and the same
    rest, or both fail. *)
Theorem X14_leading_bar_ignored :
  forall (b : Token) (ts : list Token),
    text b = "|" ->
    startsWith "|" ts = false ->
    sameParse (TYPE (b :: ts)) (TYPE ts).
Proof.
  intros [k s p] ts Hb Hs. simpl in Hb. subst s.
  rewrite !TYPE_unfold. unfold TYPE_pattern, lrec_sc.
  assert (Hhead :
    forall q : Parser (list Type_),
      sameParse
        (seq (apply (seq (opt_sc (str "|")) TYPE_ARRAY) applyUnionHead) q
           (mkToken k "|" p :: ts))
        (seq (apply (seq (opt_sc (str "|")) TYPE_ARRAY) applyUnionHead) q
           ts)).
  { intros q. unfold seq at 1 3. unfold apply, seq, opt_sc, str.
    cbn [text String.eqb Ascii.eqb Bool.eqb].
    destruct ts as [|t ts'].
    - destruct (TYPE_ARRAY []) as [r rest e|e|m]; simpl; auto.
      destruct (q rest); simpl; auto.
    - simpl in Hs. rewrite Hs.
      destruct (TYPE_ARRAY (t :: ts')) as [r rest e|e|m]; simpl; auto.
      destruct (q rest); simpl; auto. }
  specialize (Hhead
    (rep_sc (apply (seq (str "|") TYPE_ARRAY) applyUnionTypeLrec))).
  unfold sameParse in *.
  destruct (seq _ _ (mkToken k "|" p :: ts)) as [v1 r1 e1|e1|m1];
    destruct (seq _ _ ts) as [v2 r2 e2|e2|m2];
    try contradiction; auto.
  destruct Hhead as [-> ->].
  destruct (applyLrec applyTypeLrec (fst v2) (snd v2)); auto.
Qed.

Lemma X14_leading_bar_ignored_witness :
  sameParse (TYPE (barToken :: tokensFrom 1 [ident "A"; punct "|"; ident "B"]))
            (TYPE (tokensFrom 1 [ident "A"; punct "|"; ident "B"])).
Proof.
  apply (X14_leading_bar_ignored barToken
           (tokensFrom 1 [ident "A"; punct "|"; ident "B"]));
    reflexivity.
Defined.

(* ------------------------------------------------------------------ *)
(** ** Shapes of every result *)

(** X15.  At every depth of an AST returned by [TYPE], no [OptionalType]
    node has an [OptionalType] as its element. *)
Theorem X15_no_nested_optional :
  forall ts t rest e,
    TYPE ts = Success t rest e -> allNodes optionalNode t = true.
Proof.
  intros ts t rest e H.
  pose proof (@good_TYPE optionalNode optionalNode_of_built ts) as Hg.
  rewrite H in Hg. exact Hg.
Qed.

Lemma X15_no_nested_optional_witness :
  allNodes optionalNode
    (ParenType (OptionalType (PrimitiveType "number"))) = true.
Proof.
  apply (@X15_no_nested_optional
           (tokens [punct "("; punct "?"; punct "?"; word "number";
                    punct ")"])
           _ [] (Some UnexpectedEndOfInput)).
  vm_compute; reflexivity.
Defined.

(** X16.  A term and an array-layer type are never a [UnionType]: a union
    can become the operand of a [[]] suffix or of another union only
    inside parentheses, brackets or braces. *)
Theorem X16_term_is_no_union :
  (forall ts t rest e,
      TYPE_TERM ts = Success t rest e -> isUnion t = false) /\
  (forall ts t rest e,
      TYPE_ARRAY ts = Success t rest e -> isUnion t = false).
Proof.
  split; intros ts t rest e H.
  - pose proof (@goodTerm_TYPE_TERM (fun _ => true) (fun _ _ => eq_refl) ts)
      as Hg.
    rewrite H in Hg. exact (proj2 Hg).
  - pose proof (@goodTerm_TYPE_ARRAY (fun _ => true) (fun _ _ => eq_refl) ts)
      as Hg.
    rewrite H in Hg. exact (proj2 Hg).
Qed.

Lemma X16_term_is_no_union_witness :
  isUnion (ParenType (UnionType [ref "A"; ref "B"])) = false.
Proof.
  apply (proj1 X16_term_is_no_union
           (tokens [punct "("; ident "A"; punct "|"; ident "B"; punct ")"])
           _ [] (Some (UnexpectedToken 4))).
  vm_compute; reflexivity.
Defined.

(* ------------------------------------------------------------------ *)
(** ** Wrapping forms *)

Ltac plain_kind k H :=
  destruct k; try discriminate H; simpl.

(** X17.  The wrapping forms of [TYPE_TERM] wrap whatever [TYPE] reads
    inside them: [( T )] is [ParenType] of [T], [$ReadOnlyArray< T >] is
    the readonly [ArrayType] of [T] and [$ReadOnly< T >] is the
    [DecoratedGenericType] named [$ReadOnly] of [T], each leaving what
    follows the closing token.  The opening token is of neither a literal
    kind nor a name kind, so that no other alternative can take it. *)
Theorem X17_wrapping_forms :
  (forall o ts t c rest e,
      text o = "(" ->
      isLiteralKind (kind o) = false -> isNameKind (kind o) = false ->
      TYPE ts = Success t (c :: rest) e -> text c = ")" ->
      exists e', TYPE_TERM (o :: ts) = Success (ParenType t) rest e') /\
  (forall k o ts t c rest e,
      text k = "$ReadOnlyArray" ->
      isLiteralKind (kind k) = false -> isNameKind (kind k) = false ->
      text o = "<" ->
      TYPE ts = Success t (c :: rest) e -> text c = ">" ->
      exists e',
        TYPE_TERM (k :: o :: ts) = Success (ArrayType true (Some t)) rest e') /\
  (forall k o ts t c rest e,
      text k = "$ReadOnly" ->
      isLiteralKind (kind k) = false -> isNameKind (kind k) = false ->
      text o = "<" ->
      TYPE ts = Success t (c :: rest) e -> text c = ">" ->
      exists e',
        TYPE_TERM (k :: o :: ts) =
          Success (DecoratedGenericType "$ReadOnly" t) rest e').
Proof.
  split; [|split].
  - intros [k s p] ts t [kc sc pc] rest e Ho Hk _ HT Hc.
    simpl in Ho, Hk, Hc. subst s sc. run_TERM.
    plain_kind k Hk; rewrite HT; simpl; eexists; reflexivity.
  - intros [k s p] [ko so po] ts t [kc sc pc] rest e Hs Hk _ Ho HT Hc.
    simpl in Hs, Hk, Ho, Hc. subst s so sc. run_TERM.
    plain_kind k Hk; rewrite HT; simpl; eexists; reflexivity.
  - intros [k s p] [ko so po] ts t [kc sc pc] rest e Hs Hk _ Ho HT Hc.
    simpl in Hs, Hk, Ho, Hc. subst s so sc. run_TERM.
    plain_kind k Hk; rewrite HT; simpl; eexists; reflexivity.
Qed.

Lemma X17_wrapping_forms_witness :
  exists e',
    TYPE_TERM (tokens [word "$ReadOnly"; punct "<"; ident "A"; punct ">"]) =
      Success (DecoratedGenericType "$ReadOnly" (ref "A")) [] e'.
Proof.
  apply (proj2 (proj2 X17_wrapping_forms)
           (mkToken Word "$ReadOnly" 0) (mkToken Punctuation "<" 1)
           (tokensFrom 2 [ident "A"; punct ">"]) (ref "A")
           (mkToken Punctuation ">" 3) [] (Some (UnexpectedToken 3)));
    reflexivity.
Defined.

(* ------------------------------------------------------------------ *)
(** ** Declarations and statements in general *)

(** X18.  [DECL] composes [TYPE]: after [type], a name token (an
    [Identifier] or the keyword [type]) and [=], whatever type [TYPE]
    reads up to a [;] becomes the aliased type; the statement carries the
    text of the name token, and [hasExport] is true when the token
    [export] stands in front.  [STAT] returns the same statement. *)
Theorem X18_declaration_composes_type :
  forall (ty n eq semi : Token) (ts rest : list Token) (t : Type_)
         (e : option ParseError),
    text ty = "type" -> isNameKind (kind n) = true -> text eq = "=" ->
    TYPE ts = Success t (semi :: rest) e -> text semi = ";" ->
    (exists e',
        DECL (ty :: n :: eq :: ts) =
          Success (TypeAliasDecl false (text n) t) rest e') /\
    (exists e',
        STAT (ty :: n :: eq :: ts) =
          Success (TypeAliasDecl false (text n) t) rest e') /\
    (forall ex, text ex = "export" ->
        (exists e',
            DECL (ex :: ty :: n :: eq :: ts) =
              Success (TypeAliasDecl true (text n) t) rest e') /\
        (exists e',
            STAT (ex :: ty :: n :: eq :: ts) =
              Success (TypeAliasDecl true (text n) t) rest e')).
Proof.
  intros [kt st pt] [kn sn pn] [ke se pe] [ks ss ps] ts rest t e
         Hty Hn Heq HT Hsemi.
  simpl in Hty, Hn, Heq, Hsemi. subst st se ss.
  assert (HD : exists e',
             DECL (mkToken kt "type" pt :: mkToken kn sn pn ::
                   mkToken ke "=" pe :: ts) =
               Success (TypeAliasDecl false sn t) rest e').
  { unfold DECL, apply, seq, opt_sc, IDENTIFIER, alt, str, tok. simpl.
    destruct kn; try discriminate Hn; simpl; rewrite HT; simpl;
      eexists; reflexivity. }
  assert (HE : forall ex, text ex = "export" ->
             exists e',
               DECL (ex :: mkToken kt "type" pt :: mkToken kn sn pn ::
                     mkToken ke "=" pe :: ts) =
                 Success (TypeAliasDecl true sn t) rest e').
  { intros [kx sx px] Hx. simpl in Hx. subst sx.
    unfold DECL, apply, seq, opt_sc, IDENTIFIER, alt, str, tok. simpl.
    destruct kn; try discriminate Hn; simpl; rewrite HT; simpl;
      eexists; reflexivity. }
  simpl. split; [exact HD|]. split.
  - destruct HD as [e' HD]. unfold STAT, alt. simpl. rewrite HD.
    eexists. reflexivity.
  - intros ex Hx. destruct (HE ex Hx) as [e' HD']. split.
    + exists e'. exact HD'.
    + unfold STAT, alt. simpl. rewrite HD'. eexists. reflexivity.
Qed.

Lemma X18_declaration_composes_type_witness :
  exists e',
    STAT tokens_alias_named_type =
      Success (TypeAliasDecl false "type" (PrimitiveType "number")) [] e'.
Proof.
  apply (proj1 (proj2 (@X18_declaration_composes_type
           (mkToken KEYWORD_type "type" 0) (mkToken KEYWORD_type "type" 1)
           (mkToken Punctuation "=" 2) (mkToken Punctuation ";" 4)
           (tokensFrom 3 [word "number"; punct ";"]) []
           (PrimitiveType "number") (Some (UnexpectedToken 4))
           eq_refl eq_refl eq_refl eq_refl eq_refl))).
Defined.

(** X19.  [const NAME = require ( SOURCE ) ;] with an [Identifier] name
    and a string literal source is the statement
    [ImportEqualStat{name, source}] carrying the raw texts of the two
    tokens, whatever follows the semicolon. *)
Theorem X19_require_import :
  forall (c n eq r lp s rp semi : Token) (rest : list Token),
    text c = "const" -> kind n = Identifier -> text eq = "=" ->
    text r = "require" -> text lp = "(" -> kind s = StringLiteral ->
    text rp = ")" -> text semi = ";" ->
    exists e,
      STAT (c :: n :: eq :: r :: lp :: s :: rp :: semi :: rest) =
        Success (ImportEqualStat (text n) (text s)) rest e.
Proof.
  intros c n eq r lp s rp semi rest Hc Hn Heq Hr Hlp Hs Hrp Hsemi.
  known_text.
  unfold STAT, DECL, alt, apply, seq, opt_sc, str, tok. simpl.
  eexists. reflexivity.
Qed.

Lemma X19_require_import_witness :
  exists e,
    STAT (tokens [word "const"; ident "x"; punct "="; word "require";
                  punct "("; (StringLiteral, "'y'"); punct ")";
                  punct ";"]) =
      Success (ImportEqualStat "x" "'y'") [] e.
Proof.
  apply (@X19_require_import
           (mkToken Word "const" 0) (mkToken Identifier "x" 1)
           (mkToken Punctuation "=" 2) (mkToken Word "require" 3)
           (mkToken Punctuation "(" 4) (mkToken StringLiteral "'y'" 5)
           (mkToken Punctuation ")" 6) (mkToken Punctuation ";" 7) []);
    reflexivity.
Defined.

(** X20.  [import * as NAME from SOURCE ;] with an [Identifier] name and
    a string literal source is the statement [ImportAsStat{name, source}]
    carrying the raw texts of the two tokens. *)
Theorem X20_namespace_import :
  forall (i star a n fr s semi : Token) (rest : list Token),
    text i = "import" -> text star = "*" -> text a = "as" ->
    kind n = Identifier -> text fr = "from" -> kind s = StringLiteral ->
    text semi = ";" ->
    exists e,
      STAT (i :: star :: a :: n :: fr :: s :: semi :: rest) =
        Success (ImportAsStat (text n) (text s)) rest e.
Proof.
  intros i star a n fr s semi rest Hi Hstar Ha Hn Hfr Hs Hsemi.
  known_text.
  unfold STAT, DECL, alt, apply, seq, opt_sc, str, tok. simpl.
  eexists. reflexivity.
Qed.

Lemma X20_namespace_import_witness :
  exists e,
    STAT (tokens [word "import"; punct "*"; word "as"; ident "ns";
                  word "from"; (StringLiteral, "'m'"); punct ";"]) =
      Success (ImportAsStat "ns" "'m'") [] e.
Proof.
  apply (@X20_namespace_import
           (mkToken Word "import" 0) (mkToken Punctuation "*" 1)
           (mkToken Word "as" 2) (mkToken Identifier "ns" 3)
           (mkToken Word "from" 4) (mkToken StringLiteral "'m'" 5)
           (mkToken Punctuation ";" 6) []);
    reflexivity.
Defined.

(** X21.  A token with the text ['use strict'] followed by [;] is the
    statement [UseStrictStat], whatever the kind of the token: the pragma
    is matched by its text. *)
Theorem X21_use_strict :
  forall (u semi : Token) (rest : list Token),
    text u = "'use strict'" -> text semi = ";" ->
    exists e, STAT (u :: semi :: rest) = Success UseStrictStat rest e.
Proof.
  intros u semi rest Hu Hsemi. known_text.
  unfold STAT, DECL, alt, apply, seq, opt_sc, str, tok. simpl.
  eexists. reflexivity.
Qed.

Lemma X21_use_strict_witness :
  exists e,
    STAT (tokens [(StringLiteral, "'use strict'"); punct ";"]) =
      Success UseStrictStat [] e.
Proof.
  apply (@X21_use_strict (mkToken StringLiteral "'use strict'" 0)
           (mkToken Punctuation ";" 1) []);
    reflexivity.
Defined.

(* ------------------------------------------------------------------ *)
(** ** Separated lists *)

Lemma Repeats_joined (p : Parser Token) (s : string) (tail : list Token) :
  forall pairs,
    Forall (fun q => text (fst q) = s) pairs ->
    (forall n r, In n (map snd pairs) ->
       exists e, p (n :: r) = Success n r e) ->
    Repeats (kright (str s) p) (joined pairs ++ tail) (map snd pairs) tail.
Proof.
  induction pairs as [|[sep n] pairs IH]; intros Hsep Hp; simpl.
  - constructor.
  - pose proof (Forall_inv Hsep) as Hq.
    pose proof (Forall_inv_tail Hsep) as Hqs. simpl in Hq.
    destruct (Hp n (joined pairs ++ tail)%list (or_introl eq_refl))
      as [e He].
    apply Repeats_step with (rest := (joined pairs ++ tail)%list)
                            (e := betterError None e).
    + unfold kright, apply, seq, str. rewrite Hq, String.eqb_refl.
      rewrite He. reflexivity.
    + simpl. lia.
    + apply IH; [exact Hqs|].
      intros n' r Hin. apply Hp. right. exact Hin.
Qed.

Lemma kright_str_halts (p : Parser Token) (s : string)
    (tail : list Token) :
  startsWith s tail = false -> halts (kright (str s) p) tail.
Proof.
  intros H. unfold halts, kright, apply, seq, str.
  destruct tail as [|t tail]; simpl in *; [exact Logic.I|].
  rewrite H. exact Logic.I.
Qed.

(** An element, then separator and element any number of times, up to a
    stream where separator and element do not follow. *)
Lemma list_sc_joined (p : Parser Token) (s : string) (first : Token)
    (pairs : list (Token * Token)) (tail : list Token) :
  yields anything p ->
  Forall (fun q => text (fst q) = s) pairs ->
  (forall n r, In n (first :: map snd pairs) ->
     exists e, p (n :: r) = Success n r e) ->
  halts (kright (str s) p) tail ->
  exists e,
    list_sc p (str s) (first :: joined pairs ++ tail) =
      Success (first :: map snd pairs) tail e.
Proof.
  intros Hy Hsep Hp Htail.
  assert (Hrep : Repeats (kright (str s) p) (joined pairs ++ tail)
                   (map snd pairs) tail).
  { apply Repeats_joined; [exact Hsep|].
    intros n r Hin. apply Hp. right. exact Hin. }
  destruct (@rep_sc_complete _ (kright (str s) p) _ (map snd pairs) tail
              (yields_kright (yields_str s) Hy) Hrep Htail) as [e He].
  destruct (Hp first (joined pairs ++ tail)%list (or_introl eq_refl))
    as [e0 H0].
  unfold list_sc, apply, seq. rewrite H0, He.
  eexists. reflexivity.
Qed.

Lemma tok_Identifier_accepts (names : list Token) :
  Forall (fun n => kind n = Identifier) names ->
  forall n r, In n names ->
    exists e, tok Identifier (n :: r) = Success n r e.
Proof.
  intros H n r Hin. rewrite Forall_forall in H. specialize (H n Hin).
  simpl. rewrite H. eexists. reflexivity.
Qed.

Lemma IDENTIFIER_accepts (names : list Token) :
  Forall (fun n => isNameKind (kind n) = true) names ->
  forall n r, In n names ->
    exists e, IDENTIFIER (n :: r) = Success n r e.
Proof.
  intros H n r Hin. rewrite Forall_forall in H. specialize (H n Hin).
  unfold IDENTIFIER, alt. simpl.
  destruct (kind n); try discriminate H; eexists; reflexivity.
Qed.

Lemma Forall_pairs_split (P Q : Token -> Prop)
    (pairs : list (Token * Token)) :
  Forall (fun q => P (fst q) /\ Q (snd q)) pairs ->
  Forall (fun q => P (fst q)) pairs /\ Forall Q (map snd pairs).
Proof.
  induction 1 as [|q qs [Hp Hq] _ [IH1 IH2]]; simpl; split; constructor;
    assumption.
Qed.

(** The name list of a named import, up to any tail where a comma and an
    [Identifier] do not follow. *)
Lemma import_names (first : Token) (pairs : list (Token * Token))
    (tail : list Token) :
  kind first = Identifier ->
  Forall (fun q => text (fst q) = "," /\ kind (snd q) = Identifier) pairs ->
  halts (kright (str ",") (tok Identifier)) tail ->
  exists e,
    list_sc (tok Identifier) (str ",") (first :: joined pairs ++ tail) =
      Success (first :: map snd pairs) tail e.
Proof.
  intros Hfirst Hpairs Htail.
  apply (@Forall_pairs_split (fun t => text t = ",")
           (fun t => kind t = Identifier)) in Hpairs.
  destruct Hpairs as [Hsep Hnames].
  apply list_sc_joined; auto using yields_tok.
  apply tok_Identifier_accepts. constructor; assumption.
Qed.

(** X22.  [import { N1, ..., Nk } from SOURCE ;], with or without the
    marker [type] after [import], is the statement [ImportNameStat] whose
    names are the texts of the [Identifier] tokens in their order, for
    any number [k >= 1] of names, and whose source is the raw text of the
    string literal. *)
Theorem X22_named_import :
  forall (i b first cl fr s semi : Token) (pairs : list (Token * Token))
         (rest : list Token),
    text i = "import" -> text b = "{" -> kind first = Identifier ->
    Forall (fun q => text (fst q) = "," /\ kind (snd q) = Identifier)
           pairs ->
    text cl = "}" -> text fr = "from" ->
    kind s = StringLiteral -> text semi = ";" ->
    (exists e,
        STAT (i :: b :: first ::
                joined pairs ++ cl :: fr :: s :: semi :: rest) =
          Success
            (ImportNameStat (map text (first :: map snd pairs)) (text s))
            rest e) /\
    (forall m, text m = "type" ->
        exists e,
          STAT (i :: m :: b :: first ::
                  joined pairs ++ cl :: fr :: s :: semi :: rest) =
            Success
              (ImportNameStat (map text (first :: map snd pairs)) (text s))
              rest e).
Proof.
  intros i b first cl fr s semi pairs rest
         Hi Hb Hfirst Hpairs Hcl Hfr Hs Hsemi.
  destruct (@import_names first pairs (cl :: fr :: s :: semi :: rest)
              Hfirst Hpairs) as [e1 H1].
  { apply kright_str_halts. simpl. rewrite Hcl. reflexivity. }
  clear Hpairs Hfirst.
  destruct i as [ki si pi], b as [kb sb pb], cl as [kcl scl pcl],
           fr as [kfr sfr pfr], s as [ks ss ps], semi as [kse sse pse].
  simpl in Hi, Hb, Hcl, Hfr, Hs, Hsemi. subst si sb scl sfr ks sse.
  split.
  - unfold STAT.
    set (L := list_sc (tok Identifier) (str ",")) in *.
    unfold DECL, alt, apply, seq, opt_sc, str, tok. simpl.
    rewrite H1. simpl. eexists. reflexivity.
  - intros [km sm pm] Hm. simpl in Hm. subst sm.
    unfold STAT.
    set (L := list_sc (tok Identifier) (str ",")) in *.
    unfold DECL, alt, apply, seq, opt_sc, str, tok. simpl.
    rewrite H1. simpl. eexists. reflexivity.
Qed.

Lemma X22_named_import_witness :
  exists e,
    STAT (tokens [word "import"; typeKeyword; punct "{"; ident "Foo";
                  punct ","; ident "Bar"; punct ","; ident "Baz";
                  punct "}"; word "from"; (StringLiteral, "'mod'");
                  punct ";"]) =
      Success (ImportNameStat ["Foo"; "Bar"; "Baz"] "'mod'") [] e.
Proof.
  assert (Hpairs :
    Forall (fun q => text (fst q) = "," /\ kind (snd q) = Identifier)
      [(mkToken Punctuation "," 4, mkToken Identifier "Bar" 5);
       (mkToken Punctuation "," 6, mkToken Identifier "Baz" 7)])
    by (repeat constructor).
  apply (proj2 (@X22_named_import
           (mkToken Word "import" 0) (mkToken Punctuation "{" 2)
           (mkToken Identifier "Foo" 3) (mkToken Punctuation "}" 8)
           (mkToken Word "from" 9) (mkToken StringLiteral "'mod'" 10)
           (mkToken Punctuation ";" 11)
           [(mkToken Punctuation "," 4, mkToken Identifier "Bar" 5);
            (mkToken Punctuation "," 6, mkToken Identifier "Baz" 7)] []
           eq_refl eq_refl eq_refl Hpairs
           eq_refl eq_refl eq_refl eq_refl)
           (mkToken KEYWORD_type "type" 1)).
  reflexivity.
Defined.

(** X23.  A dotted name [N1 . N2 . ... . Nk], of name tokens ([Identifier]
    or the keyword [type]) whose first text no other alternative can
    claim, followed by neither a [.] nor a [<], is as a term the
    [TypeReference] without type arguments whose name has the texts of
    the tokens as its segments, in order, for any number [k >= 1] of
    segments. *)
Theorem X23_dotted_name :
  forall (first : Token) (pairs : list (Token * Token))
         (tail : list Token),
    isNameKind (kind first) = true ->
    Forall (fun q => text (fst q) = "." /\ isNameKind (kind (snd q)) = true)
           pairs ->
    isReservedText (text first) = false ->
    startsWith "." tail = false -> startsWith "<" tail = false ->
    exists name e,
      TYPE_TERM (first :: joined pairs ++ tail) =
        Success (TypeReference (Some name) []) tail e /\
      segments name = map text (first :: map snd pairs) /\
      S (entityDepth name) = length (first :: map snd pairs).
Proof.
  intros first pairs tail Hkind Hpairs Hres Htail Hangle.
  apply (@Forall_pairs_split (fun t => text t = ".")
           (fun t => isNameKind (kind t) = true)) in Hpairs.
  destruct Hpairs as [Hsep Hnames].
  destruct (@list_sc_joined IDENTIFIER "." first pairs tail
              yields_IDENTIFIER Hsep
              (IDENTIFIER_accepts (Forall_cons first Hkind Hnames))
              (@kright_str_halts IDENTIFIER "." tail Htail))
    as [e1 H1].
  destruct (entity_fold_segments (map snd pairs) (Name (text first)))
    as [name [Hname [Hseg Hdepth]]].
  exists name. clear Hsep Hnames.
  destruct first as [k s p]. simpl in Hres, Hkind, H1, Hname, Hseg, Hdepth.
  unfold isReservedText, isPrimitiveText in Hres.
  repeat (apply orb_false_elim in Hres; destruct Hres as [Hres ?]).
  unfold TYPE_TERM, TYPE_TERM_pattern.
  set (L := list_sc IDENTIFIER (str ".")) in *.
  set (O := opt_sc (seq (str "<") (seq (list_sc TYPE (str ",")) (str ">")))).
  assert (HO : exists e2, O tail = Success None tail e2).
  { unfold O, opt_sc, seq, str.
    destruct tail as [|t tail']; simpl in *; [eexists; reflexivity|].
    rewrite Hangle. eexists. reflexivity. }
  destruct HO as [e2 HO].
  unfold alt, apply, seq, str, tok. simpl.
  repeat match goal with
  | H : String.eqb s _ = false |- _ => rewrite H; clear H
  end.
  simpl.
  destruct k; try discriminate Hkind; simpl;
    rewrite H1; simpl; rewrite HO; simpl;
    unfold applyTypeReference; simpl; rewrite Hname;
    (eexists; split; [reflexivity|]; split; [exact Hseg|]; simpl; lia).
Qed.

Lemma X23_dotted_name_witness :
  exists name e,
    TYPE_TERM tokens_a_b_c =
      Success (TypeReference (Some name) []) [] e /\
    segments name = ["a"; "b"; "c"] /\
    S (entityDepth name) = 3.
Proof.
  apply (@X23_dotted_name (mkToken Identifier "a" 0)
           [(mkToken Punctuation "." 1, mkToken Identifier "b" 2);
            (mkToken Punctuation "." 3, mkToken Identifier "c" 4)] []).
  - reflexivity.
  - repeat constructor.
  - reflexivity.
  - reflexivity.
  - reflexivity.
Defined.

(* ------------------------------------------------------------------ *)
(** ** Which statement a token starts *)

Lemma str_starts (s : string) (ts : list Token) (t : Token)
    (rest : list Token) (e : option ParseError) :
  str s ts = Success t rest e -> startsWith s ts = true.
Proof.
  intros H. apply str_success in H. destruct H as [-> H].
  simpl. rewrite H. apply String.eqb_refl.
Qed.

Lemma opt_sc_str_cases (s : string) (ts : list Token) (o : option Token)
    (rest : list Token) (e : option ParseError) :
  opt_sc (str s) ts = Success o rest e ->
  startsWith s ts = true \/ rest = ts.
Proof.
  unfold opt_sc, str, startsWith. destruct ts as [|t ts']; simpl.
  - intros H. inversion H. right. reflexivity.
  - destruct (String.eqb (text t) s); intros H; inversion H; auto.
Qed.

(** X24.  The first token decides the kind of statement: an alias
    declaration starts with [export] or [type], a [require] import with
    [const], both [import] forms with [import], and the pragma with
    ['use strict']. *)
Theorem X24_statement_start :
  forall ts s rest e,
    STAT ts = Success s rest e -> statementStart s ts.
Proof.
  intros ts s rest e H. unfold STAT in H.
  apply alt_success in H. destruct H as [p [e' [Hin H]]].
  simpl in Hin. destruct Hin as [<-|[<-|[<-|[<-|[<-|[]]]]]].
  - apply apply_success in H. destruct H as [v [H ->]].
    apply seq_success in H. destruct H as [rest1 [e1 [e2 [Hex H]]]].
    apply seq_success in H. destruct H as [rest2 [e3 [e4 [Hty _]]]].
    destruct v as [hasExport [k [name [eq [aliasedType semi]]]]].
    simpl in *. apply opt_sc_str_cases in Hex.
    destruct Hex as [Hex| ->]; [left; exact Hex|].
    right. eapply str_starts. exact Hty.
  - apply apply_success in H. destruct H as [v [H ->]].
    apply seq_success in H. destruct H as [rest1 [e1 [e2 [Hc _]]]].
    destruct v as [a [b [c [d [f [g [h i]]]]]]]. simpl in *.
    eapply str_starts. exact Hc.
  - apply apply_success in H. destruct H as [v [H ->]].
    apply seq_success in H. destruct H as [rest1 [e1 [e2 [Hc _]]]].
    destruct v as [a [b [c [d [f [g h]]]]]]. simpl in *.
    eapply str_starts. exact Hc.
  - apply apply_success in H. destruct H as [v [H ->]].
    apply seq_success in H. destruct H as [rest1 [e1 [e2 [Hc _]]]].
    destruct v as [a [b [c [d [f [g [h i]]]]]]]. simpl in *.
    eapply str_starts. exact Hc.
  - apply apply_success in H. destruct H as [v [H ->]].
    apply seq_success in H. destruct H as [rest1 [e1 [e2 [Hc _]]]].
    simpl in *. eapply str_starts. exact Hc.
Qed.

Lemma X24_statement_start_witness :
  statementStart (TypeAliasDecl true "A" (PrimitiveType "number"))
    tokens_export_alias.
Proof.
  apply (@X24_statement_start tokens_export_alias _ []
           (Some (UnexpectedToken 5))).
  vm_compute; reflexivity.
Defined.

(* ------------------------------------------------------------------ *)
(** ** Object type literals with one entry *)

Ltac run_OBJECT :=
  unfold TYPE_TERM, TYPE_TERM_pattern;
  unfold alt, apply, seq, opt_sc, list_sc, kright, rep_sc, IDENTIFIER,
    alt, apply, seq, opt_sc, str, tok;
  simpl.

(** X25.  An object type literal with one property
    [{ [|] [+] NAME [?] : T [|] }] is the [ObjectType] with no mixin and
    the one [Prop] member: [isExact] is set by the leading bar alone,
    [isReadonly] by the [+], [isOptional] by the [?], the name is the
    text of the name token and the type is whatever [TYPE] reads after
    the colon up to the optional closing bar and the brace. *)
Theorem X25_object_property :
  forall (o n colon cl : Token) (bar plus q tbar : option Token)
         (ts rest : list Token) (t : Type_) (e : option ParseError),
    text o = "{" ->
    isLiteralKind (kind o) = false -> isNameKind (kind o) = false ->
    markerText "|" bar -> markerText "+" plus -> markerText "?" q ->
    markerText "|" tbar ->
    isNameKind (kind n) = true ->
    String.eqb (text n) "|" = false ->
    String.eqb (text n) "..." = false ->
    String.eqb (text n) "+" = false ->
    text colon = ":" -> text cl = "}" ->
    TYPE ts = Success t (optTokens tbar ++ cl :: rest) e ->
    exists e',
      TYPE_TERM
        (o :: optTokens bar ++ optTokens plus ++ n :: optTokens q ++
         colon :: ts) =
      Success
        (ObjectType (isDefined bar) []
           [Prop_ (isDefined plus) (text n) (isDefined q) t])
        rest e'.
Proof.
  intros [ko so po] [kn sn pn] [kc sc pc] [kl sl pl] bar plus q tbar
         ts rest t e Ho Hlit Hname Hbar Hplus Hq Htbar Hn H1 H2 H3
         Hcolon Hcl HT.
  simpl in Ho, Hlit, Hname, Hn, H1, H2, H3, Hcolon, Hcl. subst so sc sl.
  destruct bar as [[kb sb pb]|], plus as [[kp sp pp]|],
           q as [[kq sq pq]|], tbar as [[kt st pt]|];
    simpl in Hbar, Hplus, Hq, Htbar; subst; simpl in HT;
    run_OBJECT; rewrite ?H1, ?H2, ?H3; simpl;
    destruct ko; try discriminate Hlit; try discriminate Hname; simpl;
    destruct kn; try discriminate Hn; simpl;
    rewrite ?H1, ?H2, ?H3; simpl;
    rewrite HT; simpl; eexists; reflexivity.
Qed.

Lemma X25_object_property_witness :
  exists e',
    TYPE_TERM
      (mkToken Punctuation "{" 0 ::
       optTokens (Some barToken) ++
       optTokens (Some (mkToken Punctuation "+" 0)) ++
       nameToken "a" ::
       optTokens (Some questionToken) ++
       mkToken Punctuation ":" 0 ::
       [mkToken Word "number" 0; barToken; mkToken Punctuation "}" 0]) =
    Success
      (ObjectType true [] [Prop_ true "a" true (PrimitiveType "number")])
      [] e'.
Proof.
  apply (@X25_object_property
           (mkToken Punctuation "{" 0) (nameToken "a")
           (mkToken Punctuation ":" 0) (mkToken Punctuation "}" 0)
           (Some barToken) (Some (mkToken Punctuation "+" 0))
           (Some questionToken) (Some barToken)
           [mkToken Word "number" 0; barToken; mkToken Punctuation "}" 0]
           [] (PrimitiveType "number") (Some (UnexpectedToken 0)));
    try reflexivity.
Defined.

(** X26.  An object type literal with one indexer
    [{ [+] [ KEY : K ] : V }] is the [ObjectType] with no mixin and the
    one [Indexer] member: [isReadonly] is set by the [+], the key name is
    the text of the name token, and the key and value types are what
    [TYPE] reads after the first colon up to [[]]] and after the second
    colon up to the brace. *)
Theorem X26_object_indexer :
  forall (o lb key c1 rb c2 cl : Token) (plus : option Token)
         (tsK tsV rest : list Token) (kt vt : Type_)
         (eK eV : option ParseError),
    text o = "{" ->
    isLiteralKind (kind o) = false -> isNameKind (kind o) = false ->
    markerText "+" plus ->
    text lb = "[" -> isNameKind (kind lb) = false ->
    isNameKind (kind key) = true ->
    text c1 = ":" -> text rb = "]" -> text c2 = ":" -> text cl = "}" ->
    TYPE tsK = Success kt (rb :: c2 :: tsV) eK ->
    TYPE tsV = Success vt (cl :: rest) eV ->
    exists e',
      TYPE_TERM (o :: optTokens plus ++ lb :: key :: c1 :: tsK) =
      Success
        (ObjectType false [] [Indexer (isDefined plus) (text key) kt vt])
        rest e'.
Proof.
  intros [ko so po] [kb sb pb] [kk sk pk] [k1 s1 p1] [kr sr pr]
         [k2 s2 p2] [kl sl pl] plus tsK tsV rest kt vt eK eV
         Ho Hlit Hname Hplus Hlb Hlbk Hkey Hc1 Hrb Hc2 Hcl HK HV.
  simpl in Ho, Hlit, Hname, Hlb, Hlbk, Hkey, Hc1, Hrb, Hc2, Hcl.
  subst so sb s1 sr s2 sl.
  destruct plus as [[kp sp pp]|]; simpl in Hplus; subst;
    run_OBJECT;
    destruct ko; try discriminate Hlit; try discriminate Hname; simpl;
    destruct kb; try discriminate Hlbk; simpl;
    destruct kk; try discriminate Hkey; simpl;
    rewrite HK; simpl; rewrite HV; simpl; eexists; reflexivity.
Qed.

Lemma X26_object_indexer_witness :
  exists e',
    TYPE_TERM
      (mkToken Punctuation "{" 0 :: optTokens None ++
       mkToken Punctuation "[" 0 :: nameToken "k" ::
       mkToken Punctuation ":" 0 ::
       [mkToken Word "string" 0; mkToken Punctuation "]" 0;
        mkToken Punctuation ":" 0; mkToken Word "number" 0;
        mkToken Punctuation "}" 0]) =
    Success
      (ObjectType false []
         [Indexer false "k" (PrimitiveType "string")
            (PrimitiveType "number")])
      [] e'.
Proof.
  apply (@X26_object_indexer
           (mkToken Punctuation "{" 0) (mkToken Punctuation "[" 0)
           (nameToken "k") (mkToken Punctuation ":" 0)
           (mkToken Punctuation "]" 0) (mkToken Punctuation ":" 0)
           (mkToken Punctuation "}" 0) None
           [mkToken Word "string" 0; mkToken Punctuation "]" 0;
            mkToken Punctuation ":" 0; mkToken Word "number" 0;
            mkToken Punctuation "}" 0]
           [mkToken Word "number" 0; mkToken Punctuation "}" 0] []
           (PrimitiveType "string") (PrimitiveType "number")
           (Some (UnexpectedToken 0)) (Some (UnexpectedToken 0)));
    try reflexivity.
Defined.

(** X27.  A spread entry is a mixin, not a member: [{ ... T }] is the
    [ObjectType] whose [mixinTypes] is the one type [TYPE] reads after the
    dots and whose [members] is empty.  [{ }] is the [ObjectType] with
    neither, and is not exact. *)
Theorem X27_object_mixin_and_empty :
  (forall (o dots cl : Token) (ts rest : list Token) (t : Type_)
          (e : option ParseError),
      text o = "{" ->
      isLiteralKind (kind o) = false -> isNameKind (kind o) = false ->
      text dots = "..." -> text cl = "}" ->
      TYPE ts = Success t (cl :: rest) e ->
      exists e',
        TYPE_TERM (o :: dots :: ts) =
          Success (ObjectType false [t] []) rest e') /\
  (forall (o cl : Token) (rest : list Token),
      text o = "{" ->
      isLiteralKind (kind o) = false -> isNameKind (kind o) = false ->
      text cl = "}" -> isNameKind (kind cl) = false ->
      exists e',
        TYPE_TERM (o :: cl :: rest) = Success (ObjectType false [] []) rest e').
Proof.
  split.
  - intros [ko so po] [kd sd pd] [kl sl pl] ts rest t e
           Ho Hlit Hname Hdots Hcl HT.
    simpl in Ho, Hlit, Hname, Hdots, Hcl. subst so sd sl.
    run_OBJECT.
    destruct ko; try discriminate Hlit; try discriminate Hname; simpl;
      rewrite HT; simpl; eexists; reflexivity.
  - intros [ko so po] [kl sl pl] rest Ho Hlit Hname Hcl Hclk.
    simpl in Ho, Hlit, Hname, Hcl, Hclk. subst so sl.
    run_OBJECT.
    destruct ko; try discriminate Hlit; try discriminate Hname; simpl;
      destruct kl; try discriminate Hclk; simpl; eexists; reflexivity.
Qed.

Lemma X27_object_mixin_and_empty_witness :
  exists e',
    TYPE_TERM
      (tokens [punct "{"; punct "..."; ident "A"; punct "|"; ident "B";
               punct "}"]) =
      Success (ObjectType false [UnionType [ref "A"; ref "B"]] []) [] e'.
Proof.
  apply (proj1 X27_object_mixin_and_empty
           (mkToken Punctuation "{" 0) (mkToken Punctuation "..." 1)
           (mkToken Punctuation "}" 5)
           (tokensFrom 2 [ident "A"; punct "|"; ident "B"; punct "}"]) []
           (UnionType [ref "A"; ref "B"]) (Some (UnexpectedToken 5)));
    try reflexivity.
Defined.

(* ------------------------------------------------------------------ *)
(** ** The keyword [type] in every position of an import list *)

Lemma import_names_stop_at_type (c t : Token) (rest : list Token) :
  text c = "," -> kind t = KEYWORD_type ->
  halts (kright (str ",") (tok Identifier)) (c :: t :: rest).
Proof.
  intros Hc Ht. unfold halts, kright, apply, seq, str, tok.
  rewrite Hc. simpl. rewrite Ht. exact Logic.I.
Qed.

Lemma STAT_import_later_type (i b first c t : Token)
    (pairs : list (Token * Token)) (rest : list Token) :
  text i = "import" -> text b = "{" -> kind first = Identifier ->
  Forall (fun q => text (fst q) = "," /\ kind (snd q) = Identifier) pairs ->
  text c = "," -> kind t = KEYWORD_type ->
  isFailure (STAT (i :: b :: first :: joined pairs ++ c :: t :: rest)) /\
  (forall m, text m = "type" ->
     isFailure
       (STAT (i :: m :: b :: first :: joined pairs ++ c :: t :: rest))).
Proof.
  intros Hi Hb Hfirst Hpairs Hc Ht.
  destruct (@import_names first pairs (c :: t :: rest) Hfirst Hpairs
              (@import_names_stop_at_type c t rest Hc Ht)) as [e1 H1].
  clear Hpairs Hfirst.
  destruct i as [ki si pi], b as [kb sb pb], c as [kc sc pc].
  simpl in Hi, Hb, Hc. subst si sb sc.
  unfold isFailure. split.
  - unfold STAT.
    set (L := list_sc (tok Identifier) (str ",")) in *.
    unfold DECL, alt, apply, seq, opt_sc, str, tok. simpl.
    rewrite H1. simpl. eexists. reflexivity.
  - intros [km sm pm] Hm. simpl in Hm. subst sm.
    unfold STAT.
    set (L := list_sc (tok Identifier) (str ",")) in *.
    unfold DECL, alt, apply, seq, opt_sc, str, tok. simpl.
    rewrite H1. simpl. eexists. reflexivity.
Qed.

(** C10.  A token of kind [KEYWORD_type] is accepted by [IDENTIFIER]:
    [type type = number;] declares the alias [type], [a.type.b] is a
    qualified type reference and [{ type: number }] has the property
    [type].  The rule [tok Identifier] rejects it, and so does [STAT] when
    it stands for the name of a [const ... = require(...)] import, the name
    of an [import * as ...], or a name at any position of an
    [import { ... }] list: the first name, or a name after any number of
    [Identifier] names and commas, with or without the marker [type]
    after [import]. *)
Theorem C10_type_keyword_as_identifier :
  (forall t rest,
      kind t = KEYWORD_type ->
      exists e, IDENTIFIER (t :: rest) = Success t rest e) /\
  STAT tokens_alias_named_type =
    Success (TypeAliasDecl false "type" (PrimitiveType "number")) []
            (Some (UnexpectedToken 4)) /\
  TYPE tokens_a_type_b =
    Success
      (TypeReference (Some (Qualified (Qualified (Name "a") "type") "b")) [])
      [] (Some UnexpectedEndOfInput) /\
  TYPE tokens_prop_named_type =
    Success
      (ObjectType false [] [Prop_ false "type" false (PrimitiveType "number")])
      [] (Some UnexpectedEndOfInput) /\
  (forall t rest,
      kind t = KEYWORD_type ->
      tok Identifier (t :: rest) = Failure (UnexpectedToken (pos t))) /\
  (forall c t rest,
      text c = "const" -> kind t = KEYWORD_type ->
      isFailure (STAT (c :: t :: rest))) /\
  (forall i s a t rest,
      text i = "import" -> text s = "*" -> text a = "as" ->
      kind t = KEYWORD_type ->
      isFailure (STAT (i :: s :: a :: t :: rest))) /\
  (forall i b t rest,
      text i = "import" -> text b = "{" -> kind t = KEYWORD_type ->
      isFailure (STAT (i :: b :: t :: rest))) /\
  (forall i m b t rest,
      text i = "import" -> text m = "type" -> text b = "{" ->
      kind t = KEYWORD_type ->
      isFailure (STAT (i :: m :: b :: t :: rest))) /\
  (forall i b n c t rest,
      text i = "import" -> text b = "{" -> kind n = Identifier ->
      text c = "," -> kind t = KEYWORD_type ->
      isFailure (STAT (i :: b :: n :: c :: t :: rest))) /\
  (forall i b first pairs c t rest,
      text i = "import" -> text b = "{" -> kind first = Identifier ->
      Forall (fun q => text (fst q) = "," /\ kind (snd q) = Identifier)
             pairs ->
      text c = "," -> kind t = KEYWORD_type ->
      isFailure (STAT (i :: b :: first :: joined pairs ++ c :: t :: rest))) /\
  (forall i m b first pairs c t rest,
      text i = "import" -> text m = "type" -> text b = "{" ->
      kind first = Identifier ->
      Forall (fun q => text (fst q) = "," /\ kind (snd q) = Identifier)
             pairs ->
      text c = "," -> kind t = KEYWORD_type ->
      isFailure
        (STAT (i :: m :: b :: first :: joined pairs ++ c :: t :: rest))) /\
  STAT tokens_require_type = Failure (UnexpectedToken 1) /\
  STAT tokens_import_as_type = Failure (UnexpectedToken 3) /\
  STAT tokens_import_a_type = Failure (UnexpectedToken 4).
Proof.
  split; [intros t rest H; exists None; apply IDENTIFIER_type; exact H|].
  split; [vm_compute; reflexivity|].
  split; [vm_compute; reflexivity|].
  split; [vm_compute; reflexivity|].
  split; [exact tok_Identifier_type|].
  split; [exact STAT_require_type|].
  split; [exact STAT_import_as_type|].
  split; [exact STAT_import_type|].
  split; [exact STAT_import_type_type|].
  split; [exact STAT_import_next_type|].
  split.
  { intros i b first pairs c t rest Hi Hb Hf Hp Hc Ht.
    exact (proj1 (@STAT_import_later_type i b first c t pairs rest
                    Hi Hb Hf Hp Hc Ht)). }
  split.
  { intros i m b first pairs c t rest Hi Hm Hb Hf Hp Hc Ht.
    exact (proj2 (@STAT_import_later_type i b first c t pairs rest
                    Hi Hb Hf Hp Hc Ht) m Hm). }
  split; [vm_compute; reflexivity|].
  split; vm_compute; reflexivity.
Qed.

Lemma C10_type_keyword_as_identifier_witness :
  text (mkToken Word "const" 0) = "const" /\
  kind (mkToken KEYWORD_type "type" 1) = KEYWORD_type /\
  isFailure (STAT tokens_require_type) /\
  isFailure
    (STAT (tokens [word "import"; typeKeyword; punct "{"; ident "a";
                   punct ","; ident "b"; punct ","; typeKeyword;
                   punct "}"; word "from"; (StringLiteral, "'m'");
                   punct ";"])).
Proof.
  split; [reflexivity|]. split; [reflexivity|]. split.
  - apply (proj1 (proj2 (proj2 (proj2 (proj2 (proj2
             C10_type_keyword_as_identifier)))))); reflexivity.
  - apply (proj1 (proj2 (proj2 (proj2 (proj2 (proj2 (proj2 (proj2
             (proj2 (proj2 (proj2 (proj2
               C10_type_keyword_as_identifier)))))))))))
             (mkToken Word "import" 0) (mkToken KEYWORD_type "type" 1)
             (mkToken Punctuation "{" 2) (mkToken Identifier "a" 3)
             [(mkToken Punctuation "," 4, mkToken Identifier "b" 5)]
             (mkToken Punctuation "," 6) (mkToken KEYWORD_type "type" 7)
             (tokensFrom 8 [punct "}"; word "from"; (StringLiteral, "'m'");
                            punct ";"]));
      try reflexivity.
    repeat constructor.
Defined.

(* ------------------------------------------------------------------ *)
(** ** The reported error is the furthest one met *)

Lemma atLeast_refl (e : ParseError) : atLeast e e.
Proof.
  unfold atLeast. destruct (errorPos e); [apply le_n | exact Logic.I].
Qed.

Lemma atLeast_trans (a b c : ParseError) :
  atLeast a b -> atLeast b c -> atLeast a c.
Proof.
  unfold atLeast.
  destruct (errorPos a), (errorPos b), (errorPos c); intros; try tauto; lia.
Qed.

Lemma furthest_cases (a b : ParseError) :
  furthest a b = a \/ furthest a b = b.
Proof.
  unfold furthest.
  destruct (errorPos a) as [p|]; [|left; reflexivity].
  destruct (errorPos b) as [q|]; [|right; reflexivity].
  destruct (Nat.ltb p q); [right | left]; reflexivity.
Qed.

Lemma furthest_atLeast_l (a b : ParseError) : atLeast (furthest a b) a.
Proof.
  unfold furthest, atLeast.
  destruct (errorPos a) as [p|] eqn:Ha.
  - destruct (errorPos b) as [q|] eqn:Hb.
    + destruct (Nat.ltb p q) eqn:Hlt.
      * rewrite Hb. apply Nat.ltb_lt in Hlt. lia.
      * rewrite Ha. apply le_n.
    + rewrite Hb. exact Logic.I.
  - rewrite Ha. exact Logic.I.
Qed.

Lemma furthest_atLeast_r (a b : ParseError) : atLeast (furthest a b) b.
Proof.
  unfold furthest, atLeast.
  destruct (errorPos a) as [p|] eqn:Ha.
  - destruct (errorPos b) as [q|] eqn:Hb.
    + destruct (Nat.ltb p q) eqn:Hlt.
      * rewrite Hb. apply le_n.
      * rewrite Ha. apply Nat.ltb_ge in Hlt. exact Hlt.
    + rewrite Hb. exact Logic.I.
  - rewrite Ha. exact Logic.I.
Qed.

Lemma Forall_atLeast_further (a b : ParseError) (log : list ParseError) :
  atLeast a b -> Forall (atLeast b) log -> Forall (atLeast a) log.
Proof.
  intros Hab Hall. eapply Forall_impl; [|exact Hall].
  intros x Hx. eapply atLeast_trans; eassumption.
Qed.

(** Joining two logs joins their furthest errors. *)
Lemma furthestOf_betterError (a b : option ParseError)
    (l1 l2 : list ParseError) :
  furthestOf a l1 -> furthestOf b l2 ->
  furthestOf (betterError a b) (l1 ++ l2).
Proof.
  destruct a as [a|]; simpl.
  - intros [Hin1 Hall1]. destruct b as [b|]; simpl.
    + intros [Hin2 Hall2]. split.
      * apply in_or_app.
        destruct (furthest_cases a b) as [H|H]; rewrite H; tauto.
      * apply Forall_app. split.
        -- eapply Forall_atLeast_further;
             [apply furthest_atLeast_l | exact Hall1].
        -- eapply Forall_atLeast_further;
             [apply furthest_atLeast_r | exact Hall2].
    + intros ->. rewrite app_nil_r. split; assumption.
  - intros ->. simpl. tauto.
Qed.

Lemma furthestOf_single (e : ParseError) : furthestOf (Some e) [e].
Proof.
  split; [left; reflexivity|].
  constructor; [apply atLeast_refl | constructor].
Qed.

Lemma sound_Lstr (s : string) : sound (Lstr s).
Proof.
  intros ts. simpl. unfold str.
  destruct ts as [|t rest]; [apply furthestOf_single|].
  destruct (String.eqb (text t) s);
    [reflexivity | apply furthestOf_single].
Qed.

Lemma sound_Ltok (k : TokenKind) : sound (Ltok k).
Proof.
  intros ts. simpl. unfold tok.
  destruct ts as [|t rest]; [apply furthestOf_single|].
  destruct (TokenKind_eqb (kind t) k);
    [reflexivity | apply furthestOf_single].
Qed.

Lemma sound_Lapply {A B : Type} (p : Logged A) (f : A -> B) :
  sound p -> sound (Lapply p f).
Proof.
  intros Hp ts. specialize (Hp ts). simpl. unfold apply.
  destruct (run p ts); exact Hp.
Qed.

Lemma sound_Lseq {A B : Type} (p : Logged A) (q : Logged B) :
  sound p -> sound q -> sound (Lseq p q).
Proof.
  intros Hp Hq ts. specialize (Hp ts). simpl. unfold seq.
  destruct (run p ts) as [a rest1 e1|e|m].
  - specialize (Hq rest1).
    destruct (run q rest1) as [b rest2 e2|e2|m].
    + apply furthestOf_betterError; assumption.
    + pose proof (@furthestOf_betterError e1 (Some e2) _ _ Hp Hq) as H.
      destruct e1; exact H.
    + exact Logic.I.
  - rewrite app_nil_r. exact Hp.
  - exact Logic.I.
Qed.

(** The alternatives from some point on, given the furthest error [err]
    of the log [log] of the alternatives before them. *)
Lemma sound_alt_from {A : Type} (ps : list (Logged A)) :
  Forall (@sound A) ps ->
  forall err log ts,
    furthestOf err log ->
    match alt_from err (map (@run A) ps) ts with
    | Thrown _ => True
    | o => furthestOf (errorOf o) (log ++ met_alt_from err ps ts)
    end.
Proof.
  induction 1 as [|p ps Hp Hps IH]; intros err log ts Herr.
  - simpl. destruct err as [e|].
    + rewrite app_nil_r. exact Herr.
    + simpl in Herr. subst log. apply furthestOf_single.
  - specialize (Hp ts). simpl.
    destruct (run p ts) as [r rest e|e|m].
    + rewrite app_nil_r. apply furthestOf_betterError; assumption.
    + specialize (IH (betterError err (Some e)) (log ++ met p ts)%list ts
                     (@furthestOf_betterError _ _ _ _ Herr Hp)).
      rewrite <- app_assoc in IH. exact IH.
    + exact Logic.I.
Qed.

Lemma sound_Lalt {A : Type} (ps : list (Logged A)) :
  Forall (@sound A) ps -> sound (Lalt ps).
Proof.
  intros Hps ts.
  exact (@sound_alt_from A ps Hps None [] ts eq_refl).
Qed.

Lemma sound_Lopt_sc {A : Type} (p : Logged A) :
  sound p -> sound (Lopt_sc p).
Proof.
  intros Hp ts. specialize (Hp ts). simpl. unfold opt_sc.
  destruct (run p ts); exact Hp.
Qed.

(** The rounds of a repetition from some point on, given the furthest
    error [err] of the log [log] of the rounds before them. *)
Lemma sound_rep_loop {A : Type} (p : Logged A) :
  sound p ->
  forall rounds acc err log ts,
    furthestOf err log ->
    match rep_loop (run p) rounds acc err ts with
    | Thrown _ => True
    | o => furthestOf (errorOf o) (log ++ met_rep_loop p rounds ts)
    end.
Proof.
  intros Hp. induction rounds as [|rounds IH]; intros acc err log ts Herr.
  - simpl. rewrite app_nil_r. exact Herr.
  - specialize (Hp ts). simpl.
    destruct (run p ts) as [r rest e|e|m].
    + destruct (Nat.ltb (length rest) (length ts)).
      * specialize (IH (r :: acc) (betterError err e)
                       (log ++ met p ts)%list rest
                       (@furthestOf_betterError _ _ _ _ Herr Hp)).
        rewrite <- app_assoc in IH. exact IH.
      * simpl. rewrite app_nil_r.
        apply furthestOf_betterError; assumption.
    + simpl. rewrite app_nil_r.
      exact (@furthestOf_betterError err (Some e) _ _ Herr Hp).
    + exact Logic.I.
Qed.

Lemma sound_Lrep_sc {A : Type} (p : Logged A) :
  sound p -> sound (Lrep_sc p).
Proof.
  intros Hp ts.
  exact (@sound_rep_loop A p Hp (S (length ts)) [] None [] ts eq_refl).
Qed.

Lemma sound_Lkright {A B : Type} (p : Logged A) (q : Logged B) :
  sound p -> sound q -> sound (Lkright p q).
Proof.
  intros Hp Hq. apply sound_Lapply. apply sound_Lseq; assumption.
Qed.

Lemma sound_Llist_sc {A S : Type} (p : Logged A) (s : Logged S) :
  sound p -> sound s -> sound (Llist_sc p s).
Proof.
  intros Hp Hs. apply sound_Lapply. apply sound_Lseq; [exact Hp|].
  apply sound_Lrep_sc. apply sound_Lkright; assumption.
Qed.

Lemma sound_Llrec_sc {A B : Type} (p : Logged A) (q : Logged B)
    (callback : A -> B -> Completion A) :
  sound p -> sound q -> sound (Llrec_sc p q callback).
Proof.
  intros Hp Hq ts.
  pose proof (@sound_Lseq _ _ p (Lrep_sc q) Hp (@sound_Lrep_sc _ q Hq) ts)
    as H.
  unfold Llrec_sc. unfold run at 1. unfold lrec_sc.
  change (seq (run p) (rep_sc (run q)) ts)
    with (run (Lseq p (Lrep_sc q)) ts).
  destruct (run (Lseq p (Lrep_sc q)) ts) as [v rest e|e|m].
  - destruct (applyLrec callback (fst v) (snd v));
      [exact H | exact Logic.I].
  - exact H.
  - exact Logic.I.
Qed.

(** Soundness of a grammar rule follows the shape of the rule. *)
Ltac sound_rule :=
  repeat first
    [ assumption
    | apply sound_Lstr
    | apply sound_Ltok
    | apply sound_Lapply
    | apply sound_Lseq
    | apply sound_Lopt_sc
    | apply sound_Lrep_sc
    | apply sound_Llist_sc
    | apply sound_Llrec_sc
    | apply sound_Lalt
    | apply Forall_cons
    | apply Forall_nil ].

Lemma sound_LIDENTIFIER : sound LIDENTIFIER.
Proof. unfold LIDENTIFIER. sound_rule. Qed.

Lemma sound_LTYPE_TERM_pattern (LTYPE : Logged Type_) :
  sound LTYPE -> sound (LTYPE_TERM_pattern LTYPE).
Proof.
  intros H. pose proof sound_LIDENTIFIER as Hid.
  unfold LTYPE_TERM_pattern. sound_rule.
Qed.

Lemma sound_LTYPE_ARRAY_pattern (LTYPE_TERM : Logged Type_) :
  sound LTYPE_TERM -> sound (LTYPE_ARRAY_pattern LTYPE_TERM).
Proof. intros H. unfold LTYPE_ARRAY_pattern. sound_rule. Qed.

Lemma sound_LTYPE_pattern (LTYPE_ARRAY : Logged Type_) :
  sound LTYPE_ARRAY -> sound (LTYPE_pattern LTYPE_ARRAY).
Proof. intros H. unfold LTYPE_pattern. sound_rule. Qed.

(** The logged rules run the rules of the grammar. *)
Lemma run_LTYPE_rec (depth : nat) : run (LTYPE_rec depth) = TYPE_rec depth.
Proof.
  induction depth as [|depth IH]; [reflexivity|].
  change (TYPE_pattern (TYPE_ARRAY_pattern
            (TYPE_TERM_pattern (run (LTYPE_rec depth))))
          = TYPE_rec (S depth)).
  rewrite IH. reflexivity.
Qed.

Lemma sound_LTYPE_rec (depth : nat) : sound (LTYPE_rec depth).
Proof.
  induction depth as [|depth IH].
  - intros ts. apply furthestOf_single.
  - simpl. apply sound_LTYPE_pattern. apply sound_LTYPE_ARRAY_pattern.
    apply sound_LTYPE_TERM_pattern. exact IH.
Qed.

Lemma sound_mkLogged {A : Type} (p : Parser A)
    (log : list Token -> list ParseError) :
  (forall ts,
      match p ts with
      | Thrown _ => True
      | o => furthestOf (errorOf o) (log ts)
      end) ->
  sound (mkLogged p log).
Proof. intros H ts. exact (H ts). Qed.

Lemma sound_LTYPE : sound LTYPE.
Proof.
  unfold LTYPE. apply sound_mkLogged. intros ts. unfold TYPE.
  pose proof (sound_LTYPE_rec (S (length ts)) ts) as H.
  rewrite run_LTYPE_rec in H. exact H.
Qed.

Lemma sound_LDECL : sound LDECL.
Proof.
  pose proof sound_LIDENTIFIER as Hid. pose proof sound_LTYPE as Hty.
  unfold LDECL. sound_rule.
Qed.

Lemma sound_LSTAT : sound LSTAT.
Proof.
  pose proof sound_LIDENTIFIER as Hid. pose proof sound_LDECL as Hdecl.
  unfold LSTAT. sound_rule.
Qed.

Lemma sound_LPROGRAM : sound LPROGRAM.
Proof.
  pose proof sound_LSTAT as Hstat. unfold LPROGRAM. sound_rule.
Qed.

Lemma run_LSTAT : run LSTAT = STAT.
Proof. reflexivity. Qed.

Lemma run_LPROGRAM : run LPROGRAM = PROGRAM.
Proof. reflexivity. Qed.

(** The error [parseProgram] reports is the furthest of the errors met
    by [PROGRAM] and the one for the token left over. *)
Lemma parseProgram_furthest (ts : list Token) (error : ParseError) :
  parseProgram ts = Normal (inr error) ->
  exists program t rest e,
    PROGRAM ts = Success program (t :: rest) e /\
    furthestOf (Some error) (met LPROGRAM ts ++ [TrailingInput (pos t)]).
Proof.
  intros Hrun. unfold parseProgram in Hrun.
  pose proof (sound_LPROGRAM ts) as Hsound. rewrite run_LPROGRAM in Hsound.
  destruct (PROGRAM_spec ts) as [stats [rest [e [H _]]]].
  rewrite H in Hrun, Hsound. simpl in Hsound.
  destruct rest as [|t rest]; [discriminate Hrun|].
  exists (mkFlowProgram stats), t, rest, e. split; [exact H|].
  pose proof (@furthestOf_betterError e (Some (TrailingInput (pos t)))
                _ _ Hsound (furthestOf_single (TrailingInput (pos t))))
    as Hb.
  destruct e as [e'|]; simpl in Hb; inversion Hrun; subst error; exact Hb.
Qed.

(** C8.  On [type A = ;] the declaration and the statement rules fail
    with [UnexpectedToken] at the position of [;] (the fourth token), and
    parsing the stream as a program reports that error and no AST.  For
    every stream, parsing as a program gives either the program of a
    stream consumed to its end, or one error and no program; that error
    is the furthest of the errors met: it is one of the refusals logged
    while [PROGRAM] ran or the error for the token left over, and none of
    them lies further into the stream.  The log belongs to the rules of
    the grammar: [run LSTAT] is [STAT] and [run LPROGRAM] is [PROGRAM].
    On [type A = ;] the refusals are at positions 0, 1 and 3, and the
    reported error is the one at 3. *)
Theorem C8_missing_type_fails :
  nth_error tokens_missing_type 3 = Some (mkToken Punctuation ";" 3) /\
  DECL tokens_missing_type = Failure (UnexpectedToken 3) /\
  STAT tokens_missing_type = Failure (UnexpectedToken 3) /\
  parseProgram tokens_missing_type = Normal (inr (UnexpectedToken 3)) /\
  (forall ts,
      (exists program e,
          parseProgram ts = Normal (inl program) /\
          PROGRAM ts = Success program [] e) \/
      (exists error, parseProgram ts = Normal (inr error))) /\
  run LSTAT = STAT /\
  run LPROGRAM = PROGRAM /\
  (forall ts error,
      parseProgram ts = Normal (inr error) ->
      exists program t rest e,
        PROGRAM ts = Success program (t :: rest) e /\
        furthestOf (Some error)
          (met LPROGRAM ts ++ [TrailingInput (pos t)])) /\
  (forall ts error x,
      parseProgram ts = Normal (inr error) ->
      In x (met LPROGRAM ts) -> atLeast error x) /\
  met LPROGRAM tokens_missing_type =
    (UnexpectedToken 0 :: UnexpectedToken 1 ::
     repeat (UnexpectedToken 3) 16 ++ repeat (UnexpectedToken 0) 4)%list.
Proof.
  split; [reflexivity|].
  split; [vm_compute; reflexivity|].
  split; [vm_compute; reflexivity|].
  split; [vm_compute; reflexivity|].
  split.
  { intros ts. unfold parseProgram.
    destruct (PROGRAM_spec ts) as [stats [rest [e [H _]]]]. rewrite H.
    destruct rest as [|t rest].
    - left. eexists. eexists. split; reflexivity.
    - right. eexists. reflexivity. }
  split; [exact run_LSTAT|].
  split; [exact run_LPROGRAM|].
  split; [exact parseProgram_furthest|].
  split; [|vm_compute; reflexivity].
  intros ts error x Hrun Hin.
  destruct (@parseProgram_furthest ts error Hrun)
    as [program [t [rest [e [_ [_ Hall]]]]]].
  rewrite Forall_forall in Hall. apply Hall.
  apply in_or_app. left. exact Hin.
Qed.

(** On [type A = ;] the reported error is the furthest of the log. *)
Lemma C8_missing_type_fails_witness :
  exists program t rest e,
    PROGRAM tokens_missing_type = Success program (t :: rest) e /\
    furthestOf (Some (UnexpectedToken 3))
      (met LPROGRAM tokens_missing_type ++ [TrailingInput (pos t)]).
Proof.
  apply (proj1 (proj2 (proj2 (proj2 (proj2 (proj2 (proj2 (proj2
           C8_missing_type_fails))))))) tokens_missing_type
           (UnexpectedToken 3)).
  vm_compute. reflexivity.
Defined.
